(** * A shallow embedding of cppcheck's preprocessor (src/preprocessor.cpp)

    Text is a [list ascii]; a [std::string] position is a [nat], and
    [std::string::npos] is [None].  Reading the back of an empty
    [std::list] is undefined behaviour in the source; here it is [None]
    in the option monad.  The source's [while] loops are fixpoints on a
    bound computed from the input; they return [None] if the bound is
    used up, and the [_total] lemmas show that it never is. *)

From Stdlib Require Import Ascii String List Arith Lia Bool.
From stdpp Require Import base option list strings gmap.

Local Open Scope string_scope.
Local Open Scope list_scope.

(** String literals stand for their list of characters. *)
Coercion list_ascii_of_string : string >-> list.

Abbreviation text := (list ascii).

Definition nl : ascii := "010"%char.
Definition tab : ascii := "009"%char.
Definition sp : ascii := " "%char.
Definition dquote : ascii := "034"%char.
Definition squote : ascii := "039"%char.
Definition bslash : ascii := "092"%char.
Definition slash : ascii := "/"%char.
Definition star : ascii := "*"%char.
Definition hash : ascii := "#"%char.
(** [(char) EOF]: what [(char)istr.get()] yields once the stream is exhausted. *)
Definition eof_char : ascii := "255"%char.

(** ** std::string primitives *)

Module Str.

Fixpoint prefixb (p s : text) : bool :=
  match p, s with
  | [], _ => true
  | a :: p', b :: s' => Ascii.eqb a b && prefixb p' s'
  | _ :: _, [] => false
  end.

(** First occurrence of [pat] in [s], counted from the start of [s]. *)
Fixpoint find0 (pat s : text) : option nat :=
  if prefixb pat s then Some 0
  else match s with
       | [] => None
       | _ :: s' => S <$> find0 pat s'
       end.

(** [s.find(pat, pos)] *)
Definition find (s pat : text) (pos : nat) : option nat :=
  if (length s <? pos)%nat then None
  else (fun i => pos + i) <$> find0 pat (drop pos s).

(** [s.rfind(pat)]: the last occurrence. *)
Fixpoint rfind (s pat : text) : option nat :=
  match s with
  | [] => if prefixb pat [] then Some 0 else None
  | _ :: s' =>
      match rfind s' pat with
      | Some i => Some (S i)
      | None => if prefixb pat s then Some 0 else None
      end
  end.

(** [s.erase(pos, n)]; [n = None] is [npos]: erase to the end. *)
Definition erase (s : text) (pos : nat) (n : option nat) : text :=
  match n with
  | Some n => take pos s ++ drop (pos + n) s
  | None => take pos s
  end.

(** [s.insert(pos, t)] *)
Definition insert (s : text) (pos : nat) (t : text) : text :=
  take pos s ++ t ++ drop pos s.

(** [s.substr(pos, n)] *)
Definition substr (s : text) (pos n : nat) : text := take n (drop pos s).

(** [s[i]]; reading at [s.size()] gives the terminating NUL. *)
Definition at_ (s : text) (i : nat) : ascii := nth i s zero.

(** [s.find(pat) == 0] *)
Definition starts (s pat : text) : bool := bool_decide (find s pat 0 = Some 0).

Definition count (c : ascii) (s : text) : nat := length (filter (fun x => x = c) s).

End Str.

(** ** std::list primitives: [back()] and [pop_back()] are undefined on an empty list *)

Definition back {A} (l : list A) : option A := last l.

Definition pop_back {A} (l : list A) : option (list A) :=
  match l with
  | [] => None
  | _ => Some (removelast l)
  end.

Definition push_back {A} (l : list A) (x : A) : list A := l ++ [x].

(** [l.back() = x] *)
Definition set_back {A} (l : list A) (x : A) : option (list A) :=
  l' ← pop_back l; Some (push_back l' x).

Definition empty {A} (l : list A) : bool :=
  match l with [] => true | _ => false end.

(** ** [while (getline(istr, line))] *)

(** One [getline]: [None] once the stream is exhausted; otherwise the
    characters up to the next newline (which is consumed) or the end. *)
Fixpoint getline_aux (s : text) : text * text :=
  match s with
  | [] => ([], [])
  | c :: s' =>
      if Ascii.eqb c nl then ([], s')
      else let '(l, r) := getline_aux s' in (c :: l, r)
  end.

Definition getline (s : text) : option (text * text) :=
  match s with
  | [] => None
  | _ => Some (getline_aux s)
  end.

(** All the lines the loop sees, in order. *)
Fixpoint getlines (s : text) : list text :=
  match s with
  | [] => []
  | c :: s' =>
      if Ascii.eqb c nl then [] :: getlines s'
      else match getlines s' with
           | [] => [[c]]
           | l :: ls => (c :: l) :: ls
           end
  end.

(** ** Directive parser: [Preprocessor::getdef] *)

Definition getdef (line : text) (def : bool) : text :=
  if def && negb (Str.starts line "#ifdef ") && negb (Str.starts line "#if ")
         && negb (Str.starts line "#elif ")
  then []
  else if negb def && negb (Str.starts line "#ifndef ")
  then []
  else
    (* line.erase(0, line.find(" ")) *)
    let line := Str.erase line 0 (Str.find line " " 0) in
    (* the loop erases the leftmost space until none is left *)
    filter (fun c => c <> sp) line.

(** ** Configuration enumerator: [Preprocessor::getcfgs] *)

(** The [for] loop over [deflist] that builds the configuration string:
    stop at "0", skip "1", join the others with ';'. *)
Fixpoint join_defs (def : text) (deflist : list text) : text :=
  match deflist with
  | [] => def
  | it :: rest =>
      if bool_decide (it = "0") then def
      else if bool_decide (it = "1") then join_defs def rest
      else join_defs ((if empty def then def else def ++ ";") ++ it) rest
  end.

Record cfgs_state := CfgsState {
  cs_ret : list text;       (* ret *)
  cs_deflist : list text    (* deflist *)
}.

(** The three [if] statements of the loop body, in order: a line that
    names a guard, a line that starts with [#else], a line that starts
    with [#endif]. *)
Definition getcfgs_on_def (line : text) (ret deflist : list text)
  : option (list text * list text) :=
  let def := getdef line true ++ getdef line false in
  if negb (empty def) then
    deflist ← (if negb (empty deflist) && Str.starts line "#elif "
               then pop_back deflist else Some deflist);
    let deflist := push_back deflist def in
    let def := join_defs [] deflist in
    Some (if bool_decide (def ∈ ret) then ret else push_back ret def, deflist)
  else Some (ret, deflist).

Definition getcfgs_on_else (line : text) (deflist : list text) : option (list text) :=
  if Str.starts line "#else" && negb (empty deflist) then
    top ← back deflist;
    let def : text := if bool_decide (top = ("1" : text)) then "0" else "1" in
    deflist ← pop_back deflist;
    Some (push_back deflist def)
  else Some deflist.

Definition getcfgs_on_endif (line : text) (deflist : list text) : option (list text) :=
  if Str.starts line "#endif" && negb (empty deflist)
  then pop_back deflist else Some deflist.

(** The body of the [while (getline(istr, line))] loop. *)
Definition getcfgs_line (line : text) (st : cfgs_state) : option cfgs_state :=
  '(ret, deflist) ← getcfgs_on_def line (cs_ret st) (cs_deflist st);
  deflist ← getcfgs_on_else line deflist;
  deflist ← getcfgs_on_endif line deflist;
  Some (CfgsState ret deflist).

Fixpoint getcfgs_loop (lines : list text) (st : cfgs_state) : option cfgs_state :=
  match lines with
  | [] => Some st
  | line :: rest => st' ← getcfgs_line line st; getcfgs_loop rest st'
  end.

Definition getcfgs (filedata : text) : option (list text) :=
  cs_ret <$> getcfgs_loop (getlines filedata) (CfgsState [[]] []).

(** ** Configuration matcher: [Preprocessor::match_cfg_def] *)

(** The [while (! cfg.empty())] loop; every round erases at least one
    character of [cfg], so [length cfg] rounds are enough. *)
Fixpoint match_cfg_loop (fuel : nat) (cfg def : text) : bool :=
  match fuel with
  | 0 => false
  | S fuel =>
      if empty cfg then false
      else match Str.find cfg ";" 0 with
           | None => bool_decide (cfg = def)
           | Some i =>
               if bool_decide (Str.substr cfg 0 i = def) then true
               else match_cfg_loop fuel (Str.erase cfg 0 (Some (i + 1))) def
           end
  end.

Definition match_cfg_def (cfg def : text) : bool :=
  if bool_decide (def = "0") then false
  else if bool_decide (def = "1") then true
  else if empty cfg then false
  else match_cfg_loop (length cfg) cfg def.

(** ** Configuration selector: [Preprocessor::getcode] *)

Record code_state := CodeState {
  gs_match : bool;               (* match *)
  gs_matching : list bool;       (* matching_ifdef *)
  gs_matched : list bool         (* matched_ifdef *)
}.

(** The [if / else if] chain that updates the two stacks. *)
Definition getcode_stacks (cfg line : text) (matching matched : list bool)
  : option (list bool * list bool) :=
  let def := getdef line true in
  let ndef := getdef line false in
  if Str.starts line "#elif " then
    back matched ≫= fun m : bool =>
    if m then
      matching ← set_back matching false; Some (matching, matched)
    else if match_cfg_def cfg def then
      matching ← set_back matching true;
      matched ← set_back matched true;
      Some (matching, matched)
    else Some (matching, matched)
  else if negb (empty def) then
    let matching := push_back matching (match_cfg_def cfg def) in
    b ← back matching; Some (matching, push_back matched b)
  else if negb (empty ndef) then
    let matching := push_back matching (negb (match_cfg_def cfg ndef)) in
    b ← back matching; Some (matching, push_back matched b)
  else if bool_decide (line = "#else") then
    if negb (empty matched) then
      back matched ≫= fun m : bool =>
      matching ← set_back matching (negb m); Some (matching, matched)
    else Some (matching, matched)
  else if bool_decide (line = "#endif") then
    matched ← (if negb (empty matched) then pop_back matched else Some matched);
    matching ← (if negb (empty matching) then pop_back matching else Some matching);
    Some (matching, matched)
  else Some (matching, matched).

(** What the rest of the loop body writes for [line]: the line, or the empty line. *)
Definition getcode_emit (match_ : bool) (line : text) : text :=
  let line := if negb match_ then [] else line in
  if Str.starts line "#if" || Str.starts line "#else"
     || Str.starts line "#elif" || Str.starts line "#endif"
  then [] else line.

(** The body of the loop: the new state and the line written (without its '\n'). *)
Definition getcode_line (cfg line : text) (st : code_state)
  : option (code_state * text) :=
  '(matching, matched) ← getcode_stacks cfg line (gs_matching st) (gs_matched st);
  let match_ :=
    if negb (empty line) && bool_decide (Str.at_ line 0 = hash)
    then forallb (fun b => b) matching
    else gs_match st in
  Some (CodeState match_ matching matched, getcode_emit match_ line).

(** The lines written by the loop, in order. *)
Fixpoint getcode_loop (cfg : text) (lines : list text) (st : code_state)
  : option (list text) :=
  match lines with
  | [] => Some []
  | line :: rest =>
      '(st', out) ← getcode_line cfg line st;
      outs ← getcode_loop cfg rest st';
      Some (out :: outs)
  end.

(** [ret << line << "\n"] for every line. *)
Definition unlines (ls : list text) : text := concat (map (fun l => l ++ [nl]) ls).

Definition getcode_lines (filedata cfg : text) : option (list text) :=
  getcode_loop cfg (getlines filedata) (CodeState true [] []).

Definition getcode (filedata cfg : text) : option text :=
  unlines <$> getcode_lines filedata cfg.

(** ** Source cleaner: [Preprocessor::read] *)

(** An input stream: [Some s] is a good stream with [s] still to be read,
    [None] a stream on which a read has failed ([!istr.good()]). *)
Definition istream := option text.

Definition good (istr : istream) : bool :=
  match istr with Some _ => true | None => false end.

(** [(char)istr.get()] *)
Definition get (istr : istream) : ascii * istream :=
  match istr with
  | Some (c :: s) => (c, Some s)
  | _ => (eof_char, None)
  end.

Definition code_of (c : ascii) : nat := nat_of_ascii c.

(** [ch < 0] for the (signed) [char] the source compares with 0. *)
Definition is_negative (c : ascii) : bool := (128 <=? code_of c)%nat.

(** <cctype> in the C locale, on a non-negative [char]. *)
Definition isspace (c : ascii) : bool :=
  ((9 <=? code_of c) && (code_of c <=? 13) || (code_of c =? 32))%nat.
Definition iscntrl (c : ascii) : bool :=
  ((code_of c <? 32) || (code_of c =? 127))%nat.
Definition isalnum (c : ascii) : bool :=
  ((48 <=? code_of c) && (code_of c <=? 57)
   || (65 <=? code_of c) && (code_of c <=? 90)
   || (97 <=? code_of c) && (code_of c <=? 122))%nat.
Definition isalpha (c : ascii) : bool :=
  ((65 <=? code_of c) && (code_of c <=? 90)
   || (97 <=? code_of c) && (code_of c <=? 122))%nat.

(** "Replace assorted special chars with spaces..":
    [if ((ch != '\n') && (isspace(ch) || iscntrl(ch))) ch = ' ';] *)
Definition normal (ch : ascii) : ascii :=
  if negb (Ascii.eqb ch nl) && (isspace ch || iscntrl ch) then sp else ch.

(** [while (istr.good() && ch != '\n') ch = (char)istr.get();]
    entered on a good stream with [s] still to be read. *)
Fixpoint line_comment (ch : ascii) (s : text) : istream :=
  if Ascii.eqb ch nl then Some s
  else match s with
       | [] => None
       | c :: s' => line_comment c s'
       end.

(** The loop of the block comment, entered on a good stream: what it
    writes (one '\n' per '\n' read) and the stream it leaves. *)
Fixpoint block_comment (chPrev ch : ascii) (s : text) : text * istream :=
  if Ascii.eqb chPrev star && Ascii.eqb ch slash then ([], Some s)
  else match s with
       | [] => ([], None)
       | c :: s' =>
           let '(out, istr) := block_comment ch c s' in
           ((if Ascii.eqb c nl then [nl] else []) ++ out, istr)
       end.

(** The [do ... while] loop of a string constant, entered on a good
    stream after the opening quote was written. *)
Fixpoint string_const (s : text) : text * istream :=
  match s with
  | [] => ([eof_char], None)
  | c :: s' =>
      if Ascii.eqb c bslash then
        match s' with
        | [] => ([c; eof_char], None)
        | c2 :: s'' => let '(out, istr) := string_const s'' in (c :: c2 :: out, istr)
        end
      else if Ascii.eqb c dquote then ([c], Some s')
      else let '(out, istr) := string_const s' in (c :: out, istr)
  end.

(** A char constant: the quote, one character, its escapee when it is a
    backslash, then one character is read and dropped and a quote written. *)
Definition char_const (istr : istream) : text * istream :=
  let '(ch, istr) := get istr in
  let '(esc, istr) :=
    if Ascii.eqb ch bslash
    then let '(ch2, istr) := get istr in ([ch2], istr)
    else ([], istr) in
  let '(_, istr) := get istr in
  ([squote; ch] ++ esc ++ [squote], istr).

(** The body of the [for] loop of [read], for the character [ch] just
    read from a stream that is then [istr]: what is written to [code],
    the new [ignoreSpace] and the stream left. *)
Definition read_round (ignoreSpace : bool) (ch : ascii) (istr : istream)
  : text * bool * istream :=
  if is_negative ch then ([], ignoreSpace, istr)
  else
    let ch := normal ch in
    if Ascii.eqb ch sp && ignoreSpace then ([], ignoreSpace, istr)
    else
      let ignoreSpace := Ascii.eqb ch sp || Ascii.eqb ch hash || Ascii.eqb ch slash in
      if Ascii.eqb ch slash then
        let '(chNext, istr) := get istr in
        if Ascii.eqb chNext slash then
          let istr := match istr with Some s => line_comment ch s | None => None end in
          ([nl], ignoreSpace, istr)
        else if Ascii.eqb chNext star then
          let '(nls, istr) :=
            match istr with Some s => block_comment zero ch s | None => ([], None) end in
          (nls, ignoreSpace, istr)
        else ([ch; chNext], ignoreSpace, istr)
      else if Ascii.eqb ch dquote then
        let '(lit, istr) :=
          match istr with Some s => string_const s | None => ([eof_char], None) end in
        (dquote :: lit, ignoreSpace, istr)
      else if Ascii.eqb ch squote then
        let '(lit, istr) := char_const istr in
        (lit, ignoreSpace, istr)
      else ([ch], ignoreSpace, istr).

(** The [for] loop of [read]; each round reads at least one character. *)
Fixpoint read_loop (fuel : nat) (ignoreSpace : bool) (istr : istream) : option text :=
  match fuel with
  | 0 => None
  | S fuel =>
      let '(ch, istr) := get istr in
      if negb (good istr) then Some []
      else
        let '(out, ignoreSpace, istr) := read_round ignoreSpace ch istr in
        (fun code => out ++ code) <$> read_loop fuel ignoreSpace istr
  end.

Definition read (input : text) : option text :=
  read_loop (S (length input)) true (Some input).

(** ** The cleaning passes of [Preprocessor::preprocess] *)

(** [std::replace(begin, end, '\t', ' ')] *)
Definition replace_tabs (s : text) : text :=
  map (fun c => if Ascii.eqb c tab then sp else c) s.

(** [s.find_first_not_of(" ")] *)
Fixpoint find_first_not_of_space (s : text) : option nat :=
  match s with
  | [] => None
  | c :: s' => if Ascii.eqb c sp then S <$> find_first_not_of_space s' else Some 0
  end.

(** "Remove all indentation.." *)
Definition remove_indentation (s : text) : text :=
  if negb (empty s) && Ascii.eqb (Str.at_ s 0) sp
  then Str.erase s 0 (find_first_not_of_space s)
  else s.

(** [Preprocessor::removeSpaceNearNL]: [i0] is [i == 0] and [prev] is
    [tmp[prev]], the last character appended to [tmp] ([None] while [tmp]
    is empty, where reading [tmp[prev]] is out of bounds). *)
Fixpoint removeSpaceNearNL_loop (i0 : bool) (prev : option ascii) (str : text)
  : option text :=
  match str with
  | [] => Some []
  | c :: rest =>
      after_nl ← (if Ascii.eqb c sp && negb i0
                  then (fun p => Ascii.eqb p nl) <$> prev else Some false);
      let before_nl := match rest with n :: _ => Ascii.eqb n nl | [] => false end in
      if Ascii.eqb c sp && (after_nl || before_nl)
      then removeSpaceNearNL_loop false prev rest
      else (fun out => c :: out) <$> removeSpaceNearNL_loop false (Some c) rest
  end.

Definition removeSpaceNearNL (str : text) : option text :=
  removeSpaceNearNL_loop true None str.

(** One round of the loop "Using the backslash at the end of a line..". *)
Definition fold_step (s : text) (loc : nat) : text :=
  let s := Str.erase s loc (Some 2) in
  let s := if (0 <? loc)%nat && negb (Ascii.eqb (Str.at_ s (loc - 1)) sp)
           then Str.insert s loc " " else s in
  match Str.find s [nl] loc with
  | Some loc => Str.insert s loc [nl]
  | None => s
  end.

Fixpoint fold_loop (fuel : nat) (s : text) : option text :=
  match Str.rfind s [bslash; nl] with
  | None => Some s
  | Some loc =>
      match fuel with
      | 0 => None
      | S fuel => fold_loop fuel (fold_step s loc)
      end
  end.

(** Every round erases one backslash and writes none. *)
Definition fold_continuations (s : text) : option text := fold_loop (length s) s.

(** [Preprocessor::replaceIfDefined] *)
Fixpoint replaceIfDefined_loop (fuel : nat) (ret : text) (pos : nat) : option text :=
  match Str.find ret "#if defined(" pos with
  | None => Some ret
  | Some pos =>
      match fuel with
      | 0 => None
      | S fuel =>
          match Str.find ret ")" (pos + 9) with
          | None => Some ret
          | Some pos2 =>
              if (length ret - 1 <? pos2)%nat then Some ret
              else
                let ret :=
                  if Ascii.eqb (Str.at_ ret (pos2 + 1)) nl
                  then Str.insert
                         (Str.erase (Str.erase ret pos2 (Some 1)) (pos + 3) (Some 9))
                         (pos + 3) "def "
                  else ret in
                replaceIfDefined_loop fuel ret (pos + 1)
          end
      end
  end.

Definition replaceIfDefined (str : text) : option text :=
  replaceIfDefined_loop (length str) str 0.

(** The text [preprocess] has before it folds the line continuations. *)
Definition unfolded (input : text) : option text :=
  processedFile ← read input;
  let processedFile := replace_tabs processedFile in
  let processedFile := remove_indentation processedFile in
  removeSpaceNearNL processedFile.

(** The cleaned text: everything [preprocess] does before [expandMacros]. *)
Definition clean (input : text) : option text :=
  processedFile ← unfolded input;
  processedFile ← fold_continuations processedFile;
  replaceIfDefined processedFile.

(** ** Macro expander: [Preprocessor::expandMacros] *)

(** A token as the expander reads it: [tok->str()] and [tok->isName()].
    A token list stands for a [Token *]: its head is the token pointed
    to, its tail is [tok->next()], and [[]] is [NULL]. *)
Record Token := MkToken { tok_str : text; tok_isName : bool }.

(** The tokenizer the expander calls ([Tokenizer::tokenize] and
    [Token::Match] live in tokenize.cpp and token.cpp); the expander is
    modelled over any such tokenizer. *)
Record Tokenizer := MkTokenizer {
  tokenize : text -> list Token;
  match_var_paren_var : list Token -> bool;   (* Token::Match(tok, "%var% ( %var%") *)
  match_type_var : list Token -> bool         (* Token::Match(tok, "%type% %var%") *)
}.

(** [macro.c_str()]: the text up to the first NUL. *)
Fixpoint c_str (s : text) : text :=
  match s with
  | [] => []
  | c :: s' => if Ascii.eqb c zero then [] else c :: c_str s'
  end.

(** [while (endpos != npos && code[endpos-1] == '\\') endpos = code.find("\n", endpos + 1);]
    The outer [None] is an exhausted fuel, the inner one is [npos]. *)
Fixpoint define_end (fuel : nat) (code : text) (endpos : option nat) : option (option nat) :=
  match endpos with
  | None => Some None
  | Some e =>
      if Ascii.eqb (Str.at_ code (e - 1)) bslash then
        match fuel with
        | 0 => None
        | S fuel => define_end fuel code (Str.find code [nl] (e + 1))
        end
      else Some (Some e)
  end.

(** "Remove "\\\n" from the macro": every fold puts a '\n' into [code]. *)
Fixpoint join_macro_lines (fuel : nat) (macro code : text) (defpos : nat)
  : option (text * text * nat) :=
  match Str.find macro [bslash; nl] 0 with
  | None => Some (macro, code, defpos)
  | Some i =>
      match fuel with
      | 0 => None
      | S fuel =>
          join_macro_lines fuel (Str.erase macro i (Some 2))
            (Str.insert code defpos [nl]) (S defpos)
      end
  end.

(** The loop from [tokAt(2)] that collects the formal parameters. *)
Fixpoint collect_params (toks : list Token) : list text :=
  match toks with
  | [] => []
  | tok :: rest =>
      if bool_decide (tok_str tok = ")") then []
      else (if tok_isName tok then [tok_str tok] else []) ++ collect_params rest
  end.

(** The [for (; pos2 < code.length(); ++pos2)] loop that reads the
    arguments; [s] is the code from [pos2] on.  It returns [params]
    and the final [pos2]. *)
Fixpoint parse_args (s : text) (pos2 : nat) (parlevel : Z) (par : text)
    (params : list text) : list text * nat :=
  match s with
  | [] => (params, pos2)
  | c :: s' =>
      let rest (parlevel : Z) :=
        if (parlevel =? 1)%Z && Ascii.eqb c ","%char
        then parse_args s' (S pos2) parlevel [] (push_back params par)
        else if (1 <=? parlevel)%Z
        then parse_args s' (S pos2) parlevel (par ++ [c]) params
        else parse_args s' (S pos2) parlevel par params in
      if Ascii.eqb c "("%char then
        let parlevel := (parlevel + 1)%Z in
        if (parlevel =? 1)%Z then parse_args s' (S pos2) parlevel par params
        else rest parlevel
      else if Ascii.eqb c ")"%char then
        let parlevel := (parlevel - 1)%Z in
        if (parlevel <=? 0)%Z then (push_back params par, pos2)
        else rest parlevel
      else rest parlevel
  end.

(** [while (tok && tok->str() != ")") tok = tok->next();] *)
Fixpoint skip_to_rparen (toks : list Token) : list Token :=
  match toks with
  | [] => []
  | tok :: rest => if bool_decide (tok_str tok = ")") then toks else skip_to_rparen rest
  end.

(** The loop over [macroparams] that replaces a formal by its argument. *)
Fixpoint subst_param (str : text) (macroparams params : list text) : text :=
  match macroparams, params with
  | mp :: mps, p :: ps => if bool_decide (str = mp) then p else subst_param str mps ps
  | _, _ => str
  end.

Section Expander.

Variable tk : Tokenizer.

Definition macro_params (toks : list Token) : list text :=
  if match_var_paren_var tk toks then collect_params (drop 2 toks) else [].

(** [while ((tok = tok->next()) != NULL)]: [toks] starts at [tok->next()]. *)
Fixpoint macro_body (toks : list Token) (macroparams params : list text) : text :=
  match toks with
  | [] => []
  | tok :: rest =>
      let str := if tok_isName tok
                 then subst_param (tok_str tok) macroparams params
                 else tok_str tok in
      str ++ (if match_type_var tk toks then " " else []) ++ macro_body rest macroparams params
  end.

(** "Create macro code.."; [tok->next()] on [NULL] is undefined. *)
Definition macro_code (toks : list Token) (macroparams params : list text) : option text :=
  let tok := if negb (empty macroparams) then skip_to_rparen toks else toks in
  match tok with
  | [] => None
  | _ :: rest => Some (macro_body rest macroparams params)
  end.

(** The arguments read at an occurrence: [None] is the [continue] taken
    when a function-like macro is not followed by '('. *)
Definition occurrence_args (macroparams : list text) (code : text) (pos2 : nat)
  : option (list text * nat) :=
  if negb (empty macroparams) then
    if negb (Ascii.eqb (Str.at_ code pos2) "("%char) then None
    else Some (parse_args (drop pos2 code) pos2 0%Z [] [])
  else Some ([], pos2).

(** One round of the loop over the occurrences of [macroname], for the
    occurrence found at [pos1]: the new [code] and [pos1].  A [continue]
    leaves both as they are. *)
Definition expand_occurrence (toks : list Token) (macro macroname : text)
    (macroparams : list text) (code : text) (pos1 : nat) : option (text * nat) :=
  if negb (pos1 =? 0)%nat
     && (isalnum (Str.at_ code (pos1 - 1)) || Ascii.eqb (Str.at_ code (pos1 - 1)) "_"%char)
  then Some (code, pos1)
  else
    let pos2 := pos1 + length macroname in
    if (length macro <=? pos2)%nat then Some (code, pos1)
    else
      match occurrence_args macroparams code pos2 with
      | None => Some (code, pos1)
      | Some (params, pos2) =>
          if negb (length params =? length macroparams)%nat then Some (code, pos1)
          else
            macrocode ← macro_code toks macroparams params;
            let code := Str.erase code pos1 (Some (pos2 + 1 - pos1)) in
            let code := Str.insert code pos1 macrocode in
            Some (code, pos1 + length macrocode)
      end.

(** [while ((pos1 = code.find(macroname, pos1 + 1)) != npos)] *)
Fixpoint expand_loop (fuel : nat) (toks : list Token) (macro macroname : text)
    (macroparams : list text) (code : text) (pos1 : nat) : option text :=
  match Str.find code macroname (pos1 + 1) with
  | None => Some code
  | Some pos1 =>
      match fuel with
      | 0 => None
      | S fuel =>
          '(code, pos1) ← expand_occurrence toks macro macroname macroparams code pos1;
          expand_loop fuel toks macro macroname macroparams code pos1
      end
  end.

(** [while ((defpos = code.find("#define", defpos)) != npos)]; [None] is an
    exhausted fuel or a dereferenced [NULL] token. *)
Fixpoint expandMacros_loop (fuel : nat) (code : text) (defpos : nat) : option text :=
  match Str.find code "#define" defpos with
  | None => Some code
  | Some defpos =>
      match fuel with
      | 0 => None
      | S fuel =>
          endpos ← define_end (length code) code (Str.find code [nl] (defpos + 6));
          match endpos with
          | None => Some (Str.erase code defpos None)
          | Some endpos =>
              let macro := Str.substr code (defpos + 8) (endpos - defpos - 7) in
              let code := Str.erase code defpos (Some (endpos - defpos)) in
              '(macro, code, defpos) ← join_macro_lines (length macro) macro code defpos;
              let toks := tokenize tk (c_str macro) in
              let macroparams := macro_params toks in
              match toks with
              | [] => None
              | tok :: _ =>
                  let macroname := tok_str tok in
                  code ← expand_loop (length code) toks macro macroname macroparams code defpos;
                  expandMacros_loop fuel code defpos
              end
          end
      end
  end.

Definition expandMacros (fuel : nat) (code : text) : option text :=
  expandMacros_loop fuel code 0.

(** ** [Preprocessor::preprocess] *)

Definition preprocess (fuel : nat) (input : text) : option (text * list text) :=
  processedFile ← clean input;
  processedFile ← expandMacros fuel processedFile;
  resultConfigurations ← getcfgs processedFile;
  Some (processedFile, resultConfigurations).

(** [for (it = configs.begin(); ...) result[*it] = getcode(data, *it);] *)
Fixpoint fill_result (data : text) (configs : list text) (result : gmap text text)
  : option (gmap text text) :=
  match configs with
  | [] => Some result
  | it :: rest =>
      code ← getcode data it;
      fill_result data rest (<[it := code]> result)
  end.

Definition preprocess_map (fuel : nat) (input : text) (result : gmap text text)
  : option (gmap text text) :=
  '(data, configs) ← preprocess fuel input;
  fill_result data configs result.

End Expander.

(** Modelled from the spec: the tokenizer (tokenize.cpp and token.cpp are
    not among the sources).  The specification asks for "any tokenizer
    that recognizes identifiers, punctuation, and a type-vs-name
    adjacency": a run of letters, digits and '_' is one token, any other
    character that is not white space is a token of its own, and a name
    is a token that starts with a letter or '_'. *)
Fixpoint lex (cur : text) (s : text) : list text :=
  let flush := if empty cur then [] else [cur] in
  match s with
  | [] => flush
  | c :: s' =>
      if isalnum c || Ascii.eqb c "_"%char then lex (cur ++ [c]) s'
      else if isspace c then flush ++ lex [] s'
      else flush ++ [[c]] ++ lex [] s'
  end.

(** Modelled from the spec: [Token::isName] (token.cpp is not among the
    sources), a token that starts with a letter or '_'. *)
Definition is_name (t : text) : bool :=
  match t with
  | c :: _ => isalpha c || Ascii.eqb c "_"%char
  | [] => false
  end.

(** Modelled from the spec: the tokenizer with its two token patterns
    (tokenize.cpp and token.cpp are not among the sources): "%var% ( %var%"
    is a name, a '(' and a name; "%type% %var%" is the "type name"
    adjacency of two names. *)
Definition spec_tokenizer : Tokenizer := {|
  tokenize s := map (fun t => MkToken t (is_name t)) (lex [] s);
  match_var_paren_var toks :=
    match toks with
    | a :: b :: c :: _ => tok_isName a && bool_decide (tok_str b = "(") && tok_isName c
    | _ => false
    end;
  match_type_var toks :=
    match toks with
    | a :: b :: _ => tok_isName a && tok_isName b
    | _ => false
    end
|}.

(** ** Notions used to state the properties *)

(** What [#else] does to the guard stack of the enumerator. *)
Definition else_flip (deflist : list text) : list text :=
  match back deflist with
  | Some top =>
      push_back (removelast deflist)
        (if bool_decide (top = ("1" : text)) then "0" : text else "1" : text)
  | None => deflist
  end.

(** The lines the selector blanks whatever the configuration. *)
Definition is_conditional (line : text) : bool :=
  Str.starts line "#if" || Str.starts line "#else"
  || Str.starts line "#elif" || Str.starts line "#endif".

(** A text given by its lines, each closed by '\n'. *)
Definition src (ls : list string) : text := unlines (map list_ascii_of_string ls).

(** The last line of the text is not closed by a newline. *)
Definition open_line (s : text) : bool :=
  match last s with
  | Some c => negb (Ascii.eqb c nl)
  | None => false
  end.


(** The space a folded continuation leaves after [u], the text before it. *)
Definition space_after (u : text) : text :=
  if (0 <? length u)%nat && negb (Ascii.eqb (Str.at_ u (length u - 1)) sp)
  then " " else [].

(** The text with its first newline written twice. *)
Fixpoint dup_first_nl (w : text) : text :=
  match w with
  | [] => []
  | c :: w' => if Ascii.eqb c nl then nl :: nl :: w' else c :: dup_first_nl w'
  end.

(** The last line continuation of the text is followed by a line break. *)
Definition continuations_closed (s : text) : bool :=
  match Str.rfind s [bslash; nl] with
  | None => true
  | Some loc => bool_decide (nl ∈ drop (loc + 2) s)
  end.

(** [lit] occurs in [s]. *)
Definition has_sub (lit s : text) : Prop := exists a b, s = a ++ lit ++ b.

(** A newline that closes no continuation and after which no continuation stands. *)
Definition plain_break (s : text) : Prop :=
  exists a b, s = a ++ nl :: b /\ Str.rfind b [bslash; nl] = None /\ last a <> Some bslash.

(** The pattern [replaceIfDefined] looks for. *)
Definition ifdefined : text := "#if defined(".

(** The text without its leading spaces. *)
Fixpoint strip_spaces (s : text) : text :=
  match s with
  | [] => []
  | c :: s' => if Ascii.eqb c sp then strip_spaces s' else s
  end.

(** What is left to read on a stream. *)
Definition slen (istr : istream) : nat :=
  match istr with Some s => length s | None => 0 end.

(** No '*' directly followed by '/' in [prev :: s]. *)
Fixpoint no_star_slash (prev : ascii) (s : text) : bool :=
  match s with
  | [] => true
  | c :: s' => negb (Ascii.eqb prev star && Ascii.eqb c slash) && no_star_slash c s'
  end.

(** The inside of a closed string constant: no double quote but after a
    backslash, and no backslash left alone at the end. *)
Fixpoint string_body (s : text) : bool :=
  match s with
  | [] => true
  | c :: s' =>
      if Ascii.eqb c bslash then
        match s' with
        | [] => false
        | _ :: s'' => string_body s''
        end
      else negb (Ascii.eqb c dquote) && string_body s'
  end.

(** Texts made of closed lexical items: characters outside comments and
    constants, a '/' that opens no comment with the character after it,
    line comments closed by a newline, closed block comments, closed
    string constants and closed character constants of one character or
    one escaped character. *)
Inductive lexed : text -> Prop :=
  | lexed_nil : lexed []
  | lexed_plain c s :
      c <> slash -> c <> dquote -> c <> squote -> lexed s -> lexed (c :: s)
  | lexed_slash c s :
      c <> slash -> c <> star -> lexed s -> lexed (slash :: c :: s)
  | lexed_line body s :
      nl ∉ body -> lexed s -> lexed (slash :: slash :: body ++ nl :: s)
  | lexed_block body s :
      no_star_slash slash body = true -> lexed s ->
      lexed (slash :: star :: body ++ star :: slash :: s)
  | lexed_string body s :
      string_body body = true -> lexed s -> lexed (dquote :: body ++ dquote :: s)
  | lexed_char c s :
      c <> bslash -> lexed s -> lexed (squote :: c :: squote :: s)
  | lexed_char_escape c s :
      lexed s -> lexed (squote :: bslash :: c :: squote :: s).

(** The loop of [read] on a stream, with the fuel its length asks for. *)
Definition read_at (ignoreSpace : bool) (istr : istream) : option text :=
  read_loop (S (slen istr)) ignoreSpace istr.

(** No space at the start when [prev_sp], and no two spaces in a row. *)
Fixpoint single_spaced (prev_sp : bool) (s : text) : bool :=
  match s with
  | [] => true
  | c :: s' => negb (Ascii.eqb c sp && prev_sp) && single_spaced (Ascii.eqb c sp) s'
  end.

(** After the character [p] ([None] at the start of the text): every
    space stands after a character that is neither a space nor a
    newline, and no newline stands after a space. *)
Fixpoint tidy_after (p : option ascii) (s : text) : bool :=
  match s with
  | [] => true
  | c :: s' =>
      (if Ascii.eqb c sp
       then match p with
            | Some q => negb (Ascii.eqb q sp) && negb (Ascii.eqb q nl)
            | None => false
            end
       else true)
      && (if Ascii.eqb c nl
          then match p with Some q => negb (Ascii.eqb q sp) | None => true end
          else true)
      && tidy_after (Some c) s'
  end.

(** The state of [removeSpaceNearNL] on a single spaced text: [p] is the
    last character kept and [qs] tells whether the last character read
    was a space (or nothing was read yet). *)
Definition rsnl_state (i0 : bool) (p : option ascii) (qs : bool) (str : text) : Prop :=
  (i0 = true /\ p = None /\ qs = true)
  \/ (i0 = false /\ exists q, p = Some q /\ qs = Ascii.eqb q sp
                              /\ (q = sp -> head str <> Some nl))
  \/ (i0 = false /\ exists q, p = Some q /\ qs = true /\ q <> sp
                              /\ (q = nl \/ head str = Some nl)).



(** Whether [removeSpaceNearNL] sees a newline before the next character. *)
Definition after_nl (i0 : bool) (p : option ascii) : bool :=
  negb i0 && match p with Some q => Ascii.eqb q nl | None => false end.


(** ** Notions used to state the further properties *)

(** The parts of a configuration: what stands between its ';', a last
    ';' closing the part before it. *)
Fixpoint cfg_parts (cfg : text) : list text :=
  match cfg with
  | [] => []
  | c :: cfg' =>
      if Ascii.eqb c ";"%char then [] :: cfg_parts cfg'
      else match cfg_parts cfg' with
           | [] => [[c]]
           | p :: ps => (c :: p) :: ps
           end
  end.

(** What the enumerator keeps true of its state: no configuration is
    listed twice, and neither a configuration nor an open guard holds a space. *)
Definition cfgs_inv (st : cfgs_state) : Prop :=
  NoDup (cs_ret st)
  /\ Forall (fun cfg => sp ∉ cfg) (cs_ret st)
  /\ Forall (fun def => sp ∉ def) (cs_deflist st).

(** The loop of the selector with the state it ends in. *)
Fixpoint getcode_run (cfg : text) (lines : list text) (st : code_state)
  : option (code_state * list text) :=
  match lines with
  | [] => Some (st, [])
  | line :: rest =>
      '(st', out) ← getcode_line cfg line st;
      '(st'', outs) ← getcode_run cfg rest st';
      Some (st'', out :: outs)
  end.

(** A line of code: no newline in it and no '#' at its start. *)
Definition code_line (line : text) : Prop := (nl ∉ line) /\ Str.starts line "#" = false.

(** The lines written for a block the selector drops. *)
Definition blank (lines : list text) : list text := map (fun _ => []) lines.

(** Every [#elif] line stands inside an open conditional: [depth] counts
    the conditionals opened by a guard and not yet closed by [#endif]. *)
Fixpoint elif_guarded (depth : nat) (lines : list text) : bool :=
  match lines with
  | [] => true
  | line :: rest =>
      if Str.starts line "#elif " then (0 <? depth)%nat && elif_guarded depth rest
      else if negb (empty (getdef line true)) || negb (empty (getdef line false))
      then elif_guarded (S depth) rest
      else if bool_decide (line = "#endif") then elif_guarded (depth - 1) rest
      else elif_guarded depth rest
  end.

(** The text read from left to right: every '/' comes with the
    character after it, which is neither a '/' nor a '*'. *)
Fixpoint slashes_paired (s : text) : bool :=
  match s with
  | [] => true
  | c :: s' =>
      if Ascii.eqb c slash then
        match s' with
        | [] => false
        | d :: s'' => negb (Ascii.eqb d slash) && negb (Ascii.eqb d star) && slashes_paired s''
        end
      else slashes_paired s'
  end.

(** A character that is neither of the two quotes. *)
Definition quoteless (c : ascii) : Prop := c <> dquote /\ c <> squote.

(** After the character [p] ([None] at the start of the text): no space
    stands right after a newline. *)
Fixpoint no_space_after_nl (p : option ascii) (s : text) : bool :=
  match s with
  | [] => true
  | c :: s' =>
      negb (Ascii.eqb c sp && match p with Some q => Ascii.eqb q nl | None => false end)
      && no_space_after_nl (Some c) s'
  end.

(** An argument as the expander reads one, seen from [depth] open
    parentheses inside it: its parentheses are balanced, and a ','
    stands only inside them. *)
Fixpoint arg_ok (depth : nat) (s : text) : bool :=
  match s with
  | [] => (depth =? 0)%nat
  | c :: s' =>
      if Ascii.eqb c "("%char then arg_ok (S depth) s'
      else if Ascii.eqb c ")"%char then (0 <? depth)%nat && arg_ok (depth - 1) s'
      else if Ascii.eqb c ","%char then (0 <? depth)%nat && arg_ok depth s'
      else arg_ok depth s'
  end.

(** The arguments written with a ',' between them. *)
Fixpoint join_commas (args : list text) : text :=
  match args with
  | [] => []
  | [a] => a
  | a :: rest => a ++ "," ++ join_commas rest
  end.

(** A character that the scanner reads as a space: white space or a
    control character, other than the newline. *)
Definition blank_char (c : ascii) : Prop := is_negative c = false /\ normal c = sp.

(** * Properties *)

(** ** Facts on the string primitives *)

Lemma find0_Some0 pat s : Str.find0 pat s = Some 0 <-> Str.prefixb pat s = true.
Proof.
  destruct s as [|c s]; simpl; destruct (Str.prefixb pat _); split; intros H;
    try done; try discriminate.
  destruct (Str.find0 pat s); discriminate.
Qed.

Lemma starts_prefixb s pat : Str.starts s pat = Str.prefixb pat s.
Proof.
  unfold Str.starts, Str.find. simpl. rewrite drop_0.
  destruct (Str.prefixb pat s) eqn:E.
  - apply bool_decide_eq_true. apply find0_Some0 in E. by rewrite E.
  - apply bool_decide_eq_false. intros H.
    destruct (Str.find0 pat s) as [[|n]|] eqn:F; try discriminate.
    apply find0_Some0 in F. congruence.
Qed.

Lemma prefixb_spec p s : Str.prefixb p s = true <-> exists r, s = p ++ r.
Proof.
  revert s. induction p as [|a p IH]; intros s; simpl.
  - split; eauto.
  - destruct s as [|b s].
    + split; [done | intros [r Hr]; discriminate].
    + rewrite andb_true_iff, IH. split.
      * intros [Hab [r ->]]. apply Ascii.eqb_eq in Hab as ->. eauto.
      * intros [r Hr]. injection Hr as -> ->. split; [apply Ascii.eqb_refl | eauto].
Qed.

Lemma starts_spec s pat : Str.starts s pat = true <-> exists r, s = pat ++ r.
Proof. rewrite starts_prefixb. apply prefixb_spec. Qed.

Lemma getdef_else r b : getdef ("#else" ++ r) b = [].
Proof. unfold getdef. rewrite !starts_prefixb. by destruct b. Qed.

Lemma getdef_endif r b : getdef ("#endif" ++ r) b = [].
Proof. unfold getdef. rewrite !starts_prefixb. by destruct b. Qed.

Lemma back_Some_nonempty {A} (l : list A) x : back l = Some x -> empty l = false.
Proof. by destruct l. Qed.

Lemma pop_back_nonempty {A} (l : list A) : empty l = false -> pop_back l = Some (removelast l).
Proof. by destruct l. Qed.

Lemma back_nonempty {A} (l : list A) : empty l = false -> is_Some (back l).
Proof.
  intros H. unfold back. destruct l as [|a l]; [done|].
  rewrite last_cons. destruct (last l); eauto.
Qed.

(** ** The configuration enumerator *)

Lemma getcfgs_line_else r st :
  getcfgs_line ("#else" ++ r) st = Some (CfgsState (cs_ret st) (else_flip (cs_deflist st))).
Proof.
  destruct st as [ret deflist]. unfold getcfgs_line, getcfgs_on_def, getcfgs_on_else, getcfgs_on_endif, else_flip.
  rewrite !getdef_else, !starts_prefixb. simpl.
  destruct deflist as [|d deflist]; [done|].
  change (empty (d :: deflist)) with false. simpl negb. cbv iota.
  destruct (back (d :: deflist)) as [top|] eqn:Hb.
  - simpl. by destruct (bool_decide _).
  - destruct (back_nonempty (d :: deflist) eq_refl) as [x Hx]. congruence.
Qed.

Lemma getcfgs_line_endif r st :
  getcfgs_line ("#endif" ++ r) st = Some (CfgsState (cs_ret st) (removelast (cs_deflist st))).
Proof.
  destruct st as [ret deflist].
  unfold getcfgs_line, getcfgs_on_def, getcfgs_on_else, getcfgs_on_endif.
  rewrite !getdef_endif, !starts_prefixb. simpl.
  by destruct deflist.
Qed.

(** C1 (amended): on a line that starts with [#else], with a non-empty
    guard stack, the enumerator replaces the top atom: a top of "1"
    becomes "0", and every other top, "0" or a macro name, becomes "1".
    The list of configurations is left as it is. *)
Theorem getcfgs_else_flips_top (line : text) (ret deflist : list text) (top : text) :
  Str.starts line "#else" = true ->
  back deflist = Some top ->
  getcfgs_line line (CfgsState ret deflist)
  = Some (CfgsState ret
            (push_back (removelast deflist)
               (if bool_decide (top = ("1" : text)) then "0" : text else "1" : text))).
Proof.
  intros [r ->]%starts_spec Hb.
  rewrite getcfgs_line_else. unfold else_flip. simpl. by rewrite Hb.
Qed.

Lemma getcfgs_else_flips_top_witness :
  getcfgs_line "#else" (CfgsState [[]] ["A" : text; "1" : text])
  = Some (CfgsState [[]] ["A" : text; "0" : text]).
Proof.
  apply (getcfgs_else_flips_top "#else" [[]] ["A" : text; "1" : text] "1");
    reflexivity.
Defined.

(** C1, as stated, fails: a macro-name top becomes "1", not "0". *)
Lemma getcfgs_else_macro_top_counterexample :
  getcfgs_line "#else" (CfgsState [[]] ["A" : text])
  = Some (CfgsState [[]] ["1" : text])
  /\ getcfgs_line "#else" (CfgsState [[]] ["A" : text])
     <> Some (CfgsState [[]] ["0" : text]).
Proof. split; [reflexivity | discriminate]. Qed.

Lemma getcode_emit_cases m line :
  (getcode_emit m line = [] \/ getcode_emit m line = line)
  /\ (is_conditional line = true -> getcode_emit m line = []).
Proof.
  unfold getcode_emit, is_conditional. destruct m; simpl.
  - destruct (_ || _); auto. split; [auto | discriminate].
  - auto.
Qed.

Lemma getcode_stacks_other cfg r matching matched :
  r <> [] ->
  getcode_stacks cfg ("#endif" ++ r) matching matched = Some (matching, matched)
  /\ getcode_stacks cfg ("#else" ++ r) matching matched = Some (matching, matched).
Proof.
  intros Hr. unfold getcode_stacks.
  rewrite !getdef_endif, !getdef_else, !starts_prefixb. simpl.
  split; repeat case_bool_decide; try done; simplify_eq.
Qed.

(** C10: for every line that starts with [#endif] (or [#else]) the
    enumerator pops (or flips the top of) its guard stack; when the line
    goes on after the keyword, the selector leaves both of its stacks as
    they are and writes an empty line. *)
Theorem else_endif_with_trailer (cfg line : text) (st : code_state) (cs : cfgs_state) :
  Str.starts line "#endif" = true \/ Str.starts line "#else" = true ->
  getcfgs_line line cs
  = Some (CfgsState (cs_ret cs)
            (if Str.starts line "#endif" then removelast (cs_deflist cs)
             else else_flip (cs_deflist cs)))
  /\ (line <> "#endif" -> line <> "#else" ->
      getcode_line cfg line st
      = Some (CodeState (forallb (fun b => b) (gs_matching st))
                (gs_matching st) (gs_matched st), [])).
Proof.
  intros [[r ->]%starts_spec | [r ->]%starts_spec].
  - rewrite getcfgs_line_endif, !starts_prefixb. split; [done|]. intros Hne _.
    assert (Hr : r <> []) by (intros ->; by apply Hne).
    destruct (getcode_stacks_other cfg r (gs_matching st) (gs_matched st) Hr) as [He _].
    unfold getcode_line. rewrite He. simpl. do 2 f_equal.
    apply getcode_emit_cases. unfold is_conditional. by rewrite !starts_prefixb.
  - rewrite getcfgs_line_else, !starts_prefixb. split; [done|]. intros _ Hne.
    assert (Hr : r <> []) by (intros ->; by apply Hne).
    destruct (getcode_stacks_other cfg r (gs_matching st) (gs_matched st) Hr) as [_ Hl].
    unfold getcode_line. rewrite Hl. simpl. do 2 f_equal.
    apply getcode_emit_cases. unfold is_conditional. by rewrite !starts_prefixb.
Qed.

Lemma else_endif_with_trailer_witness :
  getcfgs_line "#endif A" (CfgsState [[]; "A" : text] ["A" : text])
  = Some (CfgsState [[]; "A" : text] [])
  /\ getcode_line "A" "#endif A" (CodeState true [true] [true])
     = Some (CodeState true [true] [true], []).
Proof.
  destruct (else_endif_with_trailer "A" "#endif A" (CodeState true [true] [true])
              (CfgsState [[]; "A" : text] ["A" : text])) as [H1 H2].
  - left. reflexivity.
  - split; [exact H1|]. apply H2; discriminate.
Defined.

(** C6 (amended): with an empty guard stack the enumerator does not
    ignore [#elif X]: nothing is popped and the empty stack is never
    read, but [X] is pushed as for [#if X] and its configuration is
    recorded when it is new.  Only a [#elif] line without a name leaves
    the stack empty. *)
Theorem getcfgs_elif_on_empty_stack (line : text) (ret : list text) :
  Str.starts line "#elif " = true ->
  getcfgs_line line (CfgsState ret [])
  = Some (let def := getdef line true in
          if empty def then CfgsState ret []
          else let c := join_defs [] [def] in
               CfgsState (if bool_decide (c ∈ ret) then ret else push_back ret c) [def]).
Proof.
  intros [r ->]%starts_spec.
  unfold getcfgs_line, getcfgs_on_def, getcfgs_on_else, getcfgs_on_endif.
  assert (Hn : getdef ("#elif " ++ r) false = []).
  { unfold getdef. by rewrite !starts_prefixb. }
  rewrite Hn, app_nil_r, !starts_prefixb. simpl cs_deflist. simpl cs_ret.
  destruct (getdef ("#elif " ++ r) true) as [|c def] eqn:Hd; [done|].
  simpl. by destruct (bool_decide _).
Qed.

Lemma getcfgs_elif_on_empty_stack_witness :
  getcfgs_line "#elif A" (CfgsState [[]] [])
  = Some (CfgsState [[]; "A" : text] ["A" : text]).
Proof. apply (getcfgs_elif_on_empty_stack "#elif A" [[]]). reflexivity. Defined.

(** C6, as stated, fails: on [#elif A] with nothing open the enumerator
    pushes [A], and the selector reads the back of its empty stack. *)
Lemma elif_on_empty_stack_counterexample :
  getcfgs_line "#elif A" (CfgsState [[]] []) = Some (CfgsState [[]; "A" : text] ["A" : text])
  /\ getcode_line [] "#elif A" (CodeState true [] []) = None.
Proof. split; reflexivity. Qed.

(** ** When the selector and [preprocess] return *)

Lemma length_removelast {A} (l : list A) : length (removelast l) = length l - 1.
Proof. rewrite removelast_firstn_len, length_take. lia. Qed.

Lemma length_set_back {A} (l l' : list A) x : set_back l x = Some l' -> length l' = length l.
Proof.
  unfold set_back, push_back. destruct (pop_back l) as [k|] eqn:E; [|done].
  cbn [mbind option_bind]. intros [= <-].
  destruct (empty l) eqn:Em; [by destruct l|].
  rewrite (pop_back_nonempty _ Em) in E. injection E as <-.
  rewrite length_app, length_removelast. destruct l; [done|]. simpl. lia.
Qed.

Lemma set_back_nonempty {A} (l : list A) x : empty l = false -> is_Some (set_back l x).
Proof. intros H. unfold set_back. rewrite (pop_back_nonempty _ H). simpl. eauto. Qed.

Lemma empty_length {A B} (l : list A) (k : list B) :
  length l = length k -> empty l = empty k.
Proof. by destruct l, k. Qed.

(** The two stacks of the selector go together; a line that does not
    start with [#elif ] never reads an empty stack. *)
Lemma getcode_stacks_total cfg line matching matched :
  Str.starts line "#elif " = false -> length matching = length matched ->
  exists matching' matched',
    getcode_stacks cfg line matching matched = Some (matching', matched')
    /\ length matching' = length matched'.
Proof.
  intros He Hl. unfold getcode_stacks. rewrite He.
  destruct (empty (getdef line true)); cbn [negb].
  2:{ unfold back, push_back. rewrite last_snoc. simpl. eexists _, _. split; [done|].
      rewrite !length_app. simpl. lia. }
  destruct (empty (getdef line false)); cbn [negb].
  2:{ unfold back, push_back. rewrite last_snoc. simpl. eexists _, _. split; [done|].
      rewrite !length_app. simpl. lia. }
  destruct (bool_decide (line = "#else")).
  { destruct (empty matched) eqn:Em; cbn [negb]; [eauto|].
    destruct (back_nonempty _ Em) as [m ->]. simpl.
    destruct (set_back_nonempty matching (negb m)) as [mg Hmg].
    { by rewrite (empty_length _ _ Hl). }
    rewrite Hmg. simpl. eexists _, _. split; [done|].
    apply length_set_back in Hmg. lia. }
  destruct (bool_decide (line = "#endif")); [|eauto].
  destruct (empty matched) eqn:Em; rewrite (empty_length _ _ Hl), Em; cbn [negb].
  - simpl. eauto.
  - rewrite !pop_back_nonempty by (by rewrite ?(empty_length _ _ Hl)). simpl.
    eexists _, _. split; [done|]. rewrite !length_removelast. lia.
Qed.

Lemma getcode_loop_total cfg lines :
  Forall (fun line => Str.starts line "#elif " = false) lines ->
  forall st, length (gs_matching st) = length (gs_matched st) ->
    is_Some (getcode_loop cfg lines st).
Proof.
  induction 1 as [|line lines Hline _ IH]; intros st Hl; simpl; [eauto|].
  unfold getcode_line.
  destruct (getcode_stacks_total cfg line _ _ Hline Hl) as (mg & md & -> & Hl').
  simpl. destruct (IH (CodeState
                         (if negb (empty line) && bool_decide (Str.at_ line 0 = hash)
                          then forallb (fun b => b) mg else gs_match st) mg md) Hl')
    as [outs ->].
  simpl. eauto.
Qed.

Lemma getcode_total filedata cfg :
  Forall (fun line => Str.starts line "#elif " = false) (getlines filedata) ->
  is_Some (getcode filedata cfg).
Proof.
  intros H. unfold getcode, getcode_lines.
  destruct (getcode_loop_total cfg _ H (CodeState true [] []) eq_refl) as [outs ->].
  simpl. eauto.
Qed.

Lemma fill_result_total data configs :
  (forall cfg, is_Some (getcode data cfg)) ->
  forall result, is_Some (fill_result data configs result).
Proof.
  intros H. induction configs as [|it configs IH]; intros result; simpl; [eauto|].
  destruct (H it) as [code ->]. simpl. apply IH.
Qed.
Lemma expandMacros_loop_unfold tk fuel code defpos :
  expandMacros_loop tk (S fuel) code defpos =
  match Str.find code "#define" defpos with
  | None => Some code
  | Some defpos =>
          endpos ← define_end (length code) code (Str.find code [nl] (defpos + 6));
          match endpos with
          | None => Some (Str.erase code defpos None)
          | Some endpos =>
              let macro := Str.substr code (defpos + 8) (endpos - defpos - 7) in
              let code := Str.erase code defpos (Some (endpos - defpos)) in
              '(macro, code, defpos) ← join_macro_lines (length macro) macro code defpos;
              let toks := tokenize tk (c_str macro) in
              let macroparams := macro_params tk toks in
              match toks with
              | [] => None
              | tok :: _ =>
                  let macroname := tok_str tok in
                  code ← expand_loop tk (length code) toks macro macroname macroparams code defpos;
                  expandMacros_loop tk fuel code defpos
              end
          end
  end.
Proof. reflexivity. Qed.

Lemma expandMacros_loop_done tk fuel code defpos :
  Str.find code "#define" defpos = None -> expandMacros_loop tk fuel code defpos = Some code.
Proof. intros H. destruct fuel; cbn [expandMacros_loop]; by rewrite H. Qed.

(** C2: on the cleaned text [#define N 42\nint a=N;] the definition is
    removed (its newline stays), but the later [N] is not replaced: the
    occurrence ends at position 8 of the code, which the expander
    compares with the length 5 of the macro text [N 42\n] and skips.
    This holds for every tokenizer that reads [N] as the first token. *)
Theorem expandMacros_object_like_not_expanded (tk : Tokenizer) (fuel : nat)
    (isName : bool) (rest : list Token) :
  tokenize tk ("N 42" ++ [nl]) = MkToken "N" isName :: rest ->
  expandMacros tk (S fuel) ("#define N 42" ++ [nl] ++ "int a=N;")
  = Some ([nl] ++ "int a=N;")
  /\ expandMacros tk (S fuel) ("#define N 42" ++ [nl] ++ "int a=N;")
     <> Some ([nl] ++ "int a=42;").
Proof.
  intros Htok.
  assert (H : expandMacros tk (S fuel) ("#define N 42" ++ [nl] ++ "int a=N;")
              = Some ([nl] ++ "int a=N;")); [|by rewrite H].
  unfold expandMacros. rewrite expandMacros_loop_unfold.
  change (Str.find _ "#define" 0) with (Some 0).
  cbv beta iota.
  change (define_end _ _ _) with (Some (Some 12)).
  cbn [mbind option_bind].
  change (join_macro_lines _ _ _ 0)
    with (Some ("N 42" ++ [nl], [nl] ++ "int a=N;", 0) : option (text * text * nat)).
  cbn [mbind option_bind].
  change (c_str ("N 42" ++ [nl])) with ("N 42" ++ [nl]).
  rewrite Htok.
  change (expand_loop tk _ _ _ _ _ _ 0) with (Some ([nl] ++ "int a=N;") : option text).
  cbn [mbind option_bind]. by apply expandMacros_loop_done.
Qed.

Lemma expandMacros_object_like_not_expanded_witness :
  expandMacros spec_tokenizer 1 ("#define N 42" ++ [nl] ++ "int a=N;")
  = Some ([nl] ++ "int a=N;")
  /\ expandMacros spec_tokenizer 1 ("#define N 42" ++ [nl] ++ "int a=N;")
     <> Some ([nl] ++ "int a=42;").
Proof.
  apply (expandMacros_object_like_not_expanded spec_tokenizer 0 true
           [MkToken "42" false]).
  reflexivity.
Defined.
Lemma getcfgs_on_def_total line ret deflist :
  exists ret' deflist', getcfgs_on_def line ret deflist = Some (ret', deflist')
    /\ (forall rest, ret = [] :: rest -> exists rest', ret' = [] :: rest').
Proof.
  unfold getcfgs_on_def. destruct (empty _); simpl; [eauto|].
  destruct (Str.starts line _), deflist as [|d deflist];
    (eexists _, _; split; [reflexivity|]; intros rest ->; case_bool_decide; simpl; eauto).
Qed.

Lemma getcfgs_on_else_total line deflist :
  exists deflist', getcfgs_on_else line deflist = Some deflist'.
Proof.
  unfold getcfgs_on_else. destruct (Str.starts line _); simpl; [|eauto].
  destruct (empty deflist) eqn:He; simpl; [eauto|].
  destruct (back_nonempty _ He) as [top ->]. simpl.
  rewrite (pop_back_nonempty _ He). simpl. eauto.
Qed.

Lemma getcfgs_on_endif_total line deflist :
  exists deflist', getcfgs_on_endif line deflist = Some deflist'.
Proof.
  unfold getcfgs_on_endif. destruct (Str.starts line _); simpl; [|eauto].
  destruct (empty deflist) eqn:He; simpl; [eauto|].
  rewrite (pop_back_nonempty _ He). eauto.
Qed.

Lemma getcfgs_line_total line st :
  exists st', getcfgs_line line st = Some st'
    /\ (forall rest, cs_ret st = [] :: rest -> exists rest', cs_ret st' = [] :: rest').
Proof.
  unfold getcfgs_line.
  destruct (getcfgs_on_def_total line (cs_ret st) (cs_deflist st)) as (ret' & dl & -> & Hr).
  simpl. destruct (getcfgs_on_else_total line dl) as (dl' & ->). simpl.
  destruct (getcfgs_on_endif_total line dl') as (dl'' & ->). simpl. eauto.
Qed.

Lemma getcfgs_loop_total lines st rest :
  cs_ret st = [] :: rest ->
  exists st' rest', getcfgs_loop lines st = Some st' /\ cs_ret st' = [] :: rest'.
Proof.
  revert st rest. induction lines as [|line lines IH]; intros st rest H; simpl.
  - eauto.
  - destruct (getcfgs_line_total line st) as (st' & -> & Hr).
    destruct (Hr _ H) as [rest' H']. simpl. eauto.
Qed.

Lemma fill_result_keys (data : text) (configs : list text) (result m : gmap text text)
    (k : text) :
  fill_result data configs result = Some m ->
  k ∈ configs \/ is_Some (result !! k) -> is_Some (m !! k).
Proof.
  revert result. induction configs as [|it configs IH]; intros result H Hk; simpl in H.
  - simplify_eq. destruct Hk as [Hk|Hk]; [by apply elem_of_nil in Hk | done].
  - destruct (getcode data it) as [code|]; [|done]. simpl in H.
    apply (IH _ H). destruct Hk as [Hk|Hk].
    + apply elem_of_cons in Hk as [->|Hk]; [right | by left].
      rewrite lookup_insert_eq. eauto.
    + right. destruct (decide (it = k)) as [->|Hne].
      * rewrite lookup_insert_eq. eauto.
      * by rewrite lookup_insert_ne.
Qed.

Lemma find0_bound pat s i : Str.find0 pat s = Some i -> i <= length s.
Proof.
  revert i. induction s as [|c s IH]; intros i; simpl.
  - destruct (Str.prefixb pat []); intros; simplify_eq; lia.
  - destruct (Str.prefixb pat (c :: s)); [intros; simplify_eq; lia|].
    destruct (Str.find0 pat s) as [j|]; simpl; intros; simplify_eq.
    specialize (IH _ eq_refl). lia.
Qed.

Lemma find_bounds s pat pos i : Str.find s pat pos = Some i -> pos <= i <= length s.
Proof.
  unfold Str.find. destruct (Nat.ltb_spec (length s) pos); [done|].
  destruct (Str.find0 pat (drop pos s)) as [j|] eqn:E; simpl; intros; simplify_eq.
  apply find0_bound in E. rewrite length_drop in E. lia.
Qed.

Section ExpanderFacts.

Variable tk : Tokenizer.

Lemma expand_loop_unfold fuel toks macro macroname macroparams code pos0 :
  expand_loop tk (S fuel) toks macro macroname macroparams code pos0 =
  match Str.find code macroname (pos0 + 1) with
  | None => Some code
  | Some pos1 =>
      '(code, pos1) ← expand_occurrence tk toks macro macroname macroparams code pos1;
      expand_loop tk fuel toks macro macroname macroparams code pos1
  end.
Proof. reflexivity. Qed.

(** A round of the occurrence loop never moves back and never touches
    the code before the occurrence. *)
Lemma expand_occurrence_prefix toks macro macroname macroparams code pos1 code' pos1' :
  pos1 <= length code ->
  expand_occurrence tk toks macro macroname macroparams code pos1 = Some (code', pos1') ->
  pos1 <= pos1' /\ take pos1 code' = take pos1 code.
Proof.
  intros Hle. unfold expand_occurrence.
  destruct (_ && _); [intros; by simplify_eq|].
  destruct (_ <=? _)%nat; [intros; by simplify_eq|].
  destruct (occurrence_args _ _ _) as [[params pos2]|]; [|intros; by simplify_eq].
  destruct (negb _); [intros; by simplify_eq|].
  destruct (macro_code _ _ _ _) as [mc|]; [|done]. simpl. intros ?; simplify_eq.
  split; [lia|]. unfold Str.insert, Str.erase.
  assert (Hl : length (take pos1 code) = pos1) by (rewrite length_take; lia).
  assert (He : take pos1 (take pos1 code ++ drop (pos1 + (pos2 + 1 - pos1)) code)
               = take pos1 code).
  { rewrite take_app_le by lia. rewrite take_take. f_equal. lia. }
  rewrite He. rewrite take_app_le by lia. rewrite take_take. f_equal. lia.
Qed.

Lemma expand_loop_prefix fuel toks macro macroname macroparams :
  forall code pos0 out n,
    expand_loop tk fuel toks macro macroname macroparams code pos0 = Some out ->
    (forall q, Str.find code macroname (pos0 + 1) = Some q -> n <= q) ->
    take n out = take n code.
Proof.
  induction fuel as [|fuel IH]; intros code pos0 out n H Hn.
  - simpl in H. destruct (Str.find _ _ _); by simplify_eq.
  - rewrite expand_loop_unfold in H.
    destruct (Str.find code macroname (pos0 + 1)) as [pos1|] eqn:Hf; [|by simplify_eq].
    destruct (expand_occurrence _ _ _ _ _ _ _) as [[code' pos1']|] eqn:Ho; [|done].
    cbn [mbind option_bind] in H.
    pose proof (find_bounds _ _ _ _ Hf) as Hb.
    destruct (expand_occurrence_prefix _ _ _ _ _ _ _ _ (proj2 Hb) Ho) as [Hle Ht].
    specialize (Hn _ eq_refl).
    assert (Hout : take pos1 out = take pos1 code').
    { apply (IH _ _ _ _ H). intros q Hq. apply find_bounds in Hq. lia. }
    assert (Hmin : forall l : text, take n l = take n (take pos1 l)).
    { intros l. rewrite take_take. f_equal. lia. }
    by rewrite (Hmin out), (Hmin code), Hout, Ht.
Qed.

(** C9 (amended): when the arguments read at an occurrence of a
    function-like macro differ in number from its formal parameters, the
    round of the occurrence loop leaves the whole code as it is and the
    search goes on one character after the start of the occurrence.
    Unless the name of the macro is found again inside the occurrence,
    nothing up to the end of its argument list is changed by the rest of
    the loop. *)
Theorem mismatched_arguments_skip (toks : list Token) (macro macroname : text)
    (macroparams params : list text) (code : text) (pos0 pos1 pos2 fuel : nat) :
  Str.find code macroname (pos0 + 1) = Some pos1 ->
  occurrence_args macroparams code (pos1 + length macroname) = Some (params, pos2) ->
  length params <> length macroparams ->
  expand_occurrence tk toks macro macroname macroparams code pos1 = Some (code, pos1)
  /\ expand_loop tk (S fuel) toks macro macroname macroparams code pos0
     = expand_loop tk fuel toks macro macroname macroparams code pos1
  /\ (forall out,
        (forall q, Str.find code macroname (pos1 + 1) = Some q -> pos2 < q) ->
        expand_loop tk fuel toks macro macroname macroparams code pos1 = Some out ->
        take (S pos2) out = take (S pos2) code).
Proof.
  intros Hf Ha Hne.
  assert (Ho : expand_occurrence tk toks macro macroname macroparams code pos1
               = Some (code, pos1)).
  { unfold expand_occurrence. rewrite Ha.
    destruct (_ && _); [done|]. destruct (_ <=? _)%nat; [done|].
    destruct (Nat.eqb_spec (length params) (length macroparams)); done. }
  split; [exact Ho|]. split.
  - by rewrite expand_loop_unfold, Hf, Ho.
  - intros out Hq H. apply (expand_loop_prefix _ _ _ _ _ _ _ _ _ H).
    intros q Hq'. apply Hq in Hq'. lia.
Qed.

End ExpanderFacts.

Lemma mismatched_arguments_skip_witness :
  let toks := tokenize spec_tokenizer ("SQ(x) x*x" ++ [nl]) in
  let code : text := [nl] ++ "SQ(1,2)" in
  expand_occurrence spec_tokenizer toks ("SQ(x) x*x" ++ [nl]) "SQ" ["x" : text] code 1
  = Some (code, 1)
  /\ expand_loop spec_tokenizer 9 toks ("SQ(x) x*x" ++ [nl]) "SQ" ["x" : text] code 0
     = expand_loop spec_tokenizer 8 toks ("SQ(x) x*x" ++ [nl]) "SQ" ["x" : text] code 1
  /\ (forall out,
        (forall q, Str.find code "SQ" (1 + 1) = Some q -> 7 < q) ->
        expand_loop spec_tokenizer 8 toks ("SQ(x) x*x" ++ [nl]) "SQ" ["x" : text] code 1
        = Some out ->
        take 8 out = take 8 code).
Proof.
  intros toks code.
  apply (mismatched_arguments_skip spec_tokenizer toks ("SQ(x) x*x" ++ [nl]) "SQ"
           ["x" : text] ["1" : text; "2" : text] code 0 1 7 8).
  - reflexivity.
  - reflexivity.
  - simpl. lia.
Defined.

(** C9, as stated, fails: in [F(F(1),2)] the outer occurrence has two
    arguments for one formal parameter and is skipped, but the search
    goes on inside it and the inner [F(1)] is expanded, so that the
    outer occurrence does not stand unchanged in the output. *)
Lemma mismatched_occurrence_rewritten_counterexample :
  let code : text := [nl] ++ "F(F(1),2)" in
  occurrence_args ["x" : text] code 2 = Some (["F(1)" : text; "2" : text], 9)
  /\ expandMacros spec_tokenizer 1 ("#define F(x) x+x" ++ code) = Some ([nl] ++ "F(1+1,2)").
Proof. split; reflexivity. Qed.
(** ** Counting characters *)

Lemma count_nil c : Str.count c [] = 0.
Proof. reflexivity. Qed.

Lemma count_cons c x s :
  Str.count c (x :: s) = (if decide (x = c) then 1 else 0) + Str.count c s.
Proof. unfold Str.count. rewrite filter_cons. by destruct (decide (x = c)). Qed.

Lemma count_cons_eq c s : Str.count c (c :: s) = S (Str.count c s).
Proof. rewrite count_cons. by destruct (decide (c = c)). Qed.

Lemma count_cons_ne c x s : x <> c -> Str.count c (x :: s) = Str.count c s.
Proof. intros. rewrite count_cons. by destruct (decide (x = c)). Qed.

Lemma count_app c s t : Str.count c (s ++ t) = Str.count c s + Str.count c t.
Proof. unfold Str.count. by rewrite filter_app, length_app. Qed.

Lemma count_notin c s : c ∉ s -> Str.count c s = 0.
Proof.
  induction s as [|x s IH]; [done|]. intros H.
  apply not_elem_of_cons in H as [Hx Hs]. rewrite count_cons_ne by done. auto.
Qed.

Lemma count_zero_notin c s : Str.count c s = 0 -> c ∉ s.
Proof.
  induction s as [|x s IH]; intros H; [apply not_elem_of_nil|].
  rewrite count_cons in H. destruct (decide (x = c)); [lia|].
  apply not_elem_of_cons. split; [congruence | apply IH; lia].
Qed.

Lemma eqb_nl_spec c : reflect (c = nl) (Ascii.eqb c nl).
Proof. apply Ascii.eqb_spec. Qed.

(** ** Lines *)

Lemma getlines_nil_inv s : getlines s = [] -> s = [].
Proof.
  destruct s as [|c s]; [done|]. simpl.
  destruct (Ascii.eqb c nl); [done|]. by destruct (getlines s).
Qed.

Lemma open_line_cons c s : s <> [] -> open_line (c :: s) = open_line s.
Proof. intros H. unfold open_line. destruct s; [done|]. by rewrite last_cons_cons. Qed.

Lemma getlines_length s :
  length (getlines s) = Str.count nl s + (if open_line s then 1 else 0).
Proof.
  induction s as [|c s IH]; [done|]. simpl getlines.
  destruct (eqb_nl_spec c) as [->|Hc].
  - rewrite count_cons_eq. cbn [length]. rewrite IH.
    destruct s as [|c' s]; [done|]. rewrite (open_line_cons nl) by done. lia.
  - rewrite count_cons_ne by done.
    destruct (getlines s) as [|l ls] eqn:Hg.
    + apply getlines_nil_inv in Hg as ->. simpl. unfold open_line. simpl.
      by destruct (eqb_nl_spec c).
    + cbn [length] in *. rewrite IH. rewrite open_line_cons; [done|]. by intros ->.
Qed.

Lemma getlines_no_nl s : Forall (fun l => nl ∉ l) (getlines s).
Proof.
  induction s as [|c s IH]; simpl; [constructor|].
  destruct (eqb_nl_spec c) as [->|Hc].
  - constructor; [apply not_elem_of_nil | done].
  - destruct (getlines s) as [|l ls].
    + constructor; [|constructor]. by apply not_elem_of_cons; split; [|apply not_elem_of_nil].
    + inversion IH; subst. constructor; [|done]. by apply not_elem_of_cons.
Qed.

Lemma getlines_unlines ls :
  Forall (fun l => nl ∉ l) ls -> getlines (unlines ls) = ls.
Proof.
  induction 1 as [|l ls Hl _ IH]; [done|].
  unfold unlines in *. simpl. rewrite <- app_assoc. simpl.
  induction l as [|c l IHl]; simpl.
  - by rewrite IH.
  - apply not_elem_of_cons in Hl as [Hc Hl].
    destruct (eqb_nl_spec c); [done|]. by rewrite IHl.
Qed.

Lemma count_unlines ls :
  Forall (fun l => nl ∉ l) ls -> Str.count nl (unlines ls) = length ls.
Proof.
  induction 1 as [|l ls Hl _ IH]; [done|].
  unfold unlines in *. simpl. rewrite !count_app, IH, count_notin by done.
  by rewrite count_cons_eq.
Qed.

(** ** The selector writes one line per line read *)

Lemma getcode_emit_no_nl m line : nl ∉ line -> nl ∉ getcode_emit m line.
Proof.
  intros H. destruct (proj1 (getcode_emit_cases m line)) as [-> | ->];
    [apply not_elem_of_nil | done].
Qed.

Lemma getcode_loop_lines cfg lines st outs :
  getcode_loop cfg lines st = Some outs ->
  Forall (fun l => nl ∉ l) lines ->
  length outs = length lines /\ Forall (fun l => nl ∉ l) outs.
Proof.
  revert st outs. induction lines as [|line lines IH]; intros st outs H Hl.
  - simpl in H. by simplify_eq.
  - simpl in H. unfold getcode_line in H at 1.
    destruct (getcode_stacks cfg line _ _) as [[matching matched]|]; [|done].
    simpl in H.
    destruct (getcode_loop cfg lines _) as [outs'|] eqn:Hloop; [|done].
    simpl in H. simplify_eq. inversion Hl; subst.
    destruct (IH _ _ Hloop) as [Hlen Hno]; [done|]. split; [simpl; lia|].
    constructor; [by apply getcode_emit_no_nl | done].
Qed.

Lemma getcode_newlines filedata cfg out :
  getcode filedata cfg = Some out ->
  Str.count nl out = Str.count nl filedata + (if open_line filedata then 1 else 0).
Proof.
  unfold getcode, getcode_lines.
  destruct (getcode_loop cfg (getlines filedata) _) as [outs|] eqn:H; [|done].
  simpl. intros ?; simplify_eq.
  destruct (getcode_loop_lines _ _ _ _ H (getlines_no_nl filedata)) as [Hlen Hno].
  by rewrite count_unlines, Hlen, getlines_length.
Qed.

Lemma getline_aux_getlines c s :
  getlines (c :: s) = (getline_aux (c :: s)).1 :: getlines (getline_aux (c :: s)).2.
Proof.
  revert c. induction s as [|c' s IH]; intros c; simpl.
  - by destruct (Ascii.eqb c nl).
  - destruct (Ascii.eqb c nl); [done|].
    specialize (IH c'). simpl in IH. rewrite IH.
    destruct (Ascii.eqb c' nl); [done|].
    by destruct (getline_aux s).
Qed.

(** [getlines] is the sequence of the [getline] calls of the loop. *)
Lemma getlines_getline s :
  getlines s = match getline s with
               | None => []
               | Some (line, rest) => line :: getlines rest
               end.
Proof.
  destruct s as [|c s]; [done|]. rewrite getline_aux_getlines. unfold getline.
  by destruct (getline_aux (c :: s)).
Qed.
(** ** Occurrences: what [find] and [rfind] return *)

Lemma prefixb_app pat w : Str.prefixb pat (pat ++ w) = true.
Proof. apply prefixb_spec. eauto. Qed.

Lemma find0_Some pat s i :
  Str.find0 pat s = Some i -> exists u w, s = u ++ pat ++ w /\ length u = i.
Proof.
  revert i. induction s as [|c s IH]; intros i; simpl.
  - destruct (Str.prefixb pat []) eqn:E; [|done]. intros ?; simplify_eq.
    apply prefixb_spec in E as [r ->]. by exists [], r.
  - destruct (Str.prefixb pat (c :: s)) eqn:E.
    + intros ?; simplify_eq. apply prefixb_spec in E as [r Hr]. by exists [], r.
    + destruct (Str.find0 pat s) as [j|]; [|done]. simpl. intros ?; simplify_eq.
      destruct (IH _ eq_refl) as (u & w & -> & <-). by exists (c :: u), w.
Qed.

Lemma find0_None pat s u w : Str.find0 pat s = None -> s <> u ++ pat ++ w.
Proof.
  revert u. induction s as [|c s IH]; intros u; simpl.
  - destruct (Str.prefixb pat []) eqn:E; [done|]. intros _ H.
    symmetry in H. apply app_eq_nil in H as [-> [-> ->]%app_eq_nil]. done.
  - destruct (Str.prefixb pat (c :: s)) eqn:E; [done|].
    destruct (Str.find0 pat s) eqn:F; [done|]. intros _ H.
    destruct u as [|c' u]; simpl in H.
    + by rewrite H, prefixb_app in E.
    + simplify_eq. by eapply IH.
Qed.

Lemma find0_first pat s i u w :
  Str.find0 pat s = Some i -> s = u ++ pat ++ w -> i <= length u.
Proof.
  revert i u. induction s as [|c s IH]; intros i u; simpl.
  - destruct (Str.prefixb pat []); [|done]. intros; simplify_eq. lia.
  - destruct (Str.prefixb pat (c :: s)) eqn:E; [intros; simplify_eq; lia|].
    destruct (Str.find0 pat s) as [j|] eqn:F; [|done]. simpl. intros ? H; simplify_eq.
    destruct u as [|c' u]; simpl in H.
    + by rewrite H, prefixb_app in E.
    + simplify_eq. simpl. specialize (IH _ _ eq_refl eq_refl). lia.
Qed.

Lemma rfind_None pat s u w : Str.rfind s pat = None -> s <> u ++ pat ++ w.
Proof.
  revert u. induction s as [|c s IH]; intros u; simpl.
  - destruct (Str.prefixb pat []) eqn:E; [done|]. intros _ H.
    symmetry in H. apply app_eq_nil in H as [-> [-> ->]%app_eq_nil]. done.
  - destruct (Str.rfind s pat) eqn:F; [done|].
    destruct (Str.prefixb pat (c :: s)) eqn:E; [done|]. intros _ H.
    destruct u as [|c' u]; simpl in H.
    + by rewrite H, prefixb_app in E.
    + simplify_eq. by eapply IH.
Qed.

Lemma rfind_Some pat s i :
  Str.rfind s pat = Some i ->
  exists u w, s = u ++ pat ++ w /\ length u = i
    /\ (forall u' w', s = u' ++ pat ++ w' -> length u' <= i).
Proof.
  revert i. induction s as [|c s IH]; intros i; simpl.
  - destruct (Str.prefixb pat []) eqn:E; [|done]. intros ?; simplify_eq.
    apply prefixb_spec in E as [r Hr]. exists [], r. split; [done|]. split; [done|].
    intros u' w' H. symmetry in H. by apply app_eq_nil in H as [-> _].
  - destruct (Str.rfind s pat) as [j|] eqn:F.
    + intros ?; simplify_eq. destruct (IH _ eq_refl) as (u & w & -> & <- & Hmax).
      exists (c :: u), w. split; [done|]. split; [done|].
      intros [|c' u'] w' H; simpl in *; [lia|]. injection H as _ H.
      specialize (Hmax _ _ H). lia.
    + destruct (Str.prefixb pat (c :: s)) eqn:E; [|done]. intros ?; simplify_eq.
      apply prefixb_spec in E as [r Hr]. exists [], r. split; [done|]. split; [done|].
      intros [|c' u'] w' H; simpl in *; [lia|]. simplify_eq.
      by eapply rfind_None in F.
Qed.

Lemma rfind_None_iff_find0 pat s : Str.rfind s pat = None <-> Str.find0 pat s = None.
Proof.
  split; intros H.
  - destruct (Str.find0 pat s) as [i|] eqn:F; [|done].
    apply find0_Some in F as (u & w & -> & _). by eapply rfind_None in H.
  - destruct (Str.rfind s pat) as [i|] eqn:F; [|done].
    apply rfind_Some in F as (u & w & -> & _). by eapply find0_None in H.
Qed.

(** The first occurrence of a single character. *)
Lemma find0_char c a b : c ∉ a -> Str.find0 [c] (a ++ c :: b) = Some (length a).
Proof.
  induction a as [|x a IH]; intros H; simpl.
  - by rewrite Ascii.eqb_refl.
  - apply not_elem_of_cons in H as [Hx Ha].
    destruct (Ascii.eqb_spec c x) as [->|_]; [done|]. simpl. by rewrite IH.
Qed.

Lemma find0_char_None c s : c ∉ s -> Str.find0 [c] s = None.
Proof.
  induction s as [|x s IH]; intros H; simpl; [done|].
  apply not_elem_of_cons in H as [Hx Hs].
  destruct (Ascii.eqb_spec c x) as [->|_]; [done|]. simpl. by rewrite IH.
Qed.

Lemma find_app_length u s pat :
  Str.find (u ++ s) pat (length u) = (fun i => length u + i) <$> Str.find0 pat s.
Proof.
  unfold Str.find. rewrite length_app.
  destruct (Nat.ltb_spec (length u + length s) (length u)) as [?|_]; [lia|].
  rewrite drop_app_length. reflexivity.
Qed.

Lemma find_None_no_occurrence s pat pos u w :
  Str.find s pat pos = None -> pos <= length u -> s <> u ++ pat ++ w.
Proof.
  unfold Str.find. intros H Hle ->.
  destruct (Nat.ltb_spec (length (u ++ pat ++ w)) pos) as [Hlt|_].
  - rewrite length_app in Hlt. lia.
  - destruct (Str.find0 pat (drop pos (u ++ pat ++ w))) eqn:F; [done|].
    apply (find0_None _ _ (drop pos u) w F). by rewrite drop_app_le.
Qed.

Lemma find_Some s pat pos i :
  Str.find s pat pos = Some i ->
  exists u w, s = u ++ pat ++ w /\ length u = i /\ pos <= i.
Proof.
  unfold Str.find. destruct (Nat.ltb_spec (length s) pos) as [|Hle]; [done|].
  destruct (Str.find0 pat (drop pos s)) as [j|] eqn:F; [|done]. simpl.
  intros ?; simplify_eq. apply find0_Some in F as (u & w & Hd & <-).
  exists (take pos s ++ u), w. rewrite <- app_assoc, <- Hd, take_drop.
  split; [done|]. rewrite length_app, length_take. split; lia.
Qed.
(** ** Folding line continuations *)

Lemma dup_first_nl_notin w : nl ∉ w -> dup_first_nl w = w.
Proof.
  induction w as [|c w IH]; [done|]. intros [Hc Hw]%not_elem_of_cons. simpl.
  destruct (eqb_nl_spec c); [done|]. by rewrite IH.
Qed.

Lemma dup_first_nl_split w1 w2 :
  nl ∉ w1 -> dup_first_nl (w1 ++ nl :: w2) = w1 ++ nl :: nl :: w2.
Proof.
  induction w1 as [|c w IH]; [done|]. intros [Hc Hw]%not_elem_of_cons. simpl.
  destruct (eqb_nl_spec c); [done|]. by rewrite IH.
Qed.

Lemma dup_first_nl_app_in w1 w2 :
  nl ∈ w1 -> dup_first_nl (w1 ++ w2) = dup_first_nl w1 ++ w2.
Proof.
  induction w1 as [|c w IH]; [by intros ?%elem_of_nil|]. simpl.
  destruct (eqb_nl_spec c); [done|]. intros [?|?]%elem_of_cons; [congruence|].
  by rewrite IH.
Qed.

Lemma dup_first_nl_app_notin w1 w2 :
  nl ∉ w1 -> dup_first_nl (w1 ++ w2) = w1 ++ dup_first_nl w2.
Proof.
  induction w1 as [|c w IH]; [done|]. intros [Hc Hw]%not_elem_of_cons. simpl.
  destruct (eqb_nl_spec c); [done|]. by rewrite IH.
Qed.

Lemma count_dup_first_nl_ne c w : c <> nl -> Str.count c (dup_first_nl w) = Str.count c w.
Proof.
  intros Hc. induction w as [|x w IH]; [done|]. simpl.
  destruct (eqb_nl_spec x) as [->|Hx].
  - by rewrite !(count_cons_ne c nl).
  - by rewrite !(count_cons c x), IH.
Qed.

Lemma count_dup_first_nl w :
  Str.count nl (dup_first_nl w) = Str.count nl w + (if bool_decide (nl ∈ w) then 1 else 0).
Proof.
  induction w as [|x w IH]; [done|]. simpl.
  destruct (eqb_nl_spec x) as [->|Hx].
  - rewrite !count_cons_eq. rewrite bool_decide_eq_true_2 by apply list_elem_of_here. lia.
  - rewrite !(count_cons_ne nl x) by done. rewrite IH.
    destruct (decide (nl ∈ w)).
    + rewrite !bool_decide_eq_true_2; [done| by apply list_elem_of_further | done].
    + rewrite !bool_decide_eq_false_2; [done| |done].
      intros [?|?]%elem_of_cons; congruence.
Qed.

Lemma count_space_after c u : c <> sp -> Str.count c (space_after u) = 0.
Proof.
  intros Hc. unfold space_after. destruct (_ && _); [|done].
  apply count_notin. intros [?|?%elem_of_nil]%elem_of_cons; [|done]. by apply Hc.
Qed.

Lemma space_after_cases u : space_after u = [] \/ space_after u = [sp].
Proof. unfold space_after. destruct (_ && _); auto. Qed.

Lemma nl_notin_space_after u : nl ∉ space_after u.
Proof. destruct (space_after_cases u) as [-> | ->]; [apply not_elem_of_nil|].
  intros [?|?%elem_of_nil]%elem_of_cons; done. Qed.

(** What one round of the loop makes of a text whose last continuation
    stands after [u]. *)
Lemma fold_step_eq u w :
  fold_step (u ++ bslash :: nl :: w) (length u) = u ++ space_after u ++ dup_first_nl w.
Proof.
  unfold fold_step, Str.erase. cbv zeta.
  rewrite take_app_length, drop_app_add. simpl drop. rewrite drop_0.
  assert (Hs : (if (0 <? length u)%nat
                   && negb (Ascii.eqb (Str.at_ (u ++ w) (length u - 1)) sp)
                then Str.insert (u ++ w) (length u) " " else u ++ w)
               = u ++ space_after u ++ w).
  { unfold space_after, Str.insert, Str.at_.
    destruct (Nat.ltb_spec 0 (length u)) as [Hlt|_]; [|done].
    rewrite app_nth1 by lia. simpl andb.
    destruct (negb _); [|done]. by rewrite take_app_length, drop_app_length. }
  rewrite Hs. rewrite find_app_length.
  destruct (decide (nl ∈ w)) as [Hin|Hnot].
  - apply list_elem_of_split_l in Hin as (w1 & w2 & -> & Hw1).
    rewrite dup_first_nl_split by done.
    rewrite (app_assoc (space_after u) w1).
    rewrite find0_char.
    2:{ intros [?|?]%elem_of_app; [by eapply nl_notin_space_after | done]. }
    simpl. unfold Str.insert.
    rewrite (app_assoc u), <- length_app.
    rewrite take_app_length, drop_app_length. by rewrite <- !app_assoc.
  - rewrite find0_char_None.
    2:{ intros [?|?]%elem_of_app; [by eapply nl_notin_space_after | done]. }
    simpl. by rewrite dup_first_nl_notin.
Qed.

Lemma fold_loop_unfold fuel s :
  fold_loop (S fuel) s =
  match Str.rfind s [bslash; nl] with
  | None => Some s
  | Some loc => fold_loop fuel (fold_step s loc)
  end.
Proof. reflexivity. Qed.

Lemma bslash_ne_nl : bslash <> nl.
Proof. done. Qed.

(** The loop ends: each round erases one backslash and writes none. *)
Lemma fold_loop_total fuel s :
  Str.count bslash s <= fuel -> is_Some (fold_loop fuel s).
Proof.
  revert s. induction fuel as [|fuel IH]; intros s Hc.
  - simpl. destruct (Str.rfind s [bslash; nl]) as [loc|] eqn:Hr; [|eauto].
    apply rfind_Some in Hr as (u & w & -> & _).
    rewrite count_app in Hc. simpl in Hc. rewrite count_cons_eq in Hc. lia.
  - rewrite fold_loop_unfold.
    destruct (Str.rfind s [bslash; nl]) as [loc|] eqn:Hr; [|eauto].
    apply rfind_Some in Hr as (u & w & -> & <- & _).
    simpl app. rewrite fold_step_eq. apply IH.
    rewrite count_app in Hc. simpl in Hc. rewrite count_cons_eq, count_cons_ne in Hc by done.
    rewrite !count_app, count_space_after, count_dup_first_nl_ne by done. lia.
Qed.

Lemma count_le_length c s : Str.count c s <= length s.
Proof. unfold Str.count. apply length_filter. Qed.

Lemma fold_continuations_total s : is_Some (fold_continuations s).
Proof. apply fold_loop_total, count_le_length. Qed.

Lemma fold_loop_fixed fuel s :
  Str.rfind s [bslash; nl] = None -> fold_loop fuel s = Some s.
Proof. intros H. destruct fuel; simpl; by rewrite H. Qed.
(** Equal up to the bracketing of [++]. *)
Ltac app_norm :=
  repeat first [rewrite <- app_assoc | progress (cbn [app])]; try reflexivity.

(** Where a pair of characters stands with respect to a segment [m]. *)
Lemma pair_split (u w a m b : text) (x y : ascii) :
  m <> [] ->
  u ++ x :: y :: w = a ++ m ++ b ->
  (exists k, u = a ++ m ++ k /\ b = k ++ x :: y :: w)
  \/ (exists k, a = u ++ x :: y :: k /\ w = k ++ m ++ b)
  \/ (exists l, m = l ++ [x])
  \/ (x ∈ m /\ y ∈ m)
  \/ (a = u ++ [x] /\ exists m', m = y :: m').
Proof.
  intros Hm H. apply app_eq_app in H as [l [[-> H]|[-> H]]].
  - apply app_eq_app in H as [l' [[-> H]|[-> H]]].
    + destruct l' as [|x' l']; simpl in H.
      * left. exists []. by rewrite !app_nil_r.
      * injection H as -> H. destruct l' as [|y' l']; simpl in H.
        -- right; right; left. eauto.
        -- injection H as -> H. right; right; right; left.
           split; apply elem_of_app; right; [left | right; left].
    + left. eauto.
  - destruct l as [|x' l]; simpl in H.
    + destruct m as [|x' m]; [done|]. simpl in H. injection H as <- H.
      destruct m as [|y' m]; simpl in H.
      * right; right; left. by exists [].
      * injection H as <- H. right; right; right; left.
        split; [left | right; left].
    + injection H as <- H. destruct l as [|y' l]; simpl in H.
      * destruct m as [|y' m]; [done|]. simpl in H. injection H as <- H.
        right; right; right; right. eauto.
      * injection H as <- H. right; left. eauto.
Qed.

(** *** The number of line breaks *)

Lemma rfind_suffix_None pat a b : Str.rfind (a ++ b) pat = None -> Str.rfind b pat = None.
Proof.
  intros H. destruct (Str.rfind b pat) as [i|] eqn:F; [|done].
  apply rfind_Some in F as (u & w & -> & _).
  exfalso. apply (rfind_None pat _ (a ++ u) w H). by rewrite <- app_assoc.
Qed.

Lemma closed_plain_break s :
  Str.rfind s [bslash; nl] <> None -> continuations_closed s = true -> plain_break s.
Proof.
  unfold continuations_closed.
  destruct (Str.rfind s [bslash; nl]) as [loc|] eqn:Hr; [|done]. intros _ Hin.
  apply bool_decide_eq_true in Hin.
  apply rfind_Some in Hr as (u & w & -> & <- & Hmax).
  rewrite drop_app_add in Hin. simpl in Hin. rewrite drop_0 in Hin.
  apply list_elem_of_split_l in Hin as (w1 & w2 & -> & Hw1).
  exists (u ++ [bslash; nl] ++ w1), w2. split; [by rewrite <- !app_assoc|]. split.
  - destruct (Str.rfind w2 [bslash; nl]) as [i|] eqn:F; [|done].
    apply rfind_Some in F as (u' & w' & -> & _). exfalso.
    pose proof (Hmax (u ++ [bslash; nl] ++ w1 ++ nl :: u') w' ltac:(app_norm)) as Hle.
    rewrite !length_app in Hle. simpl in Hle. lia.
  - intros Hl. apply last_Some in Hl as [l' Hl].
    destruct w1 as [|c w1 _] using rev_ind.
    + rewrite app_nil_r in Hl. change (u ++ [bslash; nl]) with (u ++ [bslash] ++ [nl]) in Hl.
      rewrite app_assoc in Hl. by apply app_inj_tail in Hl as [_ ?].
    + rewrite !app_assoc in Hl. apply app_inj_tail in Hl as [_ ->].
      pose proof (Hmax (u ++ [bslash; nl] ++ w1) w2 ltac:(app_norm)) as Hle.
      rewrite !length_app in Hle. simpl in Hle. lia.
Qed.

Lemma last_dup_first_nl w : nl ∈ w -> last (dup_first_nl w) = last w.
Proof.
  induction w as [|c w IH]; [done|]. simpl.
  destruct (eqb_nl_spec c) as [->|Hc].
  - intros _. apply last_cons_cons.
  - intros [?|Hin]%elem_of_cons; [congruence|].
    rewrite !last_cons, IH by done. done.
Qed.

Lemma fold_step_plain_break s loc :
  plain_break s -> Str.rfind s [bslash; nl] = Some loc ->
  Str.count nl (fold_step s loc) = Str.count nl s /\ plain_break (fold_step s loc).
Proof.
  intros (a & b & Hs & Hb & Ha) Hr.
  apply rfind_Some in Hr as (u & w & -> & <- & Hmax). simpl app in *.
  rewrite fold_step_eq.
  change (a ++ nl :: b) with (a ++ [nl] ++ b) in Hs.
  apply pair_split in Hs as [(k & -> & ->)|[(k & -> & ->)|[(l & Hl)|[[Hx _]|[-> _]]]]];
    [| | | | |done].
  - exfalso. by eapply (rfind_None _ _ k w) in Hb.
  - assert (Hd : exists d, dup_first_nl (k ++ [nl] ++ b) = d ++ nl :: b
                   /\ Str.count nl d = S (Str.count nl k)
                   /\ last (u ++ space_after u ++ d) <> Some bslash).
    { destruct (decide (nl ∈ k)) as [Hin|Hnot].
      - exists (dup_first_nl k). rewrite dup_first_nl_app_in by done.
        split; [done|]. rewrite count_dup_first_nl, bool_decide_eq_true_2 by done.
        split; [lia|]. rewrite !last_app, last_dup_first_nl by done.
        rewrite !last_app, !last_cons in Ha.
        destruct (last k) eqn:Hk; [done|]. apply last_None in Hk as ->.
        by apply elem_of_nil in Hin.
      - exists (k ++ [nl]). simpl. rewrite dup_first_nl_split by done.
        rewrite <- app_assoc. split; [done|].
        rewrite count_app, count_cons_eq, count_nil. split; [lia|].
        by rewrite !app_assoc, last_snoc. }
    destruct Hd as (d & Hd & Hcount & Hlast). rewrite Hd. split.
    + rewrite !count_app, !count_cons_eq, Hcount.
      rewrite (count_notin nl (space_after u)) by apply nl_notin_space_after.
      rewrite !(count_cons_ne nl bslash) by done. rewrite count_cons_eq, count_app.
      simpl. rewrite count_cons_eq. lia.
    + exists (u ++ space_after u ++ d), b. by rewrite <- !app_assoc.
  - by destruct l as [|? [|? ?]].
  - by apply list_elem_of_singleton in Hx.
  - by rewrite last_snoc in Ha.
Qed.

Lemma fold_loop_newlines fuel s out :
  continuations_closed s = true ->
  fold_loop fuel s = Some out -> Str.count nl out = Str.count nl s.
Proof.
  intros Hc.
  assert (H : Str.rfind s [bslash; nl] = None \/ plain_break s).
  { destruct (Str.rfind s [bslash; nl]) eqn:Hr; [right|by left].
    apply closed_plain_break; [by rewrite Hr | done]. }
  clear Hc. revert s H. induction fuel as [|fuel IH]; intros s H.
  - simpl. destruct (Str.rfind s [bslash; nl]); [done|]. by intros ?; simplify_eq.
  - rewrite fold_loop_unfold.
    destruct (Str.rfind s [bslash; nl]) as [loc|] eqn:Hr; [|by intros ?; simplify_eq].
    destruct H as [H|H]; [done|].
    destruct (fold_step_plain_break _ _ H Hr) as [Hcount Hpb].
    intros Hf. rewrite <- Hcount. apply IH; [by right | done].
Qed.

(** *** Literals *)

Lemma fold_step_has_sub lit s loc :
  lit <> [] -> nl ∉ lit -> last lit <> Some bslash ->
  has_sub lit s -> Str.rfind s [bslash; nl] = Some loc ->
  has_sub lit (fold_step s loc).
Proof.
  intros Hne Hnl Hlast (a & b & Hs) Hr.
  apply rfind_Some in Hr as (u & w & -> & <- & _). simpl app in *.
  rewrite fold_step_eq.
  apply pair_split in Hs as [(k & -> & ->)|[(k & -> & ->)|[(l & ->)|[[_ Hy]|[_ [m' ->]]]]]];
    [| | | | |done].
  - exists a, (k ++ space_after (a ++ lit ++ k) ++ dup_first_nl w). app_norm.
  - destruct (decide (nl ∈ k)) as [Hin|Hnot].
    + rewrite dup_first_nl_app_in by done.
      exists (u ++ space_after u ++ dup_first_nl k), b. app_norm.
    + rewrite dup_first_nl_app_notin, dup_first_nl_app_notin by done.
      exists (u ++ space_after u ++ k), (dup_first_nl b). app_norm.
  - by rewrite last_snoc in Hlast.
  - done.
  - exfalso. apply Hnl. left.
Qed.

Lemma fold_loop_has_sub lit fuel s out :
  lit <> [] -> nl ∉ lit -> last lit <> Some bslash ->
  has_sub lit s -> fold_loop fuel s = Some out -> has_sub lit out.
Proof.
  intros Hne Hnl Hlast. revert s. induction fuel as [|fuel IH]; intros s Hs.
  - simpl. destruct (Str.rfind s [bslash; nl]); [done|]. by intros ?; simplify_eq.
  - rewrite fold_loop_unfold.
    destruct (Str.rfind s [bslash; nl]) as [loc|] eqn:Hr; [|by intros ?; simplify_eq].
    apply IH. by apply fold_step_has_sub.
Qed.
(** ** Rewriting [#if defined(X)] *)

(** Where a segment [P] stands with respect to a segment [m]. *)
Lemma seg_split (X P Y a m b : text) :
  m <> [] ->
  X ++ P ++ Y = a ++ m ++ b ->
  (exists k, X = a ++ m ++ k /\ b = k ++ P ++ Y)
  \/ (exists k, a = X ++ P ++ k /\ Y = k ++ m ++ b)
  \/ (exists m1 m2, m = m1 ++ P ++ m2)
  \/ (exists c m', m = c :: m' /\ c ∈ P)
  \/ (exists c m', m = m' ++ [c] /\ c ∈ P).
Proof.
  intros Hm H. apply app_eq_app in H as [l [[-> H]|[-> H]]].
  - apply app_eq_app in H as [l' [[-> H]|[-> ->]]].
    + apply app_eq_app in H as [l2 [[-> ->]|[-> ->]]].
      * destruct l' as [|c l' _] using rev_ind.
        -- left. exists []. by rewrite !app_nil_r.
        -- right; right; right; right. exists c, (l ++ l'). split; [app_norm|].
           apply elem_of_app. left. apply elem_of_app. right. left.
      * right; right; left. eauto.
    + left. exists l'. split; [app_norm | done].
  - apply app_eq_app in H as [l' [[-> H]|[-> ->]]].
    + destruct l' as [|c l']; simpl in H.
      * right; left. exists []. rewrite !app_nil_r. by subst.
      * destruct m as [|c' m]; [done|]. simpl in H. injection H as -> H.
        right; right; right; left.
        exists c, m. split; [done|]. apply elem_of_app. right. left.
    + right; left. exists l'. split; [app_norm | done].
Qed.

Lemma replaceIfDefined_loop_unfold fuel ret pos :
  replaceIfDefined_loop (S fuel) ret pos =
  match Str.find ret ifdefined pos with
  | None => Some ret
  | Some pos =>
      match Str.find ret ")" (pos + 9) with
      | None => Some ret
      | Some pos2 =>
          if (length ret - 1 <? pos2)%nat then Some ret
          else
            let ret :=
              if Ascii.eqb (Str.at_ ret (pos2 + 1)) nl
              then Str.insert
                     (Str.erase (Str.erase ret pos2 (Some 1)) (pos + 3) (Some 9))
                     (pos + 3) "def "
              else ret in
            replaceIfDefined_loop fuel ret (pos + 1)
      end
  end.
Proof. reflexivity. Qed.

Lemma replaceIfDefined_loop_0 ret pos :
  replaceIfDefined_loop 0 ret pos =
  match Str.find ret ifdefined pos with
  | None => Some ret
  | Some _ => None
  end.
Proof. reflexivity. Qed.

(** The closing parenthesis found from inside the pattern stands after it. *)
Lemma paren_after_pattern u w u2 w2 :
  u ++ ifdefined ++ w = u2 ++ ")" ++ w2 -> length u + 9 <= length u2 ->
  exists k, u2 = u ++ ifdefined ++ k /\ w = k ++ ")" ++ w2.
Proof.
  intros H Hlen. apply app_eq_app in H as [l [[-> H]|[-> H]]].
  - rewrite length_app in Hlen. lia.
  - apply app_eq_app in H as [l' [[Hp H]|[-> ->]]].
    + destruct l' as [|c l'].
      * rewrite app_nil_r in Hp. subst l. simpl in H. exists []. by rewrite app_nil_r.
      * simpl in H. injection H as Hc H. exfalso.
        rewrite length_app in Hlen.
        assert (Hl : 9 <= length l) by lia. clear -Hp Hl Hc.
        do 9 (destruct l as [|? l]; [simpl in Hl; lia|]).
        unfold ifdefined in Hp. simpl in Hp.
        destruct l as [|? [|? [|? l]]]; simpl in Hp; simplify_eq.
        by destruct l.
    + exists l'. split; [app_norm | done].
Qed.

Lemma erase_at s a x b p n :
  s = a ++ x ++ b -> p = length a -> n = length x -> Str.erase s p (Some n) = a ++ b.
Proof.
  intros -> -> ->. unfold Str.erase.
  by rewrite take_app_length, drop_app_add, drop_app_length.
Qed.

Lemma insert_at s a b p x :
  s = a ++ b -> p = length a -> Str.insert s p x = a ++ x ++ b.
Proof.
  intros -> ->. unfold Str.insert. by rewrite take_app_length, drop_app_length.
Qed.

Ltac length_norm := rewrite ?length_app; simpl; lia.
Ltac side := first [done | by app_norm | length_norm].

(** The rewriting itself, on a text laid out around the pattern. *)
Lemma replaceIfDefined_rewrite u k w2 :
  Str.insert
    (Str.erase (Str.erase (u ++ ifdefined ++ k ++ ")" ++ w2)
                  (length (u ++ ifdefined ++ k)) (Some 1))
       (length u + 3) (Some 9))
    (length u + 3) "def "
  = u ++ "#ifdef " ++ k ++ w2.
Proof.
  unfold ifdefined.
  assert (E1 : Str.erase (u ++ "#if defined(" ++ k ++ ")" ++ w2)
                 (length (u ++ "#if defined(" ++ k)) (Some 1)
               = (u ++ "#if") ++ " defined(" ++ k ++ w2).
  { rewrite (erase_at _ (u ++ "#if defined(" ++ k) ")" w2); side. }
  rewrite E1.
  rewrite (erase_at _ (u ++ "#if") " defined(" (k ++ w2)); [|side..].
  rewrite (insert_at _ (u ++ "#if") (k ++ w2)); [|side..].
  app_norm.
Qed.

Lemma at_app_add a b i : Str.at_ (a ++ b) (length a + i) = Str.at_ b i.
Proof. unfold Str.at_. apply app_nth2_plus. Qed.

(** The layout of the text in a round of the loop that finds a pattern
    and a closing parenthesis. *)
Lemma replaceIfDefined_round ret pos p p2 :
  Str.find ret ifdefined pos = Some p ->
  Str.find ret ")" (p + 9) = Some p2 ->
  exists u k w2,
    ret = u ++ ifdefined ++ k ++ ")" ++ w2 /\ p = length u /\ pos <= p
    /\ p2 = length (u ++ ifdefined ++ k) /\ (length ret - 1 <? p2)%nat = false.
Proof.
  intros (u & w & -> & <- & Hpos)%find_Some (u2 & w2 & H & <- & Hp2)%find_Some.
  apply paren_after_pattern in H as (k & -> & ->); [|done].
  exists u, k, w2. split; [done|]. split; [done|]. split; [done|]. split; [done|].
  apply Nat.ltb_ge. rewrite !length_app. simpl. lia.
Qed.

Lemma find_no_occurrence s pat pos :
  (forall u w, s <> u ++ pat ++ w) -> Str.find s pat pos = None.
Proof.
  intros H. destruct (Str.find s pat pos) as [i|] eqn:F; [|done].
  apply find_Some in F as (u & w & -> & _). by destruct (H u w).
Qed.

Lemma replaceIfDefined_loop_fixed fuel ret pos :
  (forall u w, ret <> u ++ ifdefined ++ w) ->
  replaceIfDefined_loop fuel ret pos = Some ret.
Proof.
  intros H. pose proof (find_no_occurrence _ _ pos H) as F.
  destruct fuel; [rewrite replaceIfDefined_loop_0 | rewrite replaceIfDefined_loop_unfold];
    by rewrite F.
Qed.

Lemma replaceIfDefined_loop_total fuel ret pos :
  length ret - pos <= fuel -> is_Some (replaceIfDefined_loop fuel ret pos).
Proof.
  revert ret pos. induction fuel as [|fuel IH]; intros ret pos Hle.
  - rewrite replaceIfDefined_loop_0.
    destruct (Str.find ret ifdefined pos) as [p|] eqn:F; [|eauto].
    apply find_Some in F as (u & w & -> & <- & Hpos).
    rewrite !length_app in Hle. simpl in Hle. lia.
  - rewrite replaceIfDefined_loop_unfold.
    destruct (Str.find ret ifdefined pos) as [p|] eqn:F; [|eauto].
    destruct (Str.find ret ")" (p + 9)) as [p2|] eqn:F2; [|eauto].
    destruct (replaceIfDefined_round _ _ _ _ F F2)
      as (u & k & w2 & -> & -> & Hpos & -> & ->).
    cbv zeta. destruct (Ascii.eqb _ nl).
    + rewrite replaceIfDefined_rewrite. apply IH.
      rewrite !length_app in *. simpl in *. lia.
    + apply IH. rewrite !length_app in *. simpl in *. lia.
Qed.

Lemma replaceIfDefined_total str : is_Some (replaceIfDefined str).
Proof. apply replaceIfDefined_loop_total. lia. Qed.

Lemma replaceIfDefined_loop_newlines fuel ret pos out :
  replaceIfDefined_loop fuel ret pos = Some out -> Str.count nl out = Str.count nl ret.
Proof.
  revert ret pos. induction fuel as [|fuel IH]; intros ret pos.
  - rewrite replaceIfDefined_loop_0.
    destruct (Str.find ret _ pos); [done|]. by intros ?; simplify_eq.
  - rewrite replaceIfDefined_loop_unfold.
    destruct (Str.find ret ifdefined pos) as [p|] eqn:F; [|by intros ?; simplify_eq].
    destruct (Str.find ret ")" (p + 9)) as [p2|] eqn:F2; [|by intros ?; simplify_eq].
    destruct (replaceIfDefined_round _ _ _ _ F F2)
      as (u & k & w2 & -> & -> & Hpos & -> & ->).
    cbv zeta. destruct (Ascii.eqb _ nl); [|by apply IH].
    rewrite replaceIfDefined_rewrite. intros H. rewrite (IH _ _ H).
    rewrite !count_app. unfold ifdefined.
    rewrite (count_notin nl "#ifdef "), (count_notin nl "#if defined("),
      (count_notin nl ")"); [lia|..];
      intros Hin; repeat (apply elem_of_cons in Hin as [?|Hin]; [done|]);
      by apply elem_of_nil in Hin.
Qed.

(** A literal that holds no newline and no rewritable pattern stays. *)
Lemma replaceIfDefined_loop_has_sub m fuel ret pos out :
  nl ∉ dquote :: m ++ [dquote] ->
  ~ has_sub ifdefined m ->
  has_sub (dquote :: m ++ [dquote]) ret ->
  replaceIfDefined_loop fuel ret pos = Some out ->
  has_sub (dquote :: m ++ [dquote]) out.
Proof.
  set (lit := dquote :: m ++ [dquote]). intros Hnl Hpat.
  revert ret pos. induction fuel as [|fuel IH]; intros ret pos Hs.
  - rewrite replaceIfDefined_loop_0.
    destruct (Str.find ret _ pos); [done|]. by intros ?; simplify_eq.
  - rewrite replaceIfDefined_loop_unfold.
    destruct (Str.find ret ifdefined pos) as [p|] eqn:F; [|by intros ?; simplify_eq].
    destruct (Str.find ret ")" (p + 9)) as [p2|] eqn:F2; [|by intros ?; simplify_eq].
    destruct (replaceIfDefined_round _ _ _ _ F F2)
      as (u & k & w2 & -> & -> & Hpos & -> & ->).
    cbv zeta. rewrite <- (Nat.add_0_r (length _ + 1)), <- Nat.add_assoc.
    replace (u ++ ifdefined ++ k ++ ")" ++ w2)
      with ((u ++ ifdefined ++ k) ++ ")" ++ w2) at 1 by app_norm.
    rewrite at_app_add. simpl Str.at_.
    destruct w2 as [|c w2]; [by apply IH|]. unfold Str.at_. simpl nth.
    destruct (eqb_nl_spec c) as [->|_]; [|by apply IH].
    rewrite replaceIfDefined_rewrite. apply IH.
    destruct Hs as (a & b & Hs).
    assert (Hq : dquote ∉ ifdefined).
    { unfold ifdefined. intros Hin.
      repeat (apply elem_of_cons in Hin as [?|Hin]; [done|]). by apply elem_of_nil in Hin. }
    apply seg_split in Hs
      as [(k1 & Hu & Hb)|[(k1 & Ha & Hk)|[(m1 & m2 & Hm)|[(c & m' & Hm & Hc)|(c & m' & Hm & Hc)]]]];
      [| | | | |done].
    + subst u b. exists a, (k1 ++ "#ifdef " ++ k ++ nl :: w2). app_norm.
    + change (k ++ ")" ++ nl :: w2) with (k ++ ")"%char :: nl :: w2) in Hk.
      apply pair_split in Hk
        as [(k2 & Hk2 & Hb)|[(k2 & Hk1 & Hw2)|[(l & Hl)|[[_ Hy]|[_ [m3 Hm3]]]]]];
        [| | | | |done].
      * subst k b. exists (u ++ "#ifdef " ++ k1), (k2 ++ nl :: w2). app_norm.
      * subst w2. exists (u ++ "#ifdef " ++ k ++ nl :: k2), b. app_norm.
      * unfold lit in Hl. change (dquote :: m ++ [dquote]) with ((dquote :: m) ++ [dquote]) in Hl.
        by apply app_inj_tail in Hl as [_ ?].
      * done.
      * unfold lit in Hm3. injection Hm3 as Hm3 _. done.
    + exfalso. apply Hpat. unfold lit in Hm.
      destruct m1 as [|c1 m1]; [by injection Hm|]. cbn [app] in Hm. injection Hm as _ Hm.
      destruct m2 as [|c2 m2 _] using rev_ind.
      * apply (f_equal last) in Hm. rewrite last_snoc, last_app in Hm. done.
      * assert (Hm' : m ++ [dquote] = (m1 ++ ifdefined ++ m2) ++ [c2]).
        { rewrite Hm. app_norm. }
        apply app_inj_tail in Hm' as [-> _]. by exists m1, m2.
    + unfold lit in Hm. injection Hm as <- _. done.
    + unfold lit in Hm. change (dquote :: m ++ [dquote]) with ((dquote :: m) ++ [dquote]) in Hm.
      apply app_inj_tail in Hm as [_ <-]. done.
Qed.
(** ** Tabs, indentation and spaces next to a newline *)

Lemma count_replace_tabs s : Str.count nl (replace_tabs s) = Str.count nl s.
Proof.
  induction s as [|c s IH]; [done|]. unfold replace_tabs in *. simpl.
  destruct (Ascii.eqb_spec c tab) as [->|Hc].
  - by rewrite !count_cons_ne.
  - by rewrite !(count_cons nl c), IH.
Qed.

Lemma replace_tabs_app s t : replace_tabs (s ++ t) = replace_tabs s ++ replace_tabs t.
Proof. apply map_app. Qed.

Lemma replace_tabs_id s : tab ∉ s -> replace_tabs s = s.
Proof.
  induction s as [|c s IH]; [done|]. intros [Hc Hs]%not_elem_of_cons.
  unfold replace_tabs in *. simpl. rewrite IH by done.
  by destruct (Ascii.eqb_spec c tab) as [->|_].
Qed.

Lemma replace_tabs_has_sub lit s :
  tab ∉ lit -> has_sub lit s -> has_sub lit (replace_tabs s).
Proof.
  intros Ht (a & b & ->). exists (replace_tabs a), (replace_tabs b).
  by rewrite !replace_tabs_app, (replace_tabs_id lit).
Qed.

Lemma remove_indentation_eq s : remove_indentation s = strip_spaces s.
Proof.
  unfold remove_indentation, Str.erase, Str.at_.
  destruct s as [|c s]; [done|]. simpl.
  destruct (Ascii.eqb_spec c sp) as [->|Hc]; [|done]. simpl.
  assert (H : forall t : text,
             match find_first_not_of_space t with
             | Some n => drop n t
             | None => []
             end = strip_spaces t).
  { induction t as [|x t IHt]; [done|]. simpl.
    destruct (Ascii.eqb_spec x sp) as [->|Hx]; [|done].
    rewrite <- IHt. by destruct (find_first_not_of_space t). }
  rewrite <- H. by destruct (find_first_not_of_space s).
Qed.

Lemma strip_spaces_suffix s : exists a, s = a ++ strip_spaces s /\ nl ∉ a.
Proof.
  induction s as [|c s (a & IH & Ha)]; [by exists []; split; [|apply not_elem_of_nil]|]. simpl.
  destruct (Ascii.eqb_spec c sp) as [->|Hc].
  - exists (sp :: a). split; [by rewrite IH at 1|]. by apply not_elem_of_cons.
  - exists []. split; [done | apply not_elem_of_nil].
Qed.

Lemma count_remove_indentation s :
  Str.count nl (remove_indentation s) = Str.count nl s.
Proof.
  rewrite remove_indentation_eq. destruct (strip_spaces_suffix s) as (a & Hs & Ha).
  rewrite Hs at 2. by rewrite count_app, (count_notin nl a).
Qed.

Lemma strip_spaces_has_sub lit s :
  (exists m, lit = dquote :: m) -> has_sub lit s -> has_sub lit (strip_spaces s).
Proof.
  intros [m ->] (a & b & ->). induction a as [|c a IH]; simpl.
  - by exists [], b.
  - destruct (Ascii.eqb c sp); [done|]. by exists (c :: a), b.
Qed.

Lemma removeSpaceNearNL_loop_total i0 prev str :
  i0 = true \/ is_Some prev \/ (exists r, str = nl :: r) ->
  is_Some (removeSpaceNearNL_loop i0 prev str).
Proof.
  revert i0 prev. induction str as [|c str IH]; intros i0 prev H; simpl; [eauto|].
  destruct (Ascii.eqb_spec c sp) as [->|Hc]; simpl.
  - assert (Hp : exists b, (if negb i0 then (fun p => Ascii.eqb p nl) <$> prev else Some false)
                           = Some b).
    { destruct i0; simpl; [eauto|]. destruct H as [?|[[p ->]|[r Hr]]]; [done| |].
      - simpl. eauto.
      - by injection Hr. }
    destruct Hp as [b Hb]. rewrite Hb. simpl.
    destruct (b || _) eqn:E.
    + apply IH. destruct b.
      * right. left. destruct i0; [by simplify_eq|]. by destruct prev.
      * simpl in E. destruct str as [|n str]; [done|].
        apply Ascii.eqb_eq in E as ->. eauto.
    + destruct (IH false (Some sp)) as [out ->]; [eauto|]. simpl. eauto.
  - destruct (IH false (Some c)) as [out ->]; [eauto|]. simpl. eauto.
Qed.

Lemma removeSpaceNearNL_total str : is_Some (removeSpaceNearNL str).
Proof. apply removeSpaceNearNL_loop_total. by left. Qed.

Lemma removeSpaceNearNL_loop_count c i0 prev str out :
  c <> sp -> removeSpaceNearNL_loop i0 prev str = Some out ->
  Str.count c out = Str.count c str.
Proof.
  intros Hc. revert i0 prev out. induction str as [|x str IH]; intros i0 prev out; simpl.
  - by intros ?; simplify_eq.
  - destruct (if Ascii.eqb x sp && negb i0 then _ else _) as [b|]; [|done]. simpl.
    destruct (Ascii.eqb x sp && _) eqn:E.
    + apply andb_true_iff in E as [->%Ascii.eqb_eq _]. intros H.
      rewrite (IH _ _ _ H). by rewrite count_cons_ne.
    + destruct (removeSpaceNearNL_loop false (Some x) str) as [out'|] eqn:H; [|done].
      simpl. intros ?; simplify_eq. by rewrite !(count_cons c x), (IH _ _ _ H).
Qed.

(** A literal without newline goes through as it is. *)
Lemma removeSpaceNearNL_loop_solid l b p :
  nl ∉ l -> p <> nl ->
  removeSpaceNearNL_loop false (Some p) (l ++ dquote :: b)
  = (fun out => l ++ dquote :: out) <$> removeSpaceNearNL_loop false (Some dquote) b.
Proof.
  revert p. induction l as [|c l IH]; intros p Hl Hp; simpl.
  - destruct (removeSpaceNearNL_loop false (Some dquote) b); done.
  - apply not_elem_of_cons in Hl as [Hc Hl].
    assert (Hnext : match l ++ dquote :: b with n :: _ => Ascii.eqb n nl | [] => false end = false).
    { destruct l as [|n l]; simpl; [done|].
      apply not_elem_of_cons in Hl as [Hn _]. by destruct (eqb_nl_spec n). }
    rewrite Hnext. destruct (Ascii.eqb_spec p nl) as [->|_]; [done|].
    assert (Hc' : c <> nl) by congruence.
    destruct (Ascii.eqb c sp); simpl; rewrite IH by done;
      by destruct (removeSpaceNearNL_loop false (Some dquote) b).
Qed.

Lemma removeSpaceNearNL_loop_has_sub m i0 prev str out :
  nl ∉ m ->
  has_sub (dquote :: m ++ [dquote]) str ->
  removeSpaceNearNL_loop i0 prev str = Some out ->
  has_sub (dquote :: m ++ [dquote]) out.
Proof.
  intros Hm (a & b & ->). revert i0 prev out.
  induction a as [|c a IH]; intros i0 prev out.
  - cbn [app]. rewrite <- app_assoc. cbn [app].
    change (removeSpaceNearNL_loop i0 prev (dquote :: m ++ dquote :: b))
      with ((fun o => dquote :: o) <$> removeSpaceNearNL_loop false (Some dquote) (m ++ dquote :: b)).
    rewrite removeSpaceNearNL_loop_solid by done.
    destruct (removeSpaceNearNL_loop false (Some dquote) b) as [out'|]; [|done].
    simpl. intros ?; simplify_eq. exists [], out'. app_norm.
  - cbn [app removeSpaceNearNL_loop].
    destruct (if Ascii.eqb c sp && negb i0 then _ else _) as [bb|]; [|done].
    cbn [mbind option_bind].
    destruct (Ascii.eqb c sp && _).
    + apply IH.
    + destruct (removeSpaceNearNL_loop false (Some c) _) as [out'|] eqn:H; [|done].
      simpl. intros ?; simplify_eq.
      destruct (IH _ _ _ H) as (a' & b' & ->). exists (c :: a'), b'. done.
Qed.
(** ** The scanner [read] *)

Lemma slen_line_comment ch s : slen (line_comment ch s) <= length s.
Proof.
  revert ch. induction s as [|c s IH]; intros ch; simpl.
  - by destruct (Ascii.eqb ch nl).
  - destruct (Ascii.eqb ch nl); simpl; [lia|]. specialize (IH c). lia.
Qed.

Lemma slen_block_comment chPrev ch s : slen (block_comment chPrev ch s).2 <= length s.
Proof.
  revert chPrev ch. induction s as [|c s IH]; intros chPrev ch; simpl.
  - by destruct (_ && _).
  - destruct (_ && _); simpl; [lia|]. specialize (IH ch c).
    destruct (block_comment ch c s). simpl in *. lia.
Qed.

Lemma slen_string_const s : slen (string_const s).2 <= length s.
Proof.
  assert (H : forall n s, length s <= n -> slen (string_const s).2 <= length s).
  { clear s. induction n as [|n IH]; intros [|c s] Hl; simpl in *; try lia.
    destruct (Ascii.eqb c bslash).
    - destruct s as [|c2 s]; simpl; [lia|].
      specialize (IH s ltac:(simpl in *; lia)).
      destruct (string_const s). simpl in *. lia.
    - destruct (Ascii.eqb c dquote); simpl; [lia|].
      specialize (IH s ltac:(lia)). destruct (string_const s). simpl in *. lia. }
  by apply (H (length s)).
Qed.

Lemma slen_get istr : slen (get istr).2 <= slen istr.
Proof. destruct istr as [[|c s]|]; simpl; lia. Qed.

Lemma slen_char_const istr : slen (char_const istr).2 <= slen istr.
Proof.
  unfold char_const. pose proof (slen_get istr) as H1.
  destruct (get istr) as [ch i1]. simpl in H1.
  destruct (Ascii.eqb ch bslash).
  - pose proof (slen_get i1) as H2. destruct (get i1) as [ch2 i2]. simpl in H2.
    pose proof (slen_get i2) as H3. destruct (get i2) as [ch3 i3]. simpl in *. lia.
  - pose proof (slen_get i1) as H2. destruct (get i1) as [ch2 i2]. simpl in *. lia.
Qed.

Lemma slen_read_round ign ch istr : slen (read_round ign ch istr).2 <= slen istr.
Proof.
  unfold read_round. destruct (is_negative ch); [done|].
  destruct (_ && ign); [done|].
  destruct (Ascii.eqb _ slash).
  - pose proof (slen_get istr) as H1. destruct (get istr) as [chNext i1]. simpl in H1.
    destruct (Ascii.eqb chNext slash).
    + simpl. destruct i1 as [s|]; simpl in *; [|lia].
      pose proof (slen_line_comment (normal ch) s).
      lia.
    + destruct (Ascii.eqb chNext star); [|simpl; lia].
      destruct i1 as [s|]; simpl in *; [|lia].
      pose proof (slen_block_comment zero (normal ch) s).
      destruct (block_comment _ _ s). simpl in *. lia.
  - destruct (Ascii.eqb _ dquote).
    + destruct istr as [s|]; simpl; [|lia].
      pose proof (slen_string_const s). destruct (string_const s). simpl in *. lia.
    + destruct (Ascii.eqb _ squote); [|done].
      pose proof (slen_char_const istr). destruct (char_const istr). simpl in *. lia.
Qed.

Lemma read_loop_unfold fuel ign istr :
  read_loop (S fuel) ign istr =
  let '(ch, istr) := get istr in
  if negb (good istr) then Some []
  else
    let '(out, ign, istr) := read_round ign ch istr in
    (fun code => out ++ code) <$> read_loop fuel ign istr.
Proof. reflexivity. Qed.

(** The loop ends on every stream, and what it returns does not depend
    on the fuel left over. *)
Lemma read_loop_fuel f1 f2 ign istr :
  slen istr < f1 -> slen istr < f2 -> read_loop f1 ign istr = read_loop f2 ign istr.
Proof.
  revert f2 ign istr. induction f1 as [|f1 IH]; intros [|f2] ign istr H1 H2; try lia.
  rewrite !read_loop_unfold.
  destruct istr as [[|c s]|]; simpl get; cbv iota beta; simpl good; cbv iota; try done.
  pose proof (slen_read_round ign c (Some s)) as Hs.
  destruct (read_round ign c (Some s)) as [[out ign'] istr']. simpl in *.
  rewrite (IH f2); [done|lia..].
Qed.

Lemma read_loop_total fuel ign istr : slen istr < fuel -> is_Some (read_loop fuel ign istr).
Proof.
  revert ign istr. induction fuel as [|fuel IH]; intros ign istr H; [lia|].
  rewrite read_loop_unfold.
  destruct istr as [[|c s]|]; simpl get; cbv iota beta; simpl good; cbv iota; try by eauto.
  pose proof (slen_read_round ign c (Some s)) as Hs.
  destruct (read_round ign c (Some s)) as [[out ign'] istr']. simpl in *.
  destruct (IH ign' istr') as [code ->]; [lia|]. simpl. eauto.
Qed.

Lemma read_total input : is_Some (read input).
Proof. apply read_loop_total. simpl. lia. Qed.
Lemma read_at_None ign : read_at ign None = Some [].
Proof. reflexivity. Qed.

Lemma read_at_nil ign : read_at ign (Some []) = Some [].
Proof. reflexivity. Qed.

Lemma read_at_cons ign c s :
  read_at ign (Some (c :: s)) =
  let '(out, ign', istr') := read_round ign c (Some s) in
  (fun code => out ++ code) <$> read_at ign' istr'.
Proof.
  unfold read_at. rewrite read_loop_unfold. simpl get. cbv iota beta. simpl good. cbv iota.
  pose proof (slen_read_round ign c (Some s)) as Hs.
  destruct (read_round ign c (Some s)) as [[out ign'] istr']. simpl in Hs.
  f_equal. apply read_loop_fuel; simpl; lia.
Qed.

Lemma read_eq input : read input = read_at true (Some input).
Proof. reflexivity. Qed.

Lemma normal_cases c : normal c = sp \/ normal c = c.
Proof. unfold normal. destruct (_ && _); auto. Qed.

Lemma normal_nl_iff c : normal c = nl <-> c = nl.
Proof.
  unfold normal. destruct (eqb_nl_spec c) as [->|Hc]; simpl; [done|].
  destruct (_ || _); [|done]. split; [done|]. intros; by subst.
Qed.

(** A character that opens no comment and no constant. *)
Lemma read_round_plain ign c istr :
  c <> slash -> c <> dquote -> c <> squote ->
  read_round ign c istr =
  if is_negative c || (Ascii.eqb (normal c) sp && ign) then ([], ign, istr)
  else ([normal c], Ascii.eqb (normal c) sp || Ascii.eqb (normal c) hash, istr).
Proof.
  intros H1 H2 H3. unfold read_round.
  destruct (is_negative c); [done|]. simpl orb.
  destruct (Ascii.eqb (normal c) sp && ign); [done|].
  assert (Hn : forall x, x <> sp -> c <> x -> Ascii.eqb (normal c) x = false).
  { intros x Hx Hc. apply Ascii.eqb_neq. destruct (normal_cases c) as [-> | ->]; congruence. }
  rewrite !Hn by done. by rewrite orb_false_r.
Qed.

Lemma read_round_slash ign c rest :
  c <> slash -> c <> star ->
  read_round ign slash (Some (c :: rest)) = ([slash; c], true, Some rest).
Proof.
  intros H1 H2. unfold read_round. change (normal slash) with slash. simpl.
  by destruct (Ascii.eqb_spec c slash), (Ascii.eqb_spec c star).
Qed.

Lemma line_comment_closed ch body rest :
  ch <> nl -> nl ∉ body -> line_comment ch (body ++ nl :: rest) = Some rest.
Proof.
  revert ch. induction body as [|c body IH]; intros ch Hch Hb; simpl.
  - destruct (eqb_nl_spec ch); [done|]. by destruct rest.
  - destruct (eqb_nl_spec ch); [done|].
    apply not_elem_of_cons in Hb as [Hc Hb]. apply IH; [congruence | done].
Qed.

Lemma read_round_line ign body rest :
  nl ∉ body ->
  read_round ign slash (Some (slash :: body ++ nl :: rest)) = ([nl], true, Some rest).
Proof.
  intros Hb. unfold read_round. change (normal slash) with slash. simpl.
  by rewrite (line_comment_closed slash body rest).
Qed.

Lemma block_comment_closed body chPrev ch rest :
  Ascii.eqb chPrev star && Ascii.eqb ch slash = false ->
  no_star_slash ch body = true ->
  block_comment chPrev ch (body ++ star :: slash :: rest)
  = (filter (fun c => c = nl) body, Some rest).
Proof.
  revert chPrev ch. induction body as [|c body IH]; intros chPrev ch H1 H2.
  - cbn [app block_comment]. rewrite H1.
    change (Ascii.eqb star slash) with false. rewrite andb_false_r.
    by destruct rest.
  - simpl in H2. apply andb_true_iff in H2 as [H2 H3]. apply negb_true_iff in H2.
    cbn [app block_comment]. rewrite H1, (IH _ _ H2 H3).
    rewrite filter_cons. destruct (eqb_nl_spec c) as [->|Hc].
    + by rewrite decide_True.
    + by rewrite decide_False.
Qed.

Lemma read_round_block ign body rest :
  no_star_slash slash body = true ->
  read_round ign slash (Some (star :: body ++ star :: slash :: rest))
  = (filter (fun c => c = nl) body, true, Some rest).
Proof.
  intros Hb. unfold read_round. change (normal slash) with slash. simpl.
  by rewrite (block_comment_closed body zero slash rest).
Qed.

Lemma string_const_closed body rest :
  string_body body = true ->
  string_const (body ++ dquote :: rest) = (body ++ [dquote], Some rest).
Proof.
  assert (H : forall n body, length body <= n -> string_body body = true ->
                string_const (body ++ dquote :: rest) = (body ++ [dquote], Some rest)).
  { clear body. induction n as [|n IH]; intros [|c body] Hl Hb; simpl in *; try lia;
      try done.
    destruct (Ascii.eqb c bslash).
    - destruct body as [|c2 body]; [done|]. cbn [app].
      rewrite (IH body); [done | simpl in *; lia | done].
    - apply andb_true_iff in Hb as [Hq Hb]. apply negb_true_iff in Hq. rewrite Hq.
      rewrite (IH body); [done | lia | done]. }
  by apply (H (length body)).
Qed.

Lemma read_round_string ign body rest :
  string_body body = true ->
  read_round ign dquote (Some (body ++ dquote :: rest))
  = (dquote :: body ++ [dquote], false, Some rest).
Proof.
  intros Hb. unfold read_round. change (normal dquote) with dquote. simpl.
  by rewrite string_const_closed.
Qed.

Lemma read_round_char ign c rest :
  c <> bslash ->
  read_round ign squote (Some (c :: squote :: rest)) = ([squote; c; squote], false, Some rest).
Proof.
  intros Hc. unfold read_round, char_const. change (normal squote) with squote. simpl.
  by destruct (Ascii.eqb_spec c bslash).
Qed.

Lemma read_round_char_escape ign c rest :
  read_round ign squote (Some (bslash :: c :: squote :: rest))
  = ([squote; bslash; c; squote], false, Some rest).
Proof. reflexivity. Qed.

Lemma count_filter_nl body : Str.count nl (filter (fun c => c = nl) body) = Str.count nl body.
Proof. unfold Str.count. f_equal. by rewrite list_filter_filter_l. Qed.
Lemma fmap_app_compose (o : option text) a b :
  (fun c => a ++ c) <$> ((fun c => b ++ c) <$> o) = (fun c => (a ++ b) ++ c) <$> o.
Proof. destruct o; simpl; [|done]. by rewrite app_assoc. Qed.

Lemma fmap_app_nil (o : option text) : (fun c => [] ++ c) <$> o = o.
Proof. by destruct o. Qed.

Ltac count_solve :=
  repeat first [rewrite count_app | rewrite count_cons | rewrite count_nil];
  repeat first [rewrite decide_False by done | rewrite decide_True by done];
  lia.

(** The scanner reads a text of closed lexical items item by item, comes
    back to its main loop after it, and has then written as many
    newlines as it has read. *)
Lemma read_lexed p :
  lexed p -> forall ign rest, exists out ign',
    read_at ign (Some (p ++ rest)) = (fun code => out ++ code) <$> read_at ign' (Some rest)
    /\ Str.count nl out = Str.count nl p.
Proof.
  induction 1 as [|c s H1 H2 H3 _ IH|c s H1 H2 _ IH|body s Hb _ IH|body s Hb _ IH
                  |body s Hb _ IH|c s Hc _ IH|c s _ IH]; intros ign rest.
  - exists [], ign. by rewrite fmap_app_nil.
  - cbn [app]. rewrite read_at_cons, read_round_plain by done.
    destruct (is_negative c || _) eqn:E.
    + destruct (IH ign rest) as (out & ign' & -> & Hcount).
      exists out, ign'. rewrite fmap_app_compose. split; [done|].
      rewrite count_cons_ne; [done|]. intros ->. by vm_compute in E.
    + destruct (IH (Ascii.eqb (normal c) sp || Ascii.eqb (normal c) hash) rest)
        as (out & ign' & -> & Hcount).
      exists ([normal c] ++ out), ign'. rewrite fmap_app_compose. split; [done|].
      rewrite count_app, Hcount, !count_cons, count_nil.
      destruct (decide (c = nl)) as [->|Hc].
      * by rewrite decide_True.
      * rewrite decide_False; [lia|]. intros Hn. by apply (proj1 (normal_nl_iff c)) in Hn.
  - cbn [app]. rewrite read_at_cons, read_round_slash by done.
    destruct (IH true rest) as (out & ign' & -> & Hcount).
    exists ([slash; c] ++ out), ign'. rewrite fmap_app_compose. split; [done|].
    count_solve.
  - cbn [app]. rewrite <- app_assoc. cbn [app].
    rewrite read_at_cons, read_round_line by done.
    destruct (IH true rest) as (out & ign' & -> & Hcount).
    exists ([nl] ++ out), ign'. rewrite fmap_app_compose. split; [done|].
    rewrite (count_cons nl slash), (count_cons nl slash), !count_app, (count_notin nl body)
      by done.
    count_solve.
  - cbn [app]. rewrite <- app_assoc. cbn [app].
    rewrite read_at_cons, read_round_block by done.
    destruct (IH true rest) as (out & ign' & -> & Hcount).
    eexists _, ign'. rewrite fmap_app_compose. split; [done|].
    rewrite count_app, count_filter_nl. count_solve.
  - cbn [app]. rewrite <- app_assoc. cbn [app].
    rewrite read_at_cons, read_round_string by done.
    destruct (IH false rest) as (out & ign' & -> & Hcount).
    eexists _, ign'. rewrite fmap_app_compose. split; [done|].
    count_solve.
  - cbn [app]. rewrite read_at_cons, read_round_char by done.
    destruct (IH false rest) as (out & ign' & -> & Hcount).
    eexists _, ign'. rewrite fmap_app_compose. split; [done|].
    count_solve.
  - cbn [app]. rewrite read_at_cons, read_round_char_escape.
    destruct (IH false rest) as (out & ign' & -> & Hcount).
    eexists _, ign'. rewrite fmap_app_compose. split; [done|].
    count_solve.
Qed.

Lemma read_newlines input :
  lexed input -> exists out, read input = Some out /\ Str.count nl out = Str.count nl input.
Proof.
  intros H. destruct (read_lexed _ H true []) as (out & ign' & Hr & Hc).
  rewrite app_nil_r, read_at_nil in Hr. simpl in Hr.
  exists (out ++ []). rewrite read_eq. split; [done|]. by rewrite app_nil_r.
Qed.

Lemma unfolded_newlines input t :
  lexed input -> unfolded input = Some t -> Str.count nl t = Str.count nl input.
Proof.
  intros H. unfold unfolded. destruct (read_newlines _ H) as (out & -> & <-). simpl.
  intros Hr. apply (removeSpaceNearNL_loop_count nl) in Hr; [|done].
  by rewrite Hr, count_remove_indentation, count_replace_tabs.
Qed.

Lemma unfolded_total input : is_Some (unfolded input).
Proof.
  unfold unfolded. destruct (read_total input) as [out ->]. simpl.
  apply removeSpaceNearNL_total.
Qed.

Lemma clean_total input : is_Some (clean input).
Proof.
  unfold clean. destruct (unfolded_total input) as [t ->]. simpl.
  destruct (fold_continuations_total t) as [t' ->]. simpl.
  apply replaceIfDefined_total.
Qed.

(** C4 (amended): the cleaned text has as many newlines as the input
    when the input is made of closed lexical items and the last line
    continuation of its text is followed by a line break; and the
    selector writes one newline per line of the text it is given: as many
    as the text has when it is empty or ends with a newline, one more
    when its last line is open. *)
Theorem newlines_of_cleaning_and_selection :
  (forall input t : text,
      lexed input -> unfolded input = Some t -> continuations_closed t = true ->
      exists out, clean input = Some out /\ Str.count nl out = Str.count nl input)
  /\ (forall filedata cfg out : text,
        getcode filedata cfg = Some out ->
        Str.count nl out = Str.count nl filedata + (if open_line filedata then 1 else 0)).
Proof.
  split.
  - intros input t Hl Hu Hc. unfold clean. rewrite Hu. simpl.
    destruct (fold_continuations_total t) as [t' Ht']. rewrite Ht'. simpl.
    destruct (replaceIfDefined_total t') as [out Hout]. rewrite Hout.
    exists out. split; [done|].
    rewrite (replaceIfDefined_loop_newlines _ _ _ _ Hout).
    rewrite (fold_loop_newlines _ _ _ Hc Ht'). by apply unfolded_newlines.
  - apply getcode_newlines.
Qed.

Lemma newlines_of_cleaning_and_selection_witness :
  let input : text := "a" ++ [bslash; nl] ++ "b // c" ++ [nl] in
  (exists out, clean input = Some out /\ Str.count nl out = Str.count nl input)
  /\ Str.count nl (src ["x"]) = Str.count nl (src ["x"]) + (if open_line (src ["x"]) then 1 else 0).
Proof.
  intros input. split.
  - apply (proj1 newlines_of_cleaning_and_selection input
             ("a" ++ [bslash; nl] ++ "b" ++ [nl])).
    + do 5 (apply lexed_plain; [done..|]). apply (lexed_line " c" []); [|constructor].
      vm_compute. intros H. repeat (apply elem_of_cons in H as [H|H]; [done|]).
      by apply elem_of_nil in H.
    + reflexivity.
    + reflexivity.
  - apply (proj2 newlines_of_cleaning_and_selection (src ["x"]) [] (src ["x"])).
    reflexivity.
Defined.

(** C4, as stated, fails: a line comment that the end of the input
    closes is replaced by a newline the input does not have, and the
    selector closes the open last line of a text. *)
Lemma newlines_counterexample :
  clean "//" = Some [nl] /\ Str.count nl [nl] <> Str.count nl "//"
  /\ getcode "x" [] = Some ("x" ++ [nl])
  /\ Str.count nl ("x" ++ [nl]) <> Str.count nl "x".
Proof. repeat split; done. Qed.

(** ** Literals through the cleaning *)

Lemma dquote_last m : last (dquote :: m ++ [dquote]) = Some dquote.
Proof. change (dquote :: m ++ [dquote]) with ((dquote :: m) ++ [dquote]). apply last_snoc. Qed.

(** C3 (amended): a string constant ["S"] that stands after a text of
    closed lexical items, with no double quote in [S] but after a
    backslash, no tab, no newline and no [#if defined(] in [S], is found
    as it is in the cleaned text. *)
Theorem literal_fidelity (prefix body suffix : text) :
  lexed prefix -> string_body body = true ->
  tab ∉ body -> nl ∉ body -> ~ has_sub ifdefined body ->
  exists out, clean (prefix ++ dquote :: body ++ dquote :: suffix) = Some out
              /\ has_sub (dquote :: body ++ [dquote]) out.
Proof.
  intros Hp Hb Htab Hnl Hpat.
  set (lit := dquote :: body ++ [dquote]).
  assert (Hlnl : nl ∉ lit).
  { unfold lit. intros [?|[?|?%list_elem_of_singleton]%elem_of_app]%elem_of_cons; done. }
  assert (Hltab : tab ∉ lit).
  { unfold lit. intros [?|[?|?%list_elem_of_singleton]%elem_of_app]%elem_of_cons; done. }
  assert (Hr : exists out, read (prefix ++ dquote :: body ++ dquote :: suffix) = Some out
                           /\ has_sub lit out).
  { destruct (read_lexed _ Hp true (dquote :: body ++ dquote :: suffix))
      as (out & ign' & Hr & _).
    rewrite read_at_cons, read_round_string in Hr by done.
    destruct (read_loop_total (S (slen (Some suffix))) false (Some suffix)) as [out' Ho];
      [simpl; lia|].
    fold (read_at false (Some suffix)) in Ho. rewrite Ho in Hr. simpl in Hr.
    eexists. split; [exact Hr|]. exists out, out'. unfold lit. app_norm. }
  destruct Hr as (r & Hr & Hs). unfold clean, unfolded. rewrite Hr. cbn [mbind option_bind].
  apply (replace_tabs_has_sub _ _ Hltab) in Hs.
  apply (strip_spaces_has_sub lit) in Hs; [|by eexists].
  rewrite remove_indentation_eq.
  destruct (removeSpaceNearNL_total (strip_spaces (replace_tabs r))) as [t1 Ht1].
  rewrite Ht1. cbn [mbind option_bind].
  apply (removeSpaceNearNL_loop_has_sub body _ _ _ _ Hnl Hs) in Ht1.
  destruct (fold_continuations_total t1) as [t2 Ht2]. rewrite Ht2. cbn [mbind option_bind].
  apply (fold_loop_has_sub lit) in Ht2; [|done|done| |done].
  2:{ unfold lit. by rewrite dquote_last. }
  destruct (replaceIfDefined_total t2) as [t3 Ht3]. rewrite Ht3.
  exists t3. split; [done|].
  by apply (replaceIfDefined_loop_has_sub body _ _ _ _ Hlnl Hpat Ht2) in Ht3.
Qed.

Lemma literal_fidelity_witness :
  exists out, clean ("puts(" ++ dquote :: "a  b\n" ++ dquote :: ");") = Some out
              /\ has_sub (dquote :: "a  b\n" ++ [dquote]) out.
Proof.
  apply (literal_fidelity "puts(" "a  b\n" ");").
  - do 5 (apply lexed_plain; [done..|]). constructor.
  - reflexivity.
  - vm_compute. intros H. repeat (apply elem_of_cons in H as [H|H]; [done|]).
    by apply elem_of_nil in H.
  - vm_compute. intros H. repeat (apply elem_of_cons in H as [H|H]; [done|]).
    by apply elem_of_nil in H.
  - intros (a & b & H). apply (f_equal length) in H.
    rewrite !length_app in H. simpl in H. lia.
Defined.

(** C3, as stated, fails: a tab inside a string constant is replaced by
    a space like every other tab of the text. *)
Lemma literal_tab_counterexample :
  clean [dquote; tab; dquote] = Some [dquote; sp; dquote]
  /\ ~ has_sub [dquote; tab; dquote] [dquote; sp; dquote].
Proof.
  split; [reflexivity|]. intros (a & b & H).
  destruct a as [|? [|? [|? [|? a]]]]; simpl in H; simplify_eq.
Qed.
(** ** Tidy texts and [removeSpaceNearNL] *)

(** [removeSpaceNearNL] leaves a tidy text as it is. *)
Lemma removeSpaceNearNL_tidy_fixed y :
  forall i0 p, tidy_after p y = true -> removeSpaceNearNL_loop i0 p y = Some y.
Proof.
  induction y as [|c y IH]; intros i0 p; [done|]. cbn [tidy_after removeSpaceNearNL_loop].
  intros [[H1 H2]%andb_true_iff H3]%andb_true_iff.
  rewrite (IH false (Some c) H3).
  destruct (Ascii.eqb_spec c sp) as [->|Hc]; cbn [andb]; [|by destruct (negb i0)].
  destruct p as [q|]; [|done]. apply andb_true_iff in H1 as [_ Hq].
  apply negb_true_iff in Hq.
  assert (Hy : match y with n :: _ => Ascii.eqb n nl | [] => false end = false).
  { destruct y as [|n y]; [done|]. simpl in H3.
    destruct (eqb_nl_spec n); [|done]. by rewrite andb_false_r in H3. }
  rewrite Hy. destruct i0; simpl; by rewrite ?Hq.
Qed.

Lemma removeSpaceNearNL_loop_Forall (P : ascii -> Prop) str :
  Forall P str -> forall i0 p out,
    removeSpaceNearNL_loop i0 p str = Some out -> Forall P out.
Proof.
  induction 1 as [|c str Hc _ IH]; intros i0 p out; simpl.
  - by intros ?; simplify_eq.
  - destruct (if Ascii.eqb c sp && negb i0 then _ else _) as [b|]; [|done]. simpl.
    destruct (Ascii.eqb c sp && _); [apply IH|].
    destruct (removeSpaceNearNL_loop false (Some c) str) as [out'|] eqn:H; [|done].
    simpl. intros ?; simplify_eq. constructor; eauto.
Qed.

(** [removeSpaceNearNL] makes a single spaced text tidy. *)
Lemma removeSpaceNearNL_tidies str :
  forall i0 p qs out,
    single_spaced qs str = true -> rsnl_state i0 p qs str ->
    removeSpaceNearNL_loop i0 p str = Some out -> tidy_after p out = true.
Proof.
  induction str as [|c rest IH]; intros i0 p qs out Hs Hst.
  - simpl. by intros ?; simplify_eq.
  - simpl in Hs. apply andb_true_iff in Hs as [Hs1 Hs2]. apply negb_true_iff in Hs1.
    cbn [removeSpaceNearNL_loop].
    destruct (Ascii.eqb_spec c sp) as [->|Hc]; cbn [andb] in *.
    + (* a space: the character before it was kept and is no space *)
      subst qs.
      destruct Hst as [(_ & _ & ?)|[(-> & q & -> & Hq & _)|(_ & q & _ & ? & _)]];
        [done| |done].
      symmetry in Hq. simpl. destruct (eqb_nl_spec q) as [->|Hqn]; simpl.
      * apply (IH false (Some nl) true); [done|].
        right; right. split; [done|]. exists nl. eauto.
      * destruct rest as [|n rest'] eqn:Hrest.
        -- simpl. intros ?; simplify_eq. simpl. by rewrite Hq, (proj2 (Ascii.eqb_neq q nl)).
        -- destruct (eqb_nl_spec n) as [->|Hn].
           ++ apply (IH false (Some q) true); [done|].
              right; right. split; [done|]. exists q.
              split; [done|]. split; [done|]. split; [by apply Ascii.eqb_neq | by right].
           ++ destruct (removeSpaceNearNL_loop false (Some sp) (n :: rest')) as [out'|] eqn:Hr;
                [|done].
              simpl. intros ?; simplify_eq.
              apply (IH false (Some sp) true) in Hr; [| done |].
              ** cbn [tidy_after]. rewrite Hr, Hq.
                 by rewrite (proj2 (Ascii.eqb_neq q nl)).
              ** right; left. split; [done|]. exists sp.
                 split; [done|]. split; [done|]. intros _. simpl. congruence.
    + (* any other character is kept *)
      replace (if negb i0 then _ else _) with (Some false) by (by destruct (negb i0)).
      replace (Ascii.eqb c sp) with false in * by (symmetry; by apply Ascii.eqb_neq).
      cbn [mbind option_bind andb].
      destruct (removeSpaceNearNL_loop false (Some c) rest) as [out'|] eqn:Hr; [|done].
      simpl. intros ?; simplify_eq.
      apply (IH false (Some c) false) in Hr; [|done|].
      * cbn [tidy_after]. rewrite Hr, andb_true_r.
        replace (Ascii.eqb c sp) with false by (symmetry; by apply Ascii.eqb_neq).
        destruct (eqb_nl_spec c) as [->|_]; [|done].
        destruct Hst as [(_ & -> & _)|[(_ & q & -> & _ & Hq)|(_ & q & -> & _ & Hq & _)]].
        -- done.
        -- destruct (Ascii.eqb_spec q sp) as [->|_]; [|done]. by destruct Hq.
        -- by destruct (Ascii.eqb_spec q sp).
      * right; left. split; [done|]. exists c. split; [done|].
        split; [symmetry; by apply Ascii.eqb_neq | done].
Qed.


(** ** The scenarios of the specification, run on the model *)

Example clean_line_comment :
  clean ("int a; // hello" ++ [nl] ++ "int b;") = Some ("int a;" ++ [nl] ++ "int b;").
Proof. reflexivity. Qed.

Example clean_block_comment :
  clean ("a/*" ++ [nl; nl] ++ "*/b") = Some ("a" ++ [nl; nl] ++ "b").
Proof. reflexivity. Qed.

Example clean_if_defined :
  clean (src ["#if defined(FOO)"]) = Some (src ["#ifdef FOO"]).
Proof. reflexivity. Qed.

Example clean_continuation :
  clean ("#define A(x) " ++ [bslash; nl] ++ " x" ++ [nl] ++ "int b;" ++ [nl])
  = Some (src ["#define A(x) x"; EmptyString; "int b;"]).
Proof. reflexivity. Qed.

Example getcfgs_nested :
  getcfgs (src ["#ifdef A"; "x"; "#endif"; "#ifdef B"; "#ifdef C"; "y"; "#endif"; "#endif"])
  = Some [ [] ; "A" : text; "B" : text; "B;C" : text ].
Proof. reflexivity. Qed.

Example getcfgs_else :
  getcfgs (src ["#ifdef A"; "x"; "#else"; "y"; "#endif"]) = Some [ [] ; "A" : text ].
Proof. reflexivity. Qed.

Example getcode_else :
  getcode (src ["#ifdef A"; "x"; "#else"; "y"; "#endif"]) []
  = Some (src [ EmptyString; EmptyString; EmptyString; "y"; EmptyString ]).
Proof. reflexivity. Qed.

Example match_cfg_def_examples :
  match_cfg_def "A;B;C" "B" = true /\ match_cfg_def "A;B" "C" = false
  /\ match_cfg_def [] "X" = false /\ match_cfg_def "A" "1" = true
  /\ match_cfg_def "A" "0" = false.
Proof. repeat split; reflexivity. Qed.

(** The function-like macro of the specification and the one of the
    test suite of the repository: both are used within the length of
    the macro text. *)
Example expandMacros_function_like :
  expandMacros spec_tokenizer 1 ("#define SQ(x) x*x" ++ [nl] ++ "SQ(3+1)")
  = Some ([nl] ++ "3+1*3+1")
  /\ expandMacros spec_tokenizer 1 (src ["#define AAA(aa) f(aa)"; "AAA(5);"])
     = Some (src [EmptyString; "f(5);"]).
Proof. split; reflexivity. Qed.

(** An object-like macro that is used within the length of the macro
    text is replaced together with the character after its name. *)
Example expandMacros_object_like_near :
  expandMacros spec_tokenizer 1 ("#define N 42" ++ [nl] ++ "N;") = Some ([nl] ++ "42").
Proof. reflexivity. Qed.

(** * Further properties of the code *)

Ltac decide_closed := match goal with |- ?P => apply (@bool_decide_unpack P _); vm_compute; exact I end.

(** ** The directive parser *)

Lemma getdef_keyword (kw e : text) (def : bool) :
  sp ∉ kw -> kw <> [] ->
  (if def then Str.starts (kw ++ sp :: e) "#ifdef " || Str.starts (kw ++ sp :: e) "#if "
               || Str.starts (kw ++ sp :: e) "#elif "
   else Str.starts (kw ++ sp :: e) "#ifndef ") = true ->
  getdef (kw ++ sp :: e) def = filter (fun c => c <> sp) e.
Proof.
  intros Hkw Hne Hs. unfold getdef.
  assert (Hf : Str.find (kw ++ sp :: e) " " 0 = Some (length kw)).
  { unfold Str.find. simpl. rewrite drop_0.
    change (list_ascii_of_string " ") with [sp]. rewrite find0_char by done.
    simpl. f_equal. }
  rewrite Hf.
  assert (He : filter (fun c => c <> sp) (Str.erase (kw ++ sp :: e) 0 (Some (length kw)))
               = filter (fun c => c <> sp) e).
  { unfold Str.erase. simpl. rewrite drop_app_length. simpl.
    rewrite filter_cons_False; [done|]. by intros H; apply H. }
  rewrite He.
  destruct def; simpl in *.
  - apply orb_true_iff in Hs as [Hs|Hs]; [apply orb_true_iff in Hs as [Hs|Hs]|];
      rewrite Hs; simpl; try done.
    + by rewrite andb_false_r.
    + by rewrite !andb_false_r.
  - by rewrite Hs.
Qed.

Lemma getdef_no_space line def : sp ∉ getdef line def.
Proof.
  unfold getdef.
  repeat match goal with |- context [if ?b then _ else _] => destruct b end;
    try apply not_elem_of_nil.
  all: intros [H _]%list_elem_of_filter; by apply H.
Qed.

Lemma getdef_shape line def :
  getdef line def <> [] ->
  exists e, if def then line = "#ifdef " ++ e \/ line = "#if " ++ e \/ line = "#elif " ++ e
            else line = "#ifndef " ++ e.
Proof.
  unfold getdef. destruct def; cbn [andb negb].
  - destruct (Str.starts line "#ifdef ") eqn:E1;
      [intros _; apply starts_spec in E1 as [r ->]; exists r; by left|].
    destruct (Str.starts line "#if ") eqn:E2;
      [intros _; apply starts_spec in E2 as [r ->]; exists r; right; by left|].
    destruct (Str.starts line "#elif ") eqn:E3;
      [intros _; apply starts_spec in E3 as [r ->]; exists r; right; by right|].
    cbn [andb negb]. by intros [].
  - destruct (Str.starts line "#ifndef ") eqn:E1;
      [intros _; apply starts_spec in E1 as [r ->]; by exists r|].
    cbn [andb negb]. by intros [].
Qed.

Lemma getdef_needs_if line def :
  Str.starts line "#if" = false -> Str.starts line "#elif " = false -> getdef line def = [].
Proof.
  intros H1 H2. destruct (getdef line def) as [|c d] eqn:E; [done|]. exfalso.
  destruct (getdef_shape line def) as [e He]; [by rewrite E|].
  rewrite !starts_prefixb in *.
  destruct def; [destruct He as [-> | [-> | ->] ] | subst]; done.
Qed.

Lemma starts_hash line :
  Str.starts line "#" = negb (empty line) && bool_decide (Str.at_ line 0 = hash).
Proof.
  rewrite starts_prefixb. destruct line as [|c line]; [done|].
  change (Str.prefixb "#" (c :: line)) with (Ascii.eqb "#" c && true).
  rewrite andb_true_r. unfold Str.at_. cbn [nth empty negb andb].
  destruct (Ascii.eqb_spec "#" c) as [<-|Hc]; symmetry.
  - by apply bool_decide_eq_true.
  - apply bool_decide_eq_false. by intros ->.
Qed.

Lemma starts_trans line p q :
  Str.starts line p = false -> Str.prefixb p q = true -> Str.starts line q = false.
Proof.
  intros H [r ->]%prefixb_spec. destruct (Str.starts line (p ++ r)) eqn:E; [|done].
  apply starts_spec in E as [r' ->]. rewrite <- H. symmetry. apply starts_spec.
  exists (r ++ r'). by rewrite app_assoc.
Qed.

(** X1: [getdef] returns what follows the keyword of a guard line, with
    every space removed: for [#ifdef], [#if] and [#elif] when asked for
    a positive guard, for [#ifndef] when asked for a negative one, and
    nothing when the line is of the other kind. *)
Theorem getdef_directive_argument (e : text) :
  getdef ("#ifdef " ++ e) true = filter (fun c => c <> sp) e
  /\ getdef ("#if " ++ e) true = filter (fun c => c <> sp) e
  /\ getdef ("#elif " ++ e) true = filter (fun c => c <> sp) e
  /\ getdef ("#ifndef " ++ e) false = filter (fun c => c <> sp) e
  /\ getdef ("#ifndef " ++ e) true = []
  /\ getdef ("#ifdef " ++ e) false = [].
Proof.
  split; [|split; [|split; [|split; [|split]]]].
  - apply (getdef_keyword "#ifdef" e true); [decide_closed|done|].
    rewrite !starts_prefixb. reflexivity.
  - apply (getdef_keyword "#if" e true); [decide_closed|done|].
    rewrite !starts_prefixb. reflexivity.
  - apply (getdef_keyword "#elif" e true); [decide_closed|done|].
    rewrite !starts_prefixb. reflexivity.
  - apply (getdef_keyword "#ifndef" e false); [decide_closed|done|].
    rewrite !starts_prefixb. reflexivity.
  - unfold getdef. rewrite !starts_prefixb. reflexivity.
  - unfold getdef. rewrite !starts_prefixb. reflexivity.
Qed.

(** X2: the result of [getdef] holds no space; it is empty unless the
    line starts with one of the keywords the call asks for, followed by
    a space; and no line has both a positive and a negative guard. *)
Theorem getdef_only_on_directives (line : text) (def : bool) :
  (sp ∉ getdef line def)
  /\ (getdef line def <> [] ->
      exists e, if def then line = "#ifdef " ++ e \/ line = "#if " ++ e \/ line = "#elif " ++ e
                else line = "#ifndef " ++ e)
  /\ (getdef line true = [] \/ getdef line false = []).
Proof.
  split; [|split].
  - unfold getdef.
    repeat match goal with |- context [if ?b then _ else _] => destruct b end;
      try apply not_elem_of_nil.
    all: intros [H _]%list_elem_of_filter; by apply H.
  - unfold getdef. destruct def; cbn [andb negb].
    + destruct (Str.starts line "#ifdef ") eqn:E1;
        [intros _; apply starts_spec in E1 as [r ->]; exists r; by left|].
      destruct (Str.starts line "#if ") eqn:E2;
        [intros _; apply starts_spec in E2 as [r ->]; exists r; right; by left|].
      destruct (Str.starts line "#elif ") eqn:E3;
        [intros _; apply starts_spec in E3 as [r ->]; exists r; right; by right|].
      cbn [andb negb]. by intros [].
    + destruct (Str.starts line "#ifndef ") eqn:E1;
        [intros _; apply starts_spec in E1 as [r ->]; by exists r|].
      cbn [andb negb]. by intros [].
  - destruct (Str.starts line "#ifndef ") eqn:E1.
    + left. apply starts_spec in E1 as [r ->]. unfold getdef.
      rewrite !starts_prefixb. reflexivity.
    + right. unfold getdef. by rewrite E1.
Qed.

Lemma getdef_only_on_directives_witness :
  exists e : text, ("#ifdef A B" : text) = "#ifdef " ++ e \/ ("#ifdef A B" : text) = "#if " ++ e
                   \/ ("#ifdef A B" : text) = "#elif " ++ e.
Proof. by apply (proj1 (proj2 (getdef_only_on_directives "#ifdef A B" true))). Defined.

(** ** The configuration matcher *)

Lemma find0_char_Some c s i :
  Str.find0 [c] s = Some i -> exists u w, s = u ++ c :: w /\ (c ∉ u) /\ length u = i.
Proof.
  intros H. destruct (find0_Some _ _ _ H) as (u & w & -> & Hl).
  exists u, w. split; [done|]. split; [|done].
  intros (u1 & u2 & ->)%list_elem_of_split.
  pose proof (find0_first [c] _ i u1 (u2 ++ [c] ++ w) H ltac:(by app_norm)) as Hle.
  rewrite length_app in Hl. simpl in Hl. lia.
Qed.

Lemma find0_char_None_inv c s : Str.find0 [c] s = None -> c ∉ s.
Proof.
  intros H (u & w & ->)%list_elem_of_split. by apply (find0_None _ _ u w H).
Qed.

Lemma find_char_0 s c : Str.find s [c] 0 = Str.find0 [c] s.
Proof. unfold Str.find. simpl. rewrite drop_0. by destruct (Str.find0 [c] s). Qed.

Lemma cfg_parts_single cfg : ";"%char ∉ cfg -> cfg <> [] -> cfg_parts cfg = [cfg].
Proof.
  induction cfg as [|c cfg IH]; [done|]. intros [Hc Hn]%not_elem_of_cons _. simpl.
  destruct (Ascii.eqb_spec c ";") as [->|_]; [done|].
  destruct cfg as [|d cfg]; [done|]. by rewrite IH.
Qed.

Lemma cfg_parts_cons u w : ";"%char ∉ u -> cfg_parts (u ++ ";"%char :: w) = u :: cfg_parts w.
Proof.
  induction u as [|c u IH]; [done|]. intros [Hc Hn]%not_elem_of_cons. simpl.
  destruct (Ascii.eqb_spec c ";") as [->|_]; [done|]. by rewrite IH.
Qed.

Lemma match_cfg_loop_parts def fuel : forall cfg,
  length cfg <= fuel -> match_cfg_loop fuel cfg def = bool_decide (def ∈ cfg_parts cfg).
Proof.
  induction fuel as [|fuel IH]; intros cfg Hl.
  - destruct cfg; [|simpl in Hl; lia]. done.
  - simpl. destruct (empty cfg) eqn:Ee; [by destruct cfg|].
    assert (Hne : cfg <> []) by (by destruct cfg). clear Ee.
    change (list_ascii_of_string ";") with [";"%char]. rewrite find_char_0.
    destruct (Str.find0 [";"%char] cfg) as [i|] eqn:Ef.
    + apply find0_char_Some in Ef as (u & w & -> & Hu & <-).
      unfold Str.substr, Str.erase. rewrite drop_0, take_app_length.
      assert (Hd : drop (length u + 1) (u ++ ";"%char :: w) = w).
      { replace (length u + 1) with (length (u ++ [";"%char]))
          by (rewrite length_app; simpl; lia).
        replace (u ++ ";"%char :: w) with ((u ++ [";"%char]) ++ w) by (by app_norm).
        apply drop_app_length. }
      cbn [take app plus]. rewrite Hd, cfg_parts_cons by done.
      case_bool_decide as E1.
      * subst. symmetry. apply bool_decide_eq_true. apply list_elem_of_here.
      * rewrite IH by (rewrite length_app in Hl; simpl in Hl; lia).
        apply bool_decide_ext. rewrite elem_of_cons.
        split; [by right | by intros [->|?]].
    + apply find0_char_None_inv in Ef. rewrite cfg_parts_single by done.
      apply bool_decide_ext. rewrite list_elem_of_singleton. naive_solver.
Qed.

Lemma match_cfg_def_eq (cfg def : text) :
  def <> "0" -> def <> "1" ->
  match_cfg_def cfg def = bool_decide (def ∈ cfg_parts cfg).
Proof.
  intros H0 H1. unfold match_cfg_def.
  rewrite !bool_decide_eq_false_2 by done.
  destruct cfg as [|c cfg]; [done|]. cbn [empty].
  by apply match_cfg_loop_parts.
Qed.

Lemma cfg_parts_nil_inv cfg : cfg_parts cfg = [] -> cfg = [].
Proof.
  destruct cfg as [|c cfg]; [done|]. simpl.
  destruct (Ascii.eqb c ";"); [done|]. by destruct (cfg_parts cfg).
Qed.

Lemma cfg_parts_app a b :
  a <> [] -> last a <> Some ";"%char ->
  cfg_parts (a ++ ";"%char :: b) = cfg_parts a ++ cfg_parts b.
Proof.
  induction a as [|c a IH]; [done|]. intros _ Hl.
  destruct a as [|d a].
  - simpl in *. destruct (Ascii.eqb_spec c ";") as [->|_]; [done|].
    by destruct (Ascii.eqb_spec ";" ";").
  - specialize (IH ltac:(done) Hl). cbn [app] in *.
    change (cfg_parts (c :: d :: a ++ ";"%char :: b))
      with (if Ascii.eqb c ";" then [] :: cfg_parts (d :: a ++ ";"%char :: b)
            else match cfg_parts (d :: a ++ ";"%char :: b) with
                 | [] => [[c]] | p :: ps => (c :: p) :: ps end).
    change (cfg_parts (c :: d :: a))
      with (if Ascii.eqb c ";" then [] :: cfg_parts (d :: a)
            else match cfg_parts (d :: a) with
                 | [] => [[c]] | p :: ps => (c :: p) :: ps end).
    rewrite IH. destruct (Ascii.eqb c ";"); [done|].
    destruct (cfg_parts (d :: a)) as [|p ps] eqn:E; [|done].
    by apply cfg_parts_nil_inv in E.
Qed.

Lemma join_defs_parts deflist : forall def,
  ("0" : text) ∉ deflist ->
  Forall (fun d : text => d <> [] /\ ";"%char ∉ d) deflist ->
  def = [] \/ last def <> Some ";"%char ->
  cfg_parts (join_defs def deflist)
  = cfg_parts def ++ filter (fun d : text => d <> "1") deflist.
Proof.
  induction deflist as [|it rest IH]; intros def H0 Hf Hd; simpl.
  - by rewrite app_nil_r.
  - apply not_elem_of_cons in H0 as [Hit0 H0]. apply Forall_cons in Hf as [[Hne Hs] Hf].
    rewrite bool_decide_eq_false_2 by done. case_bool_decide as E1.
    + rewrite filter_cons_False by (by intros H; apply H). by apply IH.
    + rewrite filter_cons_True by done.
      assert (Hl : last it <> Some ";"%char).
      { intros Hl. apply Hs. destruct it as [|x it] using rev_ind; [done|].
        rewrite last_snoc in Hl. injection Hl as ->.
        apply elem_of_app. right. apply list_elem_of_here. }
      rewrite IH; [|done|done|].
      * destruct (empty def) eqn:Ee.
        { destruct def; [|done]. by rewrite cfg_parts_single. }
        destruct Hd as [->|Hd]; [done|].
        change (list_ascii_of_string ";") with [";"%char].
        rewrite <- app_assoc. cbn [app].
        rewrite cfg_parts_app; [|by intros ->|done].
        rewrite (cfg_parts_single it) by done.
        by rewrite <- app_assoc.
      * right. destruct it as [|x it] using rev_ind; [done|].
        rewrite app_assoc, !last_snoc in *. done.
Qed.

(** X3: for a guard other than "0" and "1", [match_cfg_def] holds
    exactly when the guard is one of the parts of the configuration that
    its ';' separate; a ';' at the end adds no empty part. *)
Theorem match_cfg_def_parts (cfg def : text) :
  def <> "0" -> def <> "1" ->
  match_cfg_def cfg def = bool_decide (def ∈ cfg_parts cfg).
Proof.
  intros H0 H1. unfold match_cfg_def.
  rewrite !bool_decide_eq_false_2 by done.
  destruct cfg as [|c cfg]; [done|]. cbn [empty].
  by apply match_cfg_loop_parts.
Qed.

Lemma match_cfg_def_parts_witness :
  match_cfg_def "A;B" "B" = bool_decide (("B" : text) ∈ cfg_parts "A;B").
Proof. by apply match_cfg_def_parts. Defined.

(** X4: the configuration that the enumerator composes from a stack of
    guards, none of them "0", each non-empty and without ';', enables
    exactly the guards of that stack in the matcher of the selector. *)
Theorem join_defs_enables_its_guards (deflist : list text) (d : text) :
  ("0" : text) ∉ deflist ->
  Forall (fun d : text => d <> [] /\ ";"%char ∉ d) deflist ->
  d <> "0" -> d <> "1" ->
  match_cfg_def (join_defs [] deflist) d = true <-> d ∈ deflist.
Proof.
  intros H0 Hf Hd0 Hd1. rewrite match_cfg_def_eq by done.
  rewrite join_defs_parts by (done || by left). cbn [cfg_parts app].
  rewrite bool_decide_eq_true, list_elem_of_filter. split; [by intros [_ ?] | done].
Qed.

Lemma join_defs_enables_its_guards_witness :
  match_cfg_def (join_defs [] ["A" : text; "1" : text; "B" : text]) "B" = true.
Proof.
  apply (join_defs_enables_its_guards ["A" : text; "1" : text; "B" : text] "B");
    [decide_closed | | done | done | decide_closed].
  repeat constructor; first [done | decide_closed].
Defined.

(** ** The configuration enumerator *)

Lemma join_defs_no_space deflist : forall def,
  sp ∉ def -> Forall (fun d => sp ∉ d) deflist -> sp ∉ join_defs def deflist.
Proof.
  induction deflist as [|it rest IH]; intros def Hd Hl; simpl; [done|].
  apply Forall_cons in Hl as [Hit Hl].
  repeat case_bool_decide; [done | by apply IH |].
  apply IH; [|done]. destruct (empty def).
  - by rewrite not_elem_of_app.
  - rewrite !not_elem_of_app. repeat split; [done| |done]. decide_closed.
Qed.

Lemma Forall_removelast {A} (P : A -> Prop) (l : list A) :
  Forall P l -> Forall P (removelast l).
Proof.
  induction 1 as [|x l Hx Hl IH]; [constructor|].
  destruct l; [constructor|]. simpl in *. by constructor.
Qed.

Lemma getcfgs_on_def_inv line ret deflist ret' deflist' :
  getcfgs_on_def line ret deflist = Some (ret', deflist') ->
  cfgs_inv (CfgsState ret deflist) -> cfgs_inv (CfgsState ret' deflist').
Proof.
  unfold getcfgs_on_def, cfgs_inv. cbn [cs_ret cs_deflist]. intros H (Hn & Hr & Hd).
  destruct (empty (getdef line true ++ getdef line false)); cbn [negb] in H;
    [by simplify_eq|].
  assert (Hdl : exists dl, (if negb (empty deflist) && Str.starts line "#elif "
                            then pop_back deflist else Some deflist) = Some dl
                           /\ Forall (fun def => sp ∉ def) dl).
  { destruct (negb (empty deflist) && Str.starts line "#elif ") eqn:E; [|eauto].
    apply andb_true_iff in E as [E _]. apply negb_true_iff in E.
    rewrite (pop_back_nonempty _ E). eexists; split; [done|]. by apply Forall_removelast. }
  destruct Hdl as (dl & Hdl & Hf). rewrite Hdl in H. simpl in H.
  assert (Hf' : Forall (fun def => sp ∉ def)
                  (push_back dl (getdef line true ++ getdef line false))).
  { apply Forall_app. split; [done|]. constructor; [|constructor].
    rewrite not_elem_of_app. split; apply getdef_no_space. }
  injection H as <- <-. split; [|split]; [| |done].
  - case_bool_decide as E; [done|]. unfold push_back.
    apply NoDup_app. split; [done|]. split; [|apply NoDup_singleton].
    intros x Hx ->%list_elem_of_singleton. by apply E.
  - case_bool_decide as E; [done|]. apply Forall_app. split; [done|].
    constructor; [|constructor]. apply join_defs_no_space; [apply not_elem_of_nil | done].
Qed.

Lemma getcfgs_on_else_inv line deflist deflist' :
  getcfgs_on_else line deflist = Some deflist' ->
  Forall (fun def => sp ∉ def) deflist -> Forall (fun def => sp ∉ def) deflist'.
Proof.
  unfold getcfgs_on_else. intros H Hd.
  destruct (Str.starts line "#else" && negb (empty deflist)) eqn:E; [|by simplify_eq].
  apply andb_true_iff in E as [_ E]. apply negb_true_iff in E.
  destruct (back_nonempty _ E) as [top Ht]. rewrite Ht in H. simpl in H.
  rewrite (pop_back_nonempty _ E) in H. simpl in H. injection H as <-.
  apply Forall_app. split; [by apply Forall_removelast|].
  constructor; [|constructor]. case_bool_decide; decide_closed.
Qed.

Lemma getcfgs_on_endif_inv line deflist deflist' :
  getcfgs_on_endif line deflist = Some deflist' ->
  Forall (fun def => sp ∉ def) deflist -> Forall (fun def => sp ∉ def) deflist'.
Proof.
  unfold getcfgs_on_endif. intros H Hd.
  destruct (Str.starts line "#endif" && negb (empty deflist)) eqn:E; [|by simplify_eq].
  apply andb_true_iff in E as [_ E]. apply negb_true_iff in E.
  rewrite (pop_back_nonempty _ E) in H. injection H as <-. by apply Forall_removelast.
Qed.

Lemma getcfgs_line_inv line st st' :
  getcfgs_line line st = Some st' -> cfgs_inv st -> cfgs_inv st'.
Proof.
  unfold getcfgs_line. intros H Hi.
  destruct (getcfgs_on_def line (cs_ret st) (cs_deflist st)) as [[ret dl]|] eqn:E1; [|done].
  simpl in H.
  destruct (getcfgs_on_else line dl) as [dl2|] eqn:E2; [|done]. simpl in H.
  destruct (getcfgs_on_endif line dl2) as [dl3|] eqn:E3; [|done]. simpl in H.
  injection H as <-.
  destruct st as [ret0 dl0]. apply (getcfgs_on_def_inv _ _ _ _ _ E1) in Hi.
  destruct Hi as (Hn & Hr & Hd). split; [done|]. split; [done|]. simpl in *.
  eapply getcfgs_on_endif_inv; [done|]. by eapply getcfgs_on_else_inv.
Qed.

Lemma getcfgs_loop_inv lines : forall st st',
  getcfgs_loop lines st = Some st' -> cfgs_inv st -> cfgs_inv st'.
Proof.
  induction lines as [|line lines IH]; intros st st' H Hi; simpl in H; [by simplify_eq|].
  destruct (getcfgs_line line st) as [st1|] eqn:E; [|done]. simpl in H.
  apply (IH _ _ H). by apply (getcfgs_line_inv _ _ _ E).
Qed.

Lemma cfgs_inv_init : cfgs_inv (CfgsState [[]] []).
Proof.
  split; [apply NoDup_singleton|]. split; [|constructor].
  constructor; [apply not_elem_of_nil | constructor].
Qed.

Lemma getcfgs_line_no_guard line st :
  getdef line true = [] -> getdef line false = [] ->
  exists st', getcfgs_line line st = Some st' /\ cs_ret st' = cs_ret st.
Proof.
  intros H1 H2. unfold getcfgs_line, getcfgs_on_def. rewrite H1, H2. simpl.
  destruct (getcfgs_on_else_total line (cs_deflist st)) as (dl' & ->). simpl.
  destruct (getcfgs_on_endif_total line dl') as (dl'' & ->). simpl. eauto.
Qed.

(** X5: [getcfgs] returns for every text, and lists no configuration twice. *)
Theorem getcfgs_no_duplicates (filedata : text) :
  exists ret, getcfgs filedata = Some ret /\ NoDup ret.
Proof.
  unfold getcfgs.
  destruct (getcfgs_loop_total (getlines filedata) (CfgsState [[]] []) [] eq_refl)
    as (st' & rest & H & _).
  rewrite H. simpl. eexists; split; [done|].
  by destruct (getcfgs_loop_inv _ _ _ H cfgs_inv_init).
Qed.

(** X6: a text none of whose lines starts with [#if] or [#elif ] has the
    empty configuration and no other. *)
Theorem getcfgs_without_conditionals (filedata : text) :
  Forall (fun line => Str.starts line "#if" = false /\ Str.starts line "#elif " = false)
    (getlines filedata) ->
  getcfgs filedata = Some [[]].
Proof.
  unfold getcfgs. generalize (getlines filedata). intros lines Hl.
  assert (H : forall st, exists st', getcfgs_loop lines st = Some st' /\ cs_ret st' = cs_ret st).
  { induction Hl as [|line lines [H1 H2] _ IH]; intros st; simpl; [eauto|].
    destruct (getcfgs_line_no_guard line st) as (st1 & -> & Hr);
      [by apply getdef_needs_if..|]. simpl.
    destruct (IH st1) as (st' & -> & Hr'). exists st'. split; [done|]. congruence. }
  destruct (H (CfgsState [[]] [])) as (st' & -> & Hr). simpl. by rewrite Hr.
Qed.

Lemma getcfgs_without_conditionals_witness :
  getcfgs (src ["#include <a.h>"; "int x;"; "#endif"]) = Some [[]].
Proof.
  apply getcfgs_without_conditionals.
  repeat constructor.
Defined.

(** X7: no configuration that [getcfgs] returns holds a space. *)
Theorem getcfgs_configurations_without_spaces (filedata : text) :
  exists ret, getcfgs filedata = Some ret /\ Forall (fun cfg => sp ∉ cfg) ret.
Proof.
  unfold getcfgs.
  destruct (getcfgs_loop_total (getlines filedata) (CfgsState [[]] []) [] eq_refl)
    as (st' & rest & H & _).
  rewrite H. simpl. eexists; split; [done|].
  by destruct (getcfgs_loop_inv _ _ _ H cfgs_inv_init) as (_ & ? & _).
Qed.

Lemma getcfgs_line_plain line st :
  Str.starts line "#" = false -> getcfgs_line line st = Some st.
Proof.
  intros H.
  assert (Hif : Str.starts line "#if" = false) by (by apply (starts_trans line "#")).
  assert (Helif : Str.starts line "#elif " = false) by (by apply (starts_trans line "#")).
  assert (Helse : Str.starts line "#else" = false) by (by apply (starts_trans line "#")).
  assert (Hendif : Str.starts line "#endif" = false) by (by apply (starts_trans line "#")).
  unfold getcfgs_line, getcfgs_on_def, getcfgs_on_else, getcfgs_on_endif.
  rewrite !(getdef_needs_if line), Helse, Hendif by done. by destruct st.
Qed.

Lemma getcfgs_loop_plain lines : forall st,
  Forall code_line lines -> getcfgs_loop lines st = Some st.
Proof.
  induction lines as [|line lines IH]; intros st Hl; [done|].
  apply Forall_cons in Hl as [[_ Hp] Hl]. cbn [getcfgs_loop].
  rewrite getcfgs_line_plain by done. cbn [mbind option_bind]. by apply IH.
Qed.

Lemma getcfgs_loop_app l1 l2 st :
  getcfgs_loop (l1 ++ l2) st = getcfgs_loop l1 st ≫= getcfgs_loop l2.
Proof.
  revert st. induction l1 as [|line l1 IH]; intros st; [done|]. cbn [app getcfgs_loop].
  destruct (getcfgs_line line st) as [st'|]; [|done]. cbn [mbind option_bind]. apply IH.
Qed.


(** ** The configuration selector *)

Lemma getcode_line_plain cfg line st :
  Str.starts line "#" = false ->
  getcode_line cfg line st = Some (st, if gs_match st then line else []).
Proof.
  intros H.
  assert (Hif : Str.starts line "#if" = false) by (by apply (starts_trans line "#")).
  assert (Helif : Str.starts line "#elif " = false) by (by apply (starts_trans line "#")).
  unfold getcode_line, getcode_stacks.
  rewrite <- starts_hash, H, !(getdef_needs_if line), Helif by done.
  cbn [empty negb].
  rewrite !bool_decide_eq_false_2.
  2,3: intros ->; by rewrite starts_prefixb in H.
  cbn [mbind option_bind].
  destruct st as [m a b]. cbn [gs_match gs_matching gs_matched]. do 2 f_equal.
  unfold getcode_emit. destruct m; cbn [negb]; [|done].
  rewrite Hif, !(starts_trans line "#") by done. done.
Qed.

Lemma getcode_loop_run cfg lines : forall st,
  getcode_loop cfg lines st = snd <$> getcode_run cfg lines st.
Proof.
  induction lines as [|line lines IH]; intros st; simpl; [done|].
  destruct (getcode_line cfg line st) as [[st' out]|]; [|done]. simpl.
  rewrite IH. by destruct (getcode_run cfg lines st') as [[st2 outs]|].
Qed.

Lemma getcode_run_app cfg l1 l2 : forall st,
  getcode_run cfg (l1 ++ l2) st
  = '(st1, o1) ← getcode_run cfg l1 st;
    '(st2, o2) ← getcode_run cfg l2 st1;
    Some (st2, o1 ++ o2).
Proof.
  induction l1 as [|line l1 IH]; intros st; simpl.
  - by destruct (getcode_run cfg l2 st) as [[st2 o2]|].
  - destruct (getcode_line cfg line st) as [[st' out]|]; [|done]. simpl.
    rewrite IH. destruct (getcode_run cfg l1 st') as [[st1 o1]|]; [|done]. simpl.
    by destruct (getcode_run cfg l2 st1) as [[st2 o2]|].
Qed.

Lemma getcode_run_plain cfg lines : forall st,
  Forall code_line lines ->
  getcode_run cfg lines st = Some (st, if gs_match st then lines else blank lines).
Proof.
  induction lines as [|line lines IH]; intros st Hl; simpl.
  - by destruct (gs_match st).
  - apply Forall_cons in Hl as [[_ Hp] Hl]. rewrite getcode_line_plain by done. simpl.
    rewrite IH by done. simpl. by destruct (gs_match st).
Qed.

Lemma unlines_getlines s : unlines (getlines s) = s ++ (if open_line s then [nl] else []).
Proof.
  induction s as [|c s IH]; [done|]. simpl.
  destruct (eqb_nl_spec c) as [->|Hc].
  - change (unlines ([] :: getlines s)) with (nl :: unlines (getlines s)). rewrite IH.
    destruct s as [|d s]; [done|]. by rewrite (open_line_cons nl (d :: s)).
  - destruct (getlines s) as [|l ls] eqn:E.
    + apply getlines_nil_inv in E as ->. unfold open_line. simpl.
      by destruct (eqb_nl_spec c).
    + change (unlines ((c :: l) :: ls)) with (c :: unlines (l :: ls)). rewrite IH.
      rewrite (open_line_cons c s); [done|]. by intros ->.
Qed.

Lemma back_push_back {A} (l : list A) x : back (push_back l x) = Some x.
Proof. apply last_snoc. Qed.

Lemma getcode_emit_conditional m line : is_conditional line = true -> getcode_emit m line = [].
Proof. intros H. by apply getcode_emit_cases. Qed.

Lemma getcode_line_guard (neg : bool) cfg name st :
  let guard : text := (if neg then "#ifndef " else "#ifdef ") ++ name in
  let keep := xorb neg (match_cfg_def cfg (getdef guard (negb neg))) in
  getdef guard (negb neg) <> [] ->
  getcode_line cfg guard st
  = Some (CodeState (forallb (fun b => b) (gs_matching st ++ [keep]))
            (gs_matching st ++ [keep]) (gs_matched st ++ [keep]), []).
Proof.
  intros guard keep Hd. unfold getcode_line, getcode_stacks.
  assert (He : Str.starts guard "#elif " = false).
  { unfold guard. rewrite starts_prefixb. by destruct neg. }
  assert (Hh : negb (empty guard) && bool_decide (Str.at_ guard 0 = hash) = true).
  { rewrite <- starts_hash. unfold guard. rewrite starts_prefixb. by destruct neg. }
  assert (Hc : is_conditional guard = true).
  { unfold is_conditional, guard. rewrite !starts_prefixb. by destruct neg. }
  rewrite He, Hh. destruct neg; cbn [negb xorb] in *.
  - assert (Ht : getdef guard true = []).
    { unfold getdef, guard. rewrite !starts_prefixb. reflexivity. }
    rewrite Ht. cbn [empty negb]. destruct (getdef guard false) as [|c d] eqn:E; [done|].
    cbn [empty negb]. rewrite back_push_back. cbn [mbind option_bind].
    by rewrite getcode_emit_conditional.
  - destruct (getdef guard true) as [|c d] eqn:E; [done|].
    cbn [empty negb]. rewrite back_push_back. cbn [mbind option_bind].
    rewrite getcode_emit_conditional by done. unfold keep. by destruct (match_cfg_def _ _).
Qed.

Lemma getcode_stacks_depth cfg line matching matched :
  Str.starts line "#elif " = false -> length matching = length matched ->
  exists matching' matched',
    getcode_stacks cfg line matching matched = Some (matching', matched')
    /\ length matching' = length matched'
    /\ length matched'
       = if negb (empty (getdef line true)) || negb (empty (getdef line false))
         then S (length matched)
         else if bool_decide (line = "#endif") then length matched - 1
         else length matched.
Proof.
  intros He Hl. unfold getcode_stacks. rewrite He.
  destruct (empty (getdef line true)); cbn [negb orb].
  2:{ unfold back, push_back. rewrite last_snoc. simpl. eexists _, _. split; [done|].
      rewrite !length_app. simpl. lia. }
  destruct (empty (getdef line false)); cbn [negb].
  2:{ unfold back, push_back. rewrite last_snoc. simpl. eexists _, _. split; [done|].
      rewrite !length_app. simpl. lia. }
  case_bool_decide as E1.
  { rewrite bool_decide_eq_false_2 by (by rewrite E1).
    destruct (empty matched) eqn:Em; cbn [negb]; [eauto|].
    destruct (back_nonempty _ Em) as [m ->]. simpl.
    destruct (set_back_nonempty matching (negb m)) as [mg Hmg].
    { by rewrite (empty_length _ _ Hl). }
    rewrite Hmg. simpl. eexists _, _. split; [done|].
    apply length_set_back in Hmg. lia. }
  case_bool_decide as E2; [|eauto].
  destruct (empty matched) eqn:Em; rewrite (empty_length _ _ Hl), Em; cbn [negb].
  - simpl. eexists _, _. split; [done|]. split; [done|]. destruct matched; [done|done].
  - rewrite !pop_back_nonempty by (by rewrite ?(empty_length _ _ Hl)). simpl.
    eexists _, _. split; [done|]. rewrite !length_removelast. lia.
Qed.

Lemma getcode_stacks_elif cfg line matching matched :
  Str.starts line "#elif " = true -> length matching = length matched ->
  if empty matched then getcode_stacks cfg line matching matched = None
  else exists matching' matched',
         getcode_stacks cfg line matching matched = Some (matching', matched')
         /\ length matching' = length matched' /\ length matched' = length matched.
Proof.
  intros He Hl. unfold getcode_stacks. rewrite He.
  destruct (empty matched) eqn:Em.
  - by destruct matched.
  - destruct (back_nonempty _ Em) as [m ->]. cbn [mbind option_bind].
    assert (Hg : empty matching = false) by (by rewrite (empty_length _ _ Hl)).
    destruct (set_back_nonempty matching false Hg) as [mf Hmf].
    destruct (set_back_nonempty matching true Hg) as [mt Hmt].
    destruct (set_back_nonempty matched true Em) as [dt Hdt].
    rewrite Hmf, Hmt, Hdt. apply length_set_back in Hmf, Hmt, Hdt.
    destruct m; [|destruct (match_cfg_def cfg (getdef line true))];
      cbn [mbind option_bind]; eexists _, _; (split; [done|]); lia.
Qed.

Lemma getcode_run_safe cfg lines : forall st,
  length (gs_matching st) = length (gs_matched st) ->
  is_Some (getcode_run cfg lines st) <-> elif_guarded (length (gs_matched st)) lines = true.
Proof.
  induction lines as [|line lines IH]; intros st Hl; cbn [getcode_run elif_guarded].
  - split; [done | eauto].
  - unfold getcode_line. destruct (Str.starts line "#elif ") eqn:He.
    + pose proof (getcode_stacks_elif cfg line _ _ He Hl) as H.
      destruct (empty (gs_matched st)) eqn:Em.
      * rewrite H. destruct (gs_matched st); [|done]. simpl. split; [by intros [? ?]|done].
      * destruct H as (mg & md & -> & H1 & H2). cbn [mbind option_bind].
        assert (Hpos : (0 <? length (gs_matched st))%nat = true).
        { apply Nat.ltb_lt. destruct (gs_matched st); [done|simpl; lia]. }
        rewrite Hpos. cbn [andb]. rewrite <- H2.
        match goal with |- context [getcode_run cfg lines ?s] =>
          rewrite <- (IH s) by done; destruct (getcode_run cfg lines s) as [[? ?]|] end.
        all: cbn [mbind option_bind]; split; eauto; by intros [? ?].
    + destruct (getcode_stacks_depth cfg line _ _ He Hl) as (mg & md & -> & H1 & H2).
      cbn [mbind option_bind].
      match goal with |- context [getcode_run cfg lines ?s] =>
        match goal with |- _ <-> ?r = true =>
          assert (Hr : r = elif_guarded (length (gs_matched s)) lines) end end.
      { cbn [gs_matched]. rewrite H2.
        destruct (negb (empty (getdef line true)) || negb (empty (getdef line false)));
          [done|]. by destruct (bool_decide (line = "#endif")). }
      rewrite Hr.
      match goal with |- context [getcode_run cfg lines ?s] =>
        rewrite <- (IH s) by done; destruct (getcode_run cfg lines s) as [[? ?]|] end.
      all: cbn [mbind option_bind]; split; eauto; by intros [? ?].
Qed.

Lemma code_lines_no_nl ls : Forall code_line ls -> Forall (fun l => nl ∉ l) ls.
Proof. intros H. eapply Forall_impl; [exact H|]. by intros l [? _]. Qed.

Lemma block_lines_no_nl (neg : bool) (name : text) (pre body1 body2 post : list text) :
  nl ∉ name -> Forall code_line (pre ++ body1 ++ body2 ++ post) ->
  Forall (fun l => nl ∉ l)
    (pre ++ ((if neg then "#ifndef " else "#ifdef ") ++ name) :: body1
         ++ ("#else" : text) :: body2 ++ ("#endif" : text) :: post).
Proof.
  intros Hn Hl.
  apply Forall_app in Hl as [Hpre Hl]. apply Forall_app in Hl as [Hb1 Hl].
  apply Forall_app in Hl as [Hb2 Hpost].
  apply Forall_app. split; [by apply code_lines_no_nl|]. constructor.
  { rewrite not_elem_of_app. split; [|done]. destruct neg; decide_closed. }
  apply Forall_app. split; [by apply code_lines_no_nl|]. constructor; [decide_closed|].
  apply Forall_app. split; [by apply code_lines_no_nl|]. constructor; [decide_closed|].
  by apply code_lines_no_nl.
Qed.

Lemma getcode_run_block (neg : bool) (cfg name : text) (pre body1 body2 post : list text) :
  let guard : text := (if neg then "#ifndef " else "#ifdef ") ++ name in
  let keep := xorb neg (match_cfg_def cfg (getdef guard (negb neg))) in
  getdef guard (negb neg) <> [] ->
  Forall code_line (pre ++ body1 ++ body2 ++ post) ->
  getcode_run cfg (pre ++ guard :: body1 ++ ("#else" : text) :: body2
                       ++ ("#endif" : text) :: post) (CodeState true [] [])
  = Some (CodeState true [] [],
          pre ++ [] :: (if keep then body1 else blank body1)
              ++ [] :: (if keep then blank body2 else body2) ++ [] :: post).
Proof.
  intros guard keep Hd Hl.
  apply Forall_app in Hl as [Hpre Hl]. apply Forall_app in Hl as [Hb1 Hl].
  apply Forall_app in Hl as [Hb2 Hpost].
  rewrite getcode_run_app, getcode_run_plain by done.
  cbn [mbind option_bind gs_match getcode_run].
  rewrite (getcode_line_guard neg cfg name) by done. fold guard keep.
  cbn [mbind option_bind gs_matching gs_matched app forallb].
  rewrite getcode_run_app, getcode_run_plain by done.
  cbn [mbind option_bind gs_match getcode_run].
  assert (Helse : getcode_line cfg "#else" (CodeState (keep && true) [keep] [keep])
                  = Some (CodeState (negb keep) [negb keep] [keep], [])).
  { by destruct keep. }
  rewrite Helse. cbn [mbind option_bind].
  rewrite getcode_run_app, getcode_run_plain by done.
  cbn [mbind option_bind gs_match getcode_run].
  assert (Hendif : getcode_line cfg "#endif" (CodeState (negb keep) [negb keep] [keep])
                   = Some (CodeState true [] [], [])).
  { by destruct keep. }
  rewrite Hendif. cbn [mbind option_bind].
  rewrite getcode_run_plain by done. cbn [mbind option_bind gs_match].
  do 2 f_equal. destruct keep; reflexivity.
Qed.

(** X8: a text none of whose lines starts with '#' comes out of
    [getcode] as it is, whatever the configuration, but for the newline
    that closes an open last line. *)
Theorem getcode_keeps_plain_text (filedata cfg : text) :
  Forall (fun line => Str.starts line "#" = false) (getlines filedata) ->
  getcode filedata cfg = Some (filedata ++ (if open_line filedata then [nl] else [])).
Proof.
  intros H. unfold getcode, getcode_lines. rewrite getcode_loop_run, getcode_run_plain.
  - simpl. by rewrite unlines_getlines.
  - pose proof (getlines_no_nl filedata) as Hn.
    apply Forall_forall. intros l Hl. split.
    + by apply (proj1 (Forall_forall _ _) Hn).
    + by apply (proj1 (Forall_forall _ _) H).
Qed.

Lemma getcode_keeps_plain_text_witness :
  getcode (src ["int a;"; " #b"]) "X" = Some (src ["int a;"; " #b"]).
Proof. apply (getcode_keeps_plain_text (src ["int a;"; " #b"]) "X"). repeat constructor. Defined.

(** X9: of an [#ifdef] or [#ifndef] block with an [#else], between lines
    of code, [getcode] keeps the first branch when the guard holds in
    the configuration (for [#ifndef]: when it does not) and the second
    branch otherwise; the branch it drops and the three directive lines
    are written as empty lines. *)
Theorem getcode_selects_branch (neg : bool) (cfg name : text)
    (pre body1 body2 post : list text) :
  let guard : text := (if neg then "#ifndef " else "#ifdef ") ++ name in
  let def := getdef guard (negb neg) in
  let keep := xorb neg (match_cfg_def cfg def) in
  nl ∉ name -> def <> [] ->
  Forall code_line (pre ++ body1 ++ body2 ++ post) ->
  getcode (unlines (pre ++ guard :: body1 ++ ("#else" : text) :: body2
                        ++ ("#endif" : text) :: post)) cfg
  = Some (unlines (pre ++ [] :: (if keep then body1 else blank body1)
                       ++ [] :: (if keep then blank body2 else body2) ++ [] :: post)).
Proof.
  intros guard def keep Hn Hd Hl.
  unfold getcode, getcode_lines.
  rewrite getlines_unlines by (by apply block_lines_no_nl).
  rewrite getcode_loop_run.
  pose proof (getcode_run_block neg cfg name pre body1 body2 post Hd Hl) as Hrun.
  cbv zeta in Hrun. fold guard def keep in Hrun. by rewrite Hrun.
Qed.

Lemma getcode_selects_branch_witness :
  getcode (src ["int a;"; "#ifdef A"; "x"; "#else"; "y"; "#endif"; "z"]) "A"
  = Some (src ["int a;"; ""; "x"; ""; ""; ""; "z"]).
Proof.
  apply (getcode_selects_branch false "A" "A" ["int a;" : text] ["x" : text] ["y" : text]
           ["z" : text]); [decide_closed | done |].
  repeat constructor; decide_closed.
Defined.

(** X10: of an [#ifdef] block with an [#elif], [getcode] keeps the first
    branch when the first guard holds, the second branch when the first
    guard does not hold and the second does, and writes empty lines for
    the rest. *)
Theorem getcode_elif_chain (cfg name1 name2 : text) (pre body1 body2 post : list text) :
  let guard1 : text := "#ifdef " ++ name1 in
  let guard2 : text := "#elif " ++ name2 in
  let keep1 := match_cfg_def cfg (getdef guard1 true) in
  let keep2 := negb keep1 && match_cfg_def cfg (getdef guard2 true) in
  nl ∉ name1 -> nl ∉ name2 -> getdef guard1 true <> [] ->
  Forall code_line (pre ++ body1 ++ body2 ++ post) ->
  getcode (unlines (pre ++ guard1 :: body1 ++ guard2 :: body2 ++ ("#endif" : text) :: post)) cfg
  = Some (unlines (pre ++ [] :: (if keep1 then body1 else blank body1)
                       ++ [] :: (if keep2 then body2 else blank body2) ++ [] :: post)).
Proof.
  intros guard1 guard2 keep1 keep2 Hn1 Hn2 Hd Hl.
  apply Forall_app in Hl as [Hpre Hl]. apply Forall_app in Hl as [Hb1 Hl].
  apply Forall_app in Hl as [Hb2 Hpost].
  assert (Hnl : forall ls, Forall code_line ls -> Forall (fun l => nl ∉ l) ls).
  { intros ls H. eapply Forall_impl; [exact H|]. by intros l [? _]. }
  unfold getcode, getcode_lines. rewrite getlines_unlines.
  2:{ apply Forall_app. split; [by apply Hnl|]. constructor.
      { unfold guard1. rewrite not_elem_of_app. split; [decide_closed|done]. }
      apply Forall_app. split; [by apply Hnl|]. constructor.
      { unfold guard2. rewrite not_elem_of_app. split; [decide_closed|done]. }
      apply Forall_app. split; [by apply Hnl|]. constructor; [decide_closed|]. by apply Hnl. }
  rewrite getcode_loop_run, getcode_run_app, getcode_run_plain by done.
  cbn [mbind option_bind gs_match getcode_run].
  rewrite (getcode_line_guard false cfg name1) by done. fold guard1.
  cbn [negb xorb]. fold keep1.
  cbn [mbind option_bind gs_matching gs_matched app forallb].
  rewrite getcode_run_app, getcode_run_plain by done.
  cbn [mbind option_bind gs_match getcode_run].
  assert (Helif : getcode_line cfg guard2 (CodeState (keep1 && true) [keep1] [keep1])
                  = Some (CodeState keep2 [keep2]
                            [keep1 || match_cfg_def cfg (getdef guard2 true)], [])).
  { unfold getcode_line, getcode_stacks.
    assert (He : Str.starts guard2 "#elif " = true).
    { unfold guard2. rewrite starts_prefixb. reflexivity. }
    assert (Hh : negb (empty guard2) && bool_decide (Str.at_ guard2 0 = hash) = true).
    { rewrite <- starts_hash. unfold guard2. rewrite starts_prefixb. reflexivity. }
    assert (Hc : is_conditional guard2 = true).
    { unfold is_conditional, guard2. rewrite !starts_prefixb. reflexivity. }
    rewrite He, Hh. unfold keep2. cbn [gs_matching gs_matched].
    destruct keep1, (match_cfg_def cfg (getdef guard2 true)); cbn;
      by rewrite getcode_emit_conditional. }
  rewrite Helif. cbn [mbind option_bind].
  rewrite getcode_run_app, getcode_run_plain by done.
  cbn [mbind option_bind gs_match getcode_run].
  assert (Hendif : forall b m1 m2, getcode_line cfg "#endif" (CodeState b [m1] [m2])
                   = Some (CodeState true [] [], [])).
  { by intros [] [] []. }
  rewrite Hendif. cbn [mbind option_bind].
  rewrite getcode_run_plain by done.
  cbn [mbind option_bind gs_match fmap option_fmap option_map snd].
  do 2 f_equal. destruct keep1; reflexivity.
Qed.

Lemma getcode_elif_chain_witness :
  getcode (src ["#ifdef A"; "x"; "#elif B"; "y"; "#endif"; "z"]) "B"
  = Some (src [""; ""; ""; "y"; ""; "z"]).
Proof.
  apply (getcode_elif_chain "B" "A" "B" [] ["x" : text] ["y" : text] ["z" : text]);
    [decide_closed | decide_closed | done |].
  repeat constructor; decide_closed.
Defined.

(** X11: of an [#ifdef] block nested in another, [getcode] keeps the
    lines of the outer block when the outer guard holds in the
    configuration, and the lines of the inner block when both guards
    hold; the lines it drops and the directive lines are written as
    empty lines. *)
Theorem getcode_nested_blocks (cfg name1 name2 : text)
    (pre body1 body2 body3 post : list text) :
  let guard1 : text := "#ifdef " ++ name1 in
  let guard2 : text := "#ifdef " ++ name2 in
  let keep1 := match_cfg_def cfg (getdef guard1 true) in
  let keep2 := match_cfg_def cfg (getdef guard2 true) in
  nl ∉ name1 -> nl ∉ name2 -> getdef guard1 true <> [] -> getdef guard2 true <> [] ->
  Forall code_line (pre ++ body1 ++ body2 ++ body3 ++ post) ->
  getcode (unlines (pre ++ guard1 :: body1 ++ guard2 :: body2 ++ ("#endif" : text) :: body3
                        ++ ("#endif" : text) :: post)) cfg
  = Some (unlines (pre ++ [] :: (if keep1 then body1 else blank body1)
                       ++ [] :: (if keep1 && keep2 then body2 else blank body2)
                       ++ [] :: (if keep1 then body3 else blank body3) ++ [] :: post)).
Proof.
  intros guard1 guard2 keep1 keep2 Hn1 Hn2 Hd1 Hd2 Hl.
  apply Forall_app in Hl as [Hpre Hl]. apply Forall_app in Hl as [Hb1 Hl].
  apply Forall_app in Hl as [Hb2 Hl]. apply Forall_app in Hl as [Hb3 Hpost].
  unfold getcode, getcode_lines. rewrite getlines_unlines.
  2:{ apply Forall_app. split; [by apply code_lines_no_nl|]. constructor.
      { unfold guard1. rewrite not_elem_of_app. split; [decide_closed|done]. }
      apply Forall_app. split; [by apply code_lines_no_nl|]. constructor.
      { unfold guard2. rewrite not_elem_of_app. split; [decide_closed|done]. }
      apply Forall_app. split; [by apply code_lines_no_nl|]. constructor; [decide_closed|].
      apply Forall_app. split; [by apply code_lines_no_nl|]. constructor; [decide_closed|].
      by apply code_lines_no_nl. }
  rewrite getcode_loop_run, getcode_run_app, getcode_run_plain by done.
  cbn [mbind option_bind gs_match getcode_run].
  rewrite (getcode_line_guard false cfg name1) by done. fold guard1.
  cbn [negb xorb]. fold keep1.
  cbn [mbind option_bind gs_matching gs_matched app forallb].
  rewrite getcode_run_app, getcode_run_plain by done.
  cbn [mbind option_bind gs_match getcode_run].
  rewrite (getcode_line_guard false cfg name2) by done. fold guard2.
  cbn [negb xorb]. fold keep2.
  cbn [mbind option_bind gs_matching gs_matched app forallb].
  rewrite getcode_run_app, getcode_run_plain by done.
  cbn [mbind option_bind gs_match getcode_run].
  assert (Hendif2 : forall b, getcode_line cfg "#endif" (CodeState b [keep1; keep2] [keep1; keep2])
                    = Some (CodeState (keep1 && true) [keep1] [keep1], [])).
  { intros b. by destruct b, keep1, keep2. }
  rewrite Hendif2. cbn [mbind option_bind].
  rewrite getcode_run_app, getcode_run_plain by done.
  cbn [mbind option_bind gs_match getcode_run].
  assert (Hendif1 : forall b, getcode_line cfg "#endif" (CodeState b [keep1] [keep1])
                    = Some (CodeState true [] [], [])).
  { intros b. by destruct b, keep1. }
  rewrite Hendif1. cbn [mbind option_bind].
  rewrite getcode_run_plain by done.
  cbn [mbind option_bind gs_match fmap option_fmap option_map snd].
  do 2 f_equal. destruct keep1, keep2; reflexivity.
Qed.

Lemma getcode_nested_blocks_witness :
  getcode (src ["#ifdef A"; "x"; "#ifdef B"; "y"; "#endif"; "z"; "#endif"; "w"]) "A"
  = Some (src [""; "x"; ""; ""; ""; "z"; ""; "w"]).
Proof.
  apply (getcode_nested_blocks "A" "A" "B" [] ["x" : text] ["y" : text] ["z" : text]
           ["w" : text]); [decide_closed | decide_closed | done | done |].
  repeat constructor; decide_closed.
Defined.

(** X12: [getcode] reads the back of an empty stack, and so has no
    result, exactly when a line that starts with [#elif ] stands outside
    every conditional that a guard line opened and [#endif] has not closed. *)
Theorem getcode_defined_iff_elif_guarded (filedata cfg : text) :
  is_Some (getcode filedata cfg) <-> elif_guarded 0 (getlines filedata) = true.
Proof.
  unfold getcode, getcode_lines. rewrite getcode_loop_run.
  rewrite <- (getcode_run_safe cfg (getlines filedata) (CodeState true [] [])) by done.
  destruct (getcode_run cfg (getlines filedata) (CodeState true [] [])) as [[? ?]|]; simpl.
  - split; eauto.
  - split; by intros [? ?].
Qed.

Lemma getcode_defined_iff_elif_guarded_witness :
  is_Some (getcode (src ["#ifdef A"; "#elif B"; "#endif"]) "B")
  /\ getcode (src ["#endif"; "#elif B"]) "B" = None.
Proof.
  split.
  - by apply (proj2 (getcode_defined_iff_elif_guarded
                       (src ["#ifdef A"; "#elif B"; "#endif"]) "B")).
  - apply eq_None_not_Some. intros H.
    by apply (proj1 (getcode_defined_iff_elif_guarded (src ["#endif"; "#elif B"]) "B")) in H.
Defined.

(** X13: the enumerator and the selector agree on a block with an
    [#else] between lines of code: [getcfgs] returns the empty
    configuration and the guard (non-empty, without ';', neither "0" nor
    "1"), and [getcode] keeps one branch for each of the two: for
    [#ifdef] the second branch in the empty configuration and the first
    in the guard's, for [#ifndef] the other way round. *)
Theorem single_guard_configurations (neg : bool) (name : text)
    (pre body1 body2 post : list text) :
  let guard : text := (if neg then "#ifndef " else "#ifdef ") ++ name in
  let def := getdef guard (negb neg) in
  let data := unlines (pre ++ guard :: body1 ++ ("#else" : text) :: body2
                           ++ ("#endif" : text) :: post) in
  let first := unlines (pre ++ [] :: body1 ++ [] :: blank body2 ++ [] :: post) in
  let second := unlines (pre ++ [] :: blank body1 ++ [] :: body2 ++ [] :: post) in
  nl ∉ name -> def <> [] -> def <> "0" -> def <> "1" -> ";"%char ∉ def ->
  Forall code_line (pre ++ body1 ++ body2 ++ post) ->
  getcfgs data = Some [[]; def]
  /\ getcode data [] = Some (if neg then first else second)
  /\ getcode data def = Some (if neg then second else first).
Proof.
  intros guard def data first second Hn Hd H0 H1 Hs Hl.
  pose proof (block_lines_no_nl neg name pre body1 body2 post Hn Hl) as Hnl.
  split; [|split].
  - apply Forall_app in Hl as [Hpre Hl]. apply Forall_app in Hl as [Hb1 Hl].
    apply Forall_app in Hl as [Hb2 Hpost].
    unfold getcfgs, data. rewrite getlines_unlines by done.
    rewrite getcfgs_loop_app, getcfgs_loop_plain by done.
    cbn [mbind option_bind getcfgs_loop].
    assert (Hguard : getcfgs_line guard (CfgsState [[]] [])
                     = Some (CfgsState [[]; def] [def])).
    { unfold getcfgs_line, getcfgs_on_def, getcfgs_on_else, getcfgs_on_endif.
      assert (Hdd : getdef guard true ++ getdef guard false = def).
      { unfold def, guard. destruct neg; cbn [negb].
        - assert (Ht : getdef ("#ifndef " ++ name) true = []).
          { unfold getdef. rewrite !starts_prefixb. reflexivity. }
          by rewrite Ht.
        - assert (Ht : getdef ("#ifdef " ++ name) false = []).
          { unfold getdef. rewrite !starts_prefixb. reflexivity. }
          by rewrite Ht, app_nil_r. }
      rewrite Hdd. cbn [cs_ret cs_deflist empty negb andb].
      assert (He : empty def = false) by (by destruct def).
      rewrite He. cbn [negb mbind option_bind push_back app join_defs].
      rewrite (bool_decide_eq_false_2 (def = "0")), (bool_decide_eq_false_2 (def = "1"))
        by done.
      cbn [empty app]. rewrite bool_decide_eq_false_2.
      2:{ intros ->%list_elem_of_singleton. done. }
      assert (Helse : Str.starts guard "#else" = false).
      { unfold guard. rewrite starts_prefixb. by destruct neg. }
      assert (Hendif : Str.starts guard "#endif" = false).
      { unfold guard. rewrite starts_prefixb. by destruct neg. }
      by rewrite Helse, Hendif. }
    rewrite Hguard. cbn [mbind option_bind].
    rewrite getcfgs_loop_app, getcfgs_loop_plain by done.
    cbn [mbind option_bind getcfgs_loop].
    rewrite (getcfgs_line_else [] _). cbn [mbind option_bind cs_ret cs_deflist].
    rewrite getcfgs_loop_app, getcfgs_loop_plain by done.
    cbn [mbind option_bind getcfgs_loop].
    rewrite (getcfgs_line_endif [] _). cbn [mbind option_bind cs_ret cs_deflist].
    by rewrite getcfgs_loop_plain.
  - unfold getcode, getcode_lines, data. rewrite getlines_unlines by done.
    rewrite getcode_loop_run.
    pose proof (getcode_run_block neg [] name pre body1 body2 post Hd Hl) as Hrun.
    cbv zeta in Hrun. fold guard def in Hrun. rewrite Hrun.
    assert (Hm : match_cfg_def [] def = false).
    { unfold match_cfg_def. by rewrite !bool_decide_eq_false_2 by done. }
    rewrite Hm. by destruct neg.
  - unfold getcode, getcode_lines, data. rewrite getlines_unlines by done.
    rewrite getcode_loop_run.
    pose proof (getcode_run_block neg def name pre body1 body2 post Hd Hl) as Hrun.
    cbv zeta in Hrun. fold guard def in Hrun. rewrite Hrun.
    assert (Hm : match_cfg_def def def = true).
    { rewrite match_cfg_def_eq, cfg_parts_single by done.
      apply bool_decide_eq_true. apply list_elem_of_here. }
    rewrite Hm. by destruct neg.
Qed.

Lemma single_guard_configurations_witness :
  let data := src ["int a;"; "#ifndef A"; "x"; "#else"; "y"; "#endif"; "z"] in
  getcfgs data = Some [[]; "A" : text]
  /\ getcode data [] = Some (src ["int a;"; ""; "x"; ""; ""; ""; "z"])
  /\ getcode data "A" = Some (src ["int a;"; ""; ""; ""; "y"; ""; "z"]).
Proof.
  apply (single_guard_configurations true "A" ["int a;" : text] ["x" : text] ["y" : text]
           ["z" : text]); [decide_closed | done | done | done | decide_closed |].
  repeat constructor; decide_closed.
Defined.
(** ** The lines the selector writes *)

Lemma not_conditional line :
  is_conditional line = false ->
  Str.starts line "#if" = false /\ Str.starts line "#else" = false
  /\ Str.starts line "#elif" = false /\ Str.starts line "#endif" = false.
Proof.
  unfold is_conditional. intros H.
  apply orb_false_iff in H as [H H4]. apply orb_false_iff in H as [H H3].
  by apply orb_false_iff in H as [H1 H2].
Qed.

(** What the loop body writes, from the [match] flag it has set. *)
Lemma getcode_line_emit cfg line st st' out :
  getcode_line cfg line st = Some (st', out) ->
  out = (if gs_match st' && negb (is_conditional line) then line else [])
  /\ gs_match st' = (if Str.starts line "#"
                    then forallb (fun b => b) (gs_matching st') else gs_match st).
Proof.
  unfold getcode_line.
  destruct (getcode_stacks cfg line _ _) as [[matching matched]|]; [|done].
  cbn [mbind option_bind]. rewrite <- starts_hash. intros ?; simplify_eq.
  cbn [gs_match gs_matching]. split; [|done].
  unfold getcode_emit, is_conditional.
  destruct (if Str.starts line "#" then _ else _); cbn [negb andb]; [|done].
  by destruct (_ || _).
Qed.

(** Outside every conditional block a line that is no conditional
    directive changes nothing and is written as it is. *)
Lemma getcode_line_unconditional cfg line :
  is_conditional line = false ->
  getcode_line cfg line (CodeState true [] []) = Some (CodeState true [] [], line).
Proof.
  intros H. destruct (not_conditional line H) as (Hif & Helse & Helif & Hendif).
  assert (Helif' : Str.starts line "#elif " = false) by (by apply (starts_trans line "#elif")).
  unfold getcode_line, getcode_stacks. cbn [gs_match gs_matching gs_matched].
  rewrite Helif', !(getdef_needs_if line) by done. cbn [empty negb].
  assert (He1 : line <> "#else") by (intros ->; by rewrite starts_prefixb in Helse).
  assert (He2 : line <> "#endif") by (intros ->; by rewrite starts_prefixb in Hendif).
  rewrite (bool_decide_eq_false_2 _ He1), (bool_decide_eq_false_2 _ He2).
  cbn [mbind option_bind forallb].
  replace (if negb (empty line) && bool_decide (Str.at_ line 0 = hash) then true else true)
    with true by (by destruct (_ && _)).
  do 2 f_equal. unfold getcode_emit. cbn [negb].
  by rewrite Hif, Helse, Helif, Hendif.
Qed.

Lemma getcode_loop_unconditional cfg lines :
  Forall (fun line => is_conditional line = false) lines ->
  getcode_loop cfg lines (CodeState true [] []) = Some lines.
Proof.
  induction 1 as [|line lines H _ IH]; [done|]. cbn [getcode_loop].
  rewrite (getcode_line_unconditional cfg line H). cbn [mbind option_bind].
  by rewrite IH.
Qed.

(** C5 (amended): a line that starts with [#if], [#else], [#elif] or
    [#endif] is written as an empty line, and every other line as it is
    or as an empty line.  Which of the two is fixed by the [match] flag
    the loop body has set: a line that is no conditional directive is
    written as it is when the flag is set and as an empty line when it
    is not; for a line that starts with '#' the flag is the conjunction
    of [matching_ifdef], for any other line the flag the line before
    left.  So a text without conditional directives comes out as it is,
    its [#include] and [#pragma] lines too. *)
Theorem getcode_blanks_conditionals (cfg : text) :
  (forall (filedata : text) (outs : list text),
      getcode_lines filedata cfg = Some outs ->
      Forall2 (fun line out =>
                 (out = [] \/ out = line) /\ (is_conditional line = true -> out = []))
        (getlines filedata) outs)
  /\ (forall (line : text) (st st' : code_state) (out : text),
        getcode_line cfg line st = Some (st', out) ->
        out = (if gs_match st' && negb (is_conditional line) then line else [])
        /\ gs_match st' = (if Str.starts line "#"
                          then forallb (fun b => b) (gs_matching st') else gs_match st))
  /\ (forall filedata : text,
        Forall (fun line => is_conditional line = false) (getlines filedata) ->
        getcode filedata cfg
        = Some (filedata ++ (if open_line filedata then [nl] else []))).
Proof.
  split; [|split].
  - intros filedata outs. unfold getcode_lines. generalize (CodeState true [] []).
    revert outs. induction (getlines filedata) as [|line lines IH]; intros outs st H.
    + simpl in H. simplify_eq. constructor.
    + simpl in H. unfold getcode_line in H at 1.
      destruct (getcode_stacks cfg line _ _) as [[matching matched]|]; [|done].
      simpl in H.
      destruct (getcode_loop cfg lines _) as [outs'|] eqn:Hl; [|done].
      simpl in H. simplify_eq. constructor; [apply getcode_emit_cases | eauto].
  - intros line st st' out. apply getcode_line_emit.
  - intros filedata H. unfold getcode, getcode_lines.
    rewrite (getcode_loop_unconditional cfg _ H). simpl. by rewrite unlines_getlines.
Qed.

Lemma getcode_blanks_conditionals_witness :
  Forall2 (fun line out =>
             (out = [] \/ out = line) /\ (is_conditional line = true -> out = []))
    (getlines (src ["#ifdef A"; "#include <a>"; "#endif"]))
    [ []; "#include <a>" : text; [] ]
  /\ ("#include <a>" : text)
     = (if gs_match (CodeState true [true] [true]) && negb (is_conditional "#include <a>")
        then "#include <a>" : text else [])
  /\ getcode (src ["#include <a>"; "x"; "#pragma once"]) "A"
     = Some (src ["#include <a>"; "x"; "#pragma once"]).
Proof.
  destruct (getcode_blanks_conditionals "A") as (Ha & Hb & Hc). split; [|split].
  - apply (Ha (src ["#ifdef A"; "#include <a>"; "#endif"])). reflexivity.
  - apply (Hb "#include <a>" (CodeState false [true] [true]) (CodeState true [true] [true])).
    reflexivity.
  - apply (Hc (src ["#include <a>"; "x"; "#pragma once"])).
    vm_compute. repeat constructor.
Defined.

(** C5, as stated, fails: a directive that is not a conditional, here an
    [#include] line of a cleaned text, is written as it is. *)
Lemma getcode_keeps_include_counterexample :
  let t : text := "#include <a>" ++ [nl] in
  clean t = Some t /\ Str.at_ t 0 = hash /\ getcode t [] = Some t.
Proof. repeat split; reflexivity. Qed.

(** ** The empty configuration *)

(** C8: the enumerator returns, for every text, a list whose first
    element is the empty configuration, and every map [preprocess]
    returns has the key of the empty configuration.  But [preprocess]
    does not return a map for every input.  When the cleaned text holds
    no [#define], a map is returned exactly when no line that starts
    with [#elif ] stands outside every open conditional: on such a line
    [getcode] reads [matched_ifdef.back()] on the empty list.  So there
    is no map for the input [#elif A], whatever the tokenizer and the
    fuel; and there is none for [#define] on a line of its own, where the
    expander reads the first token of an empty macro text, for every
    tokenizer that finds no token in the empty text. *)
Theorem preprocess_map_empty_configuration :
  (forall filedata : text, exists rest, getcfgs filedata = Some ([] :: rest))
  /\ (forall (tk : Tokenizer) (fuel : nat) (input : text) (result m : gmap text text),
        preprocess_map tk fuel input result = Some m -> is_Some (m !! ([] : text)))
  /\ (forall (tk : Tokenizer) (fuel : nat) (input data : text) (result : gmap text text),
        clean input = Some data ->
        Str.find data "#define" 0 = None ->
        if elif_guarded 0 (getlines data)
        then exists m, preprocess_map tk fuel input result = Some m
                       /\ is_Some (m !! ([] : text))
        else preprocess_map tk fuel input result = None)
  /\ (forall (tk : Tokenizer) (fuel : nat) (result : gmap text text),
        preprocess_map tk fuel ("#elif A" ++ [nl]) result = None)
  /\ (forall (tk : Tokenizer) (fuel : nat) (result : gmap text text),
        tokenize tk [] = [] ->
        preprocess_map tk fuel ("#define" ++ [nl] ++ "x" ++ [nl]) result = None).
Proof.
  assert (Hc : forall filedata : text, exists rest, getcfgs filedata = Some ([] :: rest)).
  { intros filedata. unfold getcfgs.
    destruct (getcfgs_loop_total (getlines filedata) (CfgsState [[]] []) [] eq_refl)
      as (st' & rest' & -> & Hr).
    simpl. rewrite Hr. eauto. }
  assert (Hm : forall (tk : Tokenizer) (fuel : nat) (input : text)
                 (result m : gmap text text),
             preprocess_map tk fuel input result = Some m -> is_Some (m !! ([] : text))).
  { intros tk fuel input result m H. unfold preprocess_map, preprocess in H.
    destruct (clean input) as [p1|]; [|done]. simpl in H.
    destruct (expandMacros tk fuel p1) as [p2|]; [|done]. simpl in H.
    destruct (Hc p2) as [rest Hrest]. rewrite Hrest in H. cbn -[fill_result] in H.
    eapply fill_result_keys; [exact H|]. left. apply elem_of_cons. by left. }
  assert (Hg : forall (tk : Tokenizer) (fuel : nat) (input data : text)
                 (result : gmap text text),
             clean input = Some data ->
             Str.find data "#define" 0 = None ->
             if elif_guarded 0 (getlines data)
             then exists m, preprocess_map tk fuel input result = Some m
                            /\ is_Some (m !! ([] : text))
             else preprocess_map tk fuel input result = None).
  { intros tk fuel input data result Hclean Hdef.
    assert (Hsafe : forall cfg,
               is_Some (getcode data cfg) <-> elif_guarded 0 (getlines data) = true).
    { intros cfg. unfold getcode, getcode_lines. rewrite getcode_loop_run.
      rewrite <- (getcode_run_safe cfg (getlines data) (CodeState true [] [])) by done.
      destruct (getcode_run cfg (getlines data) (CodeState true [] [])) as [[? ?]|]; simpl.
      - split; eauto.
      - split; by intros [? ?]. }
    assert (Hp : preprocess_map tk fuel input result
                 = configs ← getcfgs data; fill_result data configs result).
    { unfold preprocess_map, preprocess. rewrite Hclean. cbn [mbind option_bind].
      unfold expandMacros. rewrite (expandMacros_loop_done tk fuel data 0 Hdef).
      cbn [mbind option_bind]. by destruct (getcfgs data). }
    destruct (Hc data) as [rest Hrest].
    destruct (elif_guarded 0 (getlines data)) eqn:Eg.
    - assert (He : is_Some (preprocess_map tk fuel input result)).
      { rewrite Hp, Hrest. cbn [mbind option_bind]. apply fill_result_total.
        intros cfg. by apply Hsafe. }
      destruct He as [m He]. exists m. split; [done|]. by eapply Hm.
    - rewrite Hp, Hrest. cbn [mbind option_bind fill_result].
      destruct (getcode data []) as [code|] eqn:E; [|done].
      assert (Hs : is_Some (getcode data [])) by (by rewrite E).
      apply Hsafe in Hs. congruence. }
  split; [exact Hc|]. split; [exact Hm|]. split; [exact Hg|]. split.
  - intros tk fuel result.
    apply (Hg tk fuel ("#elif A" ++ [nl]) ("#elif A" ++ [nl]) result); reflexivity.
  - intros tk fuel result Htok. unfold preprocess_map, preprocess.
    assert (Hclean : clean ("#define" ++ [nl] ++ "x" ++ [nl])
                     = Some ("#define" ++ [nl] ++ "x" ++ [nl])) by reflexivity.
    rewrite Hclean. cbn [mbind option_bind]. unfold expandMacros.
    destruct fuel as [|fuel]; [reflexivity|].
    rewrite expandMacros_loop_unfold.
    change (Str.find ("#define" ++ [nl] ++ "x" ++ [nl]) "#define" 0) with (Some 0).
    cbv beta iota.
    change (define_end _ _ _) with (Some (Some 7)).
    cbn [mbind option_bind].
    change (Str.substr _ _ _) with ([] : text).
    change (join_macro_lines _ _ _ _) with (Some ([] : text, nl :: "x" ++ [nl], 0)).
    cbn [mbind option_bind c_str]. by rewrite Htok.
Qed.

Lemma preprocess_map_empty_configuration_witness :
  is_Some (default ∅ (preprocess_map spec_tokenizer 4 (src ["#ifdef A"; "x"; "#endif"]) ∅)
             !! ([] : text))
  /\ (exists m, preprocess_map spec_tokenizer 0 (src ["#ifdef A"; "#elif B"; "#endif"]) ∅ = Some m
                /\ is_Some (m !! ([] : text)))
  /\ preprocess_map spec_tokenizer 4 (src ["#define"; "x"]) ∅ = None.
Proof.
  destruct preprocess_map_empty_configuration as (_ & H2 & H3 & _ & H5). split; [|split].
  - apply (H2 spec_tokenizer 4 (src ["#ifdef A"; "x"; "#endif"]) ∅).
    vm_compute. reflexivity.
  - apply (H3 spec_tokenizer 0 (src ["#ifdef A"; "#elif B"; "#endif"])
             (src ["#ifdef A"; "#elif B"; "#endif"]) ∅); reflexivity.
  - apply (H5 spec_tokenizer 4 ∅). reflexivity.
Defined.


(** ** The scanner *)

Lemma no_sub_find0 pat s : Str.find0 pat s = None -> ~ has_sub pat s.
Proof. intros H (a & b & ->). by apply (find0_None _ _ a b H). Qed.

Lemma normal_not_tab c : normal c <> tab.
Proof.
  unfold normal. destruct (negb (Ascii.eqb c nl) && (isspace c || iscntrl c)) eqn:E; [done|].
  intros ->. by vm_compute in E.
Qed.

Lemma block_comment_nls s : forall chPrev ch,
  Forall (fun c => c = nl) (block_comment chPrev ch s).1.
Proof.
  induction s as [|c s IH]; intros chPrev ch; simpl.
  - destruct (_ && _); constructor.
  - destruct (_ && _); [constructor|]. specialize (IH ch c).
    destruct (block_comment ch c s) as [out istr]. simpl in *.
    destruct (eqb_nl_spec c) as [->|_]; [by constructor | done].
Qed.

Lemma read_round_head ch istr out ign' istr' :
  read_round true ch istr = (out, ign', istr') ->
  (out = [] /\ ign' = true) \/ (exists x r, out = x :: r /\ x <> sp /\ x <> tab).
Proof.
  unfold read_round. destruct (is_negative ch); [intros [= <- <- <-]; by left|].
  destruct (Ascii.eqb_spec (normal ch) sp) as [Hsp|Hsp]; cbn [andb];
    [intros [= <- <- <-]; by left|].
  destruct (Ascii.eqb_spec (normal ch) slash) as [Hsl|Hsl].
  - rewrite orb_true_r. destruct (get istr) as [chNext i1].
    destruct (Ascii.eqb chNext slash).
    { intros [= <- <- <-]. right. by exists nl, []. }
    destruct (Ascii.eqb chNext star).
    + assert (Hb : forall p : text * istream, Forall (fun c => c = nl) p.1 ->
                   (let '(nls, istr) := p in (nls, true, istr)) = (out, ign', istr') ->
                   (out = [] /\ ign' = true) \/ (exists x r, out = x :: r /\ x <> sp /\ x <> tab)).
      { intros [nls i2] Hn [= <- <- <-]. destruct nls as [|x r]; [by left|].
        right. exists x, r. apply Forall_cons in Hn as [-> _]. done. }
      apply Hb. destruct i1 as [s|]; [apply block_comment_nls | constructor].
    + intros [= <- <- <-]. right. exists (normal ch), [chNext]. rewrite Hsl. done.
  - destruct (Ascii.eqb (normal ch) dquote).
    { destruct (match istr with Some s => string_const s | None => ([eof_char], None) end)
        as [lit i1]. intros [= <- <- <-]. right. by exists dquote, lit. }
    destruct (Ascii.eqb (normal ch) squote).
    { unfold char_const. destruct (get istr) as [c1 i1].
      destruct (Ascii.eqb c1 bslash).
      - destruct (get i1) as [c2 i2]. destruct (get i2) as [c3 i3].
        intros [= <- <- <-]. right. by eexists squote, _.
      - destruct (get i1) as [c3 i3]. intros [= <- <- <-]. right. by eexists squote, _. }
    intros [= <- <- <-]. right. exists (normal ch), []. split; [done|].
    split; [done | apply normal_not_tab].
Qed.

Lemma read_loop_head fuel : forall istr out,
  read_loop fuel true istr = Some out -> head out <> Some sp /\ head out <> Some tab.
Proof.
  induction fuel as [|fuel IH]; intros istr out; [done|].
  rewrite read_loop_unfold.
  destruct istr as [[|c s]|]; simpl get; cbv iota beta; simpl good; cbv iota;
    try (intros [= <-]; done).
  destruct (read_round true c (Some s)) as [[o ign'] istr'] eqn:E.
  destruct (read_loop fuel ign' istr') as [code|] eqn:Ec; [|done].
  intros [= <-]. destruct (read_round_head _ _ _ _ _ E) as [[-> ->]|(x & r & -> & H1 & H2)].
  - by apply (IH istr').
  - simpl. split; congruence.
Qed.

(** X14: what [read] returns never starts with a space or a tab, so
    the removal of the indentation in [preprocess] leaves the text as
    it is. *)
Theorem read_output_not_indented (input : text) :
  exists out, read input = Some out
    /\ head out <> Some sp /\ head out <> Some tab
    /\ remove_indentation (replace_tabs out) = replace_tabs out.
Proof.
  destruct (read_total input) as [out H]. exists out. split; [done|].
  destruct (read_loop_head _ _ _ H) as [H1 H2]. split; [done|]. split; [done|].
  rewrite remove_indentation_eq. destruct out as [|c out]; [done|]. simpl in *.
  destruct (Ascii.eqb_spec c tab) as [->|Ht]; [done|].
  destruct (Ascii.eqb_spec c sp) as [->|Hs]; done.
Qed.

Lemma slashes_paired_app a : forall b,
  slashes_paired a = true -> slashes_paired (a ++ b) = slashes_paired b.
Proof.
  assert (H : forall n a, length a <= n -> forall b,
             slashes_paired a = true -> slashes_paired (a ++ b) = slashes_paired b).
  { clear a. induction n as [|n IH]; intros [|c a] Hl b; simpl in *; try done; try lia.
    destruct (Ascii.eqb c slash).
    - destruct a as [|d a]; [done|]. simpl.
      intros [[-> ->]%andb_true_iff Hp]%andb_true_iff. simpl.
      apply IH; [simpl in Hl; lia | done].
    - apply IH. lia. }
  by apply (H (length a)).
Qed.

Lemma slashes_paired_plain s : slash ∉ s -> slashes_paired s = true.
Proof.
  induction s as [|c s IH]; [done|]. intros [Hc Hs]%not_elem_of_cons. simpl.
  destruct (Ascii.eqb_spec c slash); [done | by apply IH].
Qed.

Lemma slashes_paired_no_opener s :
  slashes_paired s = true ->
  forall a x b, s = a ++ slash :: x :: b -> x <> slash /\ x <> star.
Proof.
  assert (H : forall n s, length s <= n -> slashes_paired s = true ->
             forall a x b, s = a ++ slash :: x :: b -> x <> slash /\ x <> star).
  { clear s. induction n as [|n IH]; intros [|c s] Hl Hp a x b Hs.
    1,3: by destruct a. 1: simpl in Hl; lia.
    simpl in Hp, Hl. destruct (Ascii.eqb_spec c slash) as [->|Hc].
    - destruct s as [|d s]; [done|].
      apply andb_true_iff in Hp as [[Hd1 Hd2]%andb_true_iff Hp].
      apply negb_true_iff, Ascii.eqb_neq in Hd1, Hd2.
      destruct a as [|a0 [|a1 a]]; simplify_eq/=; [by split|].
      apply (IH (a ++ slash :: x :: b)) with (a := a) (b := b); [simpl in Hl; lia|done|done].
    - destruct a as [|a0 a]; simplify_eq/=.
      apply (IH (a ++ slash :: x :: b)) with (a := a) (b := b); [lia|done|done]. }
  by apply (H (length s)).
Qed.

Lemma line_comment_Forall (P : ascii -> Prop) s : forall ch,
  Forall P s -> from_option (Forall P) True (line_comment ch s).
Proof.
  induction s as [|c s IH]; intros ch Hs; simpl.
  - by destruct (Ascii.eqb ch nl).
  - destruct (Ascii.eqb ch nl); [done|]. apply IH. by apply Forall_cons in Hs as [_ ?].
Qed.

Lemma block_comment_Forall (P : ascii -> Prop) s : forall chPrev ch,
  Forall P s -> from_option (Forall P) True (block_comment chPrev ch s).2.
Proof.
  induction s as [|c s IH]; intros chPrev ch Hs; simpl.
  - by destruct (_ && _).
  - destruct (_ && _); [done|]. apply Forall_cons in Hs as [_ Hs].
    specialize (IH ch c Hs). by destruct (block_comment ch c s).
Qed.

Lemma read_round_quoteless ign c s out ign' istr' :
  quoteless c -> Forall quoteless s ->
  read_round ign c (Some s) = (out, ign', istr') ->
  slashes_paired out = true /\ from_option (Forall quoteless) True istr'.
Proof.
  intros [Hq1 Hq2] Hs. unfold read_round.
  destruct (is_negative c); [by intros [= <- <- <-]|].
  destruct (Ascii.eqb (normal c) sp && ign); [by intros [= <- <- <-]|].
  assert (Hn : forall x, x <> sp -> c <> x -> Ascii.eqb (normal c) x = false).
  { intros x Hx Hc. apply Ascii.eqb_neq. destruct (normal_cases c) as [-> | ->]; congruence. }
  rewrite (Hn dquote), (Hn squote) by done.
  destruct (Ascii.eqb_spec (normal c) slash) as [Hsl|Hsl].
  - destruct s as [|chNext s]; simpl get; cbv iota beta.
    { change (Ascii.eqb eof_char slash) with false.
      change (Ascii.eqb eof_char star) with false. cbv iota.
      intros [= <- <- <-]. by rewrite Hsl. }
    apply Forall_cons in Hs as [_ Hs].
    destruct (Ascii.eqb_spec chNext slash) as [->|H1].
    { intros [= <- <- <-]. split; [done|]. by apply line_comment_Forall. }
    destruct (Ascii.eqb_spec chNext star) as [->|H2].
    + pose proof (block_comment_nls s zero (normal c)) as Hnls.
      pose proof (block_comment_Forall quoteless s zero (normal c) Hs) as Hf.
      destruct (block_comment zero (normal c) s) as [nls i2]. intros [= <- <- <-].
      split; [|done]. apply slashes_paired_plain. intros Hin.
      by apply (proj1 (Forall_forall _ _) Hnls) in Hin.
    + intros [= <- <- <-]. split; [|done]. rewrite Hsl. simpl.
      by destruct (Ascii.eqb_spec chNext slash), (Ascii.eqb_spec chNext star).
  - intros [= <- <- <-]. split; [|done]. simpl. by destruct (Ascii.eqb_spec (normal c) slash).
Qed.

Lemma read_loop_quoteless fuel : forall ign istr out,
  from_option (Forall quoteless) True istr ->
  read_loop fuel ign istr = Some out -> slashes_paired out = true.
Proof.
  induction fuel as [|fuel IH]; intros ign istr out Hq; [done|].
  rewrite read_loop_unfold.
  destruct istr as [[|c s]|]; simpl get; cbv iota beta; simpl good; cbv iota;
    try (intros [= <-]; done).
  simpl in Hq. apply Forall_cons in Hq as [Hc Hs].
  destruct (read_round ign c (Some s)) as [[o ign'] istr'] eqn:E.
  destruct (read_loop fuel ign' istr') as [code|] eqn:Ec; [|done].
  intros [= <-]. destruct (read_round_quoteless _ _ _ _ _ _ Hc Hs E) as [Hp Hq'].
  rewrite slashes_paired_app by done. by apply (IH ign' istr').
Qed.

(** X15: for an input without a double or a single quote, what [read]
    returns holds neither "//" nor "/*". *)
Theorem read_leaves_no_comment_opener (input : text) :
  dquote ∉ input -> squote ∉ input ->
  exists out, read input = Some out /\ ~ has_sub "//" out /\ ~ has_sub "/*" out.
Proof.
  intros H1 H2. destruct (read_total input) as [out H]. exists out. split; [done|].
  assert (Hp : slashes_paired out = true).
  { apply (read_loop_quoteless (S (length input)) true (Some input) out); [|done].
    simpl. apply Forall_forall. intros c Hc. split; intros ->; done. }
  split; intros (a & b & Hs);
    destruct (slashes_paired_no_opener _ Hp a _ b Hs); done.
Qed.

Lemma read_leaves_no_comment_opener_witness :
  exists out, read ("a /* b */ c // d" ++ [nl] ++ "e / f") = Some out
              /\ ~ has_sub "//" out /\ ~ has_sub "/*" out.
Proof. apply read_leaves_no_comment_opener; decide_closed. Defined.

Lemma read_lexed_uniform p :
  lexed p -> forall ign, exists out ign', forall rest,
    read_at ign (Some (p ++ rest)) = (fun code => out ++ code) <$> read_at ign' (Some rest).
Proof.
  induction 1 as [|c s H1 H2 H3 _ IH|c s H1 H2 _ IH|body s Hb _ IH|body s Hb _ IH
                  |body s Hb _ IH|c s Hc _ IH|c s _ IH]; intros ign.
  - exists [], ign. intros rest. by rewrite fmap_app_nil.
  - destruct (is_negative c || (Ascii.eqb (normal c) sp && ign)) eqn:E.
    + destruct (IH ign) as (out & ign' & Hr). exists out, ign'. intros rest.
      cbn [app]. rewrite read_at_cons, read_round_plain, E by done. rewrite Hr.
      by rewrite fmap_app_compose.
    + destruct (IH (Ascii.eqb (normal c) sp || Ascii.eqb (normal c) hash))
        as (out & ign' & Hr).
      exists ([normal c] ++ out), ign'. intros rest.
      cbn [app]. rewrite read_at_cons, read_round_plain, E by done. rewrite Hr.
      by rewrite fmap_app_compose.
  - destruct (IH true) as (out & ign' & Hr). exists ([slash; c] ++ out), ign'. intros rest.
    cbn [app]. rewrite read_at_cons, read_round_slash by done. rewrite Hr.
    by rewrite fmap_app_compose.
  - destruct (IH true) as (out & ign' & Hr). exists ([nl] ++ out), ign'. intros rest.
    cbn [app]. rewrite <- app_assoc. cbn [app].
    rewrite read_at_cons, read_round_line by done. rewrite Hr.
    by rewrite fmap_app_compose.
  - destruct (IH true) as (out & ign' & Hr).
    exists (filter (fun c => c = nl) body ++ out), ign'. intros rest.
    cbn [app]. rewrite <- app_assoc. cbn [app].
    rewrite read_at_cons, read_round_block by done. rewrite Hr.
    by rewrite fmap_app_compose.
  - destruct (IH false) as (out & ign' & Hr).
    exists ((dquote :: body ++ [dquote]) ++ out), ign'. intros rest.
    cbn [app]. rewrite <- app_assoc. cbn [app].
    rewrite read_at_cons, read_round_string by done. rewrite Hr.
    by rewrite fmap_app_compose.
  - destruct (IH false) as (out & ign' & Hr).
    exists ([squote; c; squote] ++ out), ign'. intros rest.
    cbn [app]. rewrite read_at_cons, read_round_char by done. rewrite Hr.
    by rewrite fmap_app_compose.
  - destruct (IH false) as (out & ign' & Hr).
    exists ([squote; bslash; c; squote] ++ out), ign'. intros rest.
    cbn [app]. rewrite read_at_cons, read_round_char_escape. rewrite Hr.
    by rewrite fmap_app_compose.
Qed.

Lemma no_star_slash_newlines body : forall prev,
  no_star_slash prev (filter (fun c => c = nl) body) = true.
Proof.
  induction body as [|c body IH]; intros prev; [done|].
  rewrite filter_cons. destruct (decide (c = nl)) as [->|Hc]; [|done].
  simpl. rewrite IH. by rewrite andb_false_r.
Qed.

Lemma filter_newlines_idemp (body : text) :
  filter (fun c => c = nl) (filter (fun c => c = nl) body) = filter (fun c => c = nl) body.
Proof.
  induction body as [|c body IH]; [done|].
  rewrite filter_cons. destruct (decide (c = nl)) as [->|Hc]; [|done].
  rewrite filter_cons, decide_True by done. by rewrite IH.
Qed.

(** X16: after closed lexical items, the text of a line comment does
    not change what [read] returns, and of the text of a closed block
    comment only the newlines do. *)
Theorem read_comment_text_irrelevant (prefix body rest : text) :
  lexed prefix ->
  (nl ∉ body ->
   read (prefix ++ "//" ++ body ++ nl :: rest) = read (prefix ++ "//" ++ nl :: rest))
  /\ (no_star_slash slash body = true ->
      read (prefix ++ "/*" ++ body ++ "*/" ++ rest)
      = read (prefix ++ "/*" ++ filter (fun c => c = nl) body ++ "*/" ++ rest)).
Proof.
  intros Hp. destruct (read_lexed_uniform _ Hp true) as (out & ign' & Hr).
  rewrite !read_eq, !Hr. split; intros Hb; f_equal.
  - change (list_ascii_of_string "//") with [slash; slash]. cbn [app].
    rewrite (read_at_cons _ slash (slash :: body ++ nl :: rest)), read_round_line by done.
    change (slash :: nl :: rest) with (slash :: [] ++ nl :: rest).
    by rewrite read_at_cons, read_round_line by apply not_elem_of_nil.
  - change (list_ascii_of_string "/*") with [slash; star].
    change (list_ascii_of_string "*/") with [star; slash]. cbn [app].
    rewrite !read_at_cons, !read_round_block by (done || apply no_star_slash_newlines).
    by rewrite filter_newlines_idemp.
Qed.

Lemma read_comment_text_irrelevant_witness :
  read ("a = 1; " ++ "//" ++ " set a" ++ nl :: "b") = read ("a = 1; " ++ "//" ++ nl :: "b")
  /\ read ("a " ++ "/*" ++ ("x" ++ [nl] ++ "y") ++ "*/" ++ " b")
     = read ("a " ++ "/*" ++ filter (fun c => c = nl) ("x" ++ [nl] ++ "y") ++ "*/" ++ " b").
Proof.
  split.
  - apply (read_comment_text_irrelevant "a = 1; " " set a" "b").
    + do 7 (apply lexed_plain; [done..|]). constructor.
    + decide_closed.
  - apply (read_comment_text_irrelevant "a " ("x" ++ [nl] ++ "y") " b").
    + do 2 (apply lexed_plain; [done..|]). constructor.
    + reflexivity.
Defined.

Lemma string_const_open body :
  dquote ∉ body -> string_const body = (body ++ [eof_char], None).
Proof.
  assert (H : forall n body, length body <= n -> dquote ∉ body ->
                string_const body = (body ++ [eof_char], None)).
  { clear body. induction n as [|n IH]; intros [|c body] Hl Hb; simpl in *; try lia;
      try done.
    apply not_elem_of_cons in Hb as [Hc Hb].
    destruct (Ascii.eqb c bslash).
    - destruct body as [|c2 body]; [done|]. apply not_elem_of_cons in Hb as [Hc2 Hb].
      rewrite (IH body); [done | simpl in *; lia | done].
    - destruct (Ascii.eqb_spec c dquote); [done|].
      rewrite (IH body); [done | lia | done]. }
  by apply (H (length body)).
Qed.

Lemma block_comment_open body : forall chPrev ch,
  Ascii.eqb chPrev star && Ascii.eqb ch slash = false ->
  no_star_slash ch body = true ->
  block_comment chPrev ch body = (filter (fun c => c = nl) body, None).
Proof.
  induction body as [|c body IH]; intros chPrev ch H1 H2.
  - cbn [block_comment]. by rewrite H1.
  - simpl in H2. apply andb_true_iff in H2 as [H2 H3]. apply negb_true_iff in H2.
    cbn [block_comment]. rewrite H1, (IH _ _ H2 H3).
    rewrite filter_cons. destruct (eqb_nl_spec c) as [->|Hc].
    + by rewrite decide_True.
    + by rewrite decide_False.
Qed.

Lemma line_comment_open body : forall ch,
  ch <> nl -> nl ∉ body -> line_comment ch body = None.
Proof.
  induction body as [|c body IH]; intros ch Hc Hb; simpl.
  - by destruct (eqb_nl_spec ch).
  - destruct (eqb_nl_spec ch); [done|]. apply not_elem_of_cons in Hb as [Hc' Hb].
    by apply IH.
Qed.

Lemma read_round_string_open ign body :
  dquote ∉ body ->
  read_round ign dquote (Some body) = (dquote :: body ++ [eof_char], false, None).
Proof.
  intros Hb. unfold read_round. change (normal dquote) with dquote. simpl.
  by rewrite string_const_open.
Qed.

Lemma read_round_block_open ign body :
  no_star_slash slash body = true ->
  read_round ign slash (Some (star :: body)) = (filter (fun c => c = nl) body, true, None).
Proof.
  intros Hb. unfold read_round. change (normal slash) with slash. simpl.
  by rewrite (block_comment_open body zero slash).
Qed.

Lemma read_round_line_open ign body :
  nl ∉ body -> read_round ign slash (Some (slash :: body)) = ([nl], true, None).
Proof.
  intros Hb. unfold read_round. change (normal slash) with slash. simpl.
  by rewrite (line_comment_open body slash).
Qed.

(** X17: what the end of the input leaves open, after closed lexical
    items: a string constant is written with the character [(char)EOF]
    after it, a block comment leaves its newlines, a line comment leaves
    the newline the input does not have. *)
Theorem read_unterminated_at_end (prefix body : text) :
  lexed prefix ->
  exists out,
    read prefix = Some out
    /\ (dquote ∉ body ->
        read (prefix ++ dquote :: body) = Some (out ++ dquote :: body ++ [eof_char]))
    /\ (no_star_slash slash body = true ->
        read (prefix ++ "/*" ++ body) = Some (out ++ filter (fun c => c = nl) body))
    /\ (nl ∉ body -> read (prefix ++ "//" ++ body) = Some (out ++ [nl])).
Proof.
  intros Hp. destruct (read_lexed_uniform _ Hp true) as (out & ign' & Hr).
  exists out. rewrite !read_eq, !Hr. split; [|split; [|split]].
  - rewrite <- (app_nil_r prefix) at 1. rewrite Hr, read_at_nil. simpl. by rewrite app_nil_r.
  - intros Hb. rewrite read_at_cons, read_round_string_open by done.
    rewrite read_at_None. simpl. by rewrite app_nil_r.
  - intros Hb. change (list_ascii_of_string "/*") with [slash; star]. cbn [app].
    rewrite read_at_cons, read_round_block_open by done.
    rewrite read_at_None. simpl. by rewrite app_nil_r.
  - intros Hb. change (list_ascii_of_string "//") with [slash; slash]. cbn [app].
    rewrite read_at_cons, read_round_line_open by done.
    by rewrite read_at_None.
Qed.

Lemma read_unterminated_at_end_witness :
  exists out,
    read "x = " = Some out
    /\ read ("x = " ++ dquote :: "ab") = Some (out ++ dquote :: "ab" ++ [eof_char])
    /\ read ("x = " ++ "/*" ++ "ab") = Some (out ++ filter (fun c => c = nl) ("ab" : text))
    /\ read ("x = " ++ "//" ++ "ab") = Some (out ++ [nl]).
Proof.
  destruct (read_unterminated_at_end "x = " "ab") as (out & H1 & H2 & H3 & H4).
  - do 4 (apply lexed_plain; [done..|]). constructor.
  - exists out. split; [exact H1|]. split; [|split].
    + apply H2. decide_closed.
    + apply H3. reflexivity.
    + apply H4. decide_closed.
Defined.

Lemma read_at_skip_blanks sps rest :
  Forall blank_char sps -> read_at true (Some (sps ++ rest)) = read_at true (Some rest).
Proof.
  induction 1 as [|c sps [Hc1 Hc2] _ IH]; [done|]. cbn [app].
  rewrite read_at_cons. unfold read_round. rewrite Hc1, Hc2.
  change (Ascii.eqb sp sp && true) with true. cbv iota. rewrite IH. apply fmap_app_nil.
Qed.

Lemma read_round_hash ign istr : read_round ign hash istr = ([hash], true, istr).
Proof. rewrite read_round_plain by done. reflexivity. Qed.

(** X18: white space and control characters (other than the newline)
    that follow a '#', after closed lexical items, or that stand at the
    start of the input, are not written: the result of [read] is the
    same without them. *)
Theorem read_drops_spaces_after_hash (prefix sps rest : text) :
  lexed prefix -> Forall blank_char sps ->
  read (prefix ++ "#" ++ sps ++ rest) = read (prefix ++ "#" ++ rest)
  /\ read (sps ++ rest) = read rest.
Proof.
  intros Hp Hs. split.
  - destruct (read_lexed_uniform _ Hp true) as (out & ign' & Hr).
    rewrite !read_eq, !Hr. f_equal.
    change (list_ascii_of_string "#") with [hash]. cbn [app].
    rewrite !read_at_cons, !read_round_hash. f_equal. by apply read_at_skip_blanks.
  - rewrite !read_eq. by apply read_at_skip_blanks.
Qed.

Lemma read_drops_spaces_after_hash_witness :
  read ("int a;" ++ [nl] ++ "#" ++ [sp; tab; sp] ++ "ifdef A")
  = read ("int a;" ++ [nl] ++ "#" ++ "ifdef A")
  /\ read ([sp; tab; sp] ++ "ifdef A") = read "ifdef A".
Proof.
  apply (read_drops_spaces_after_hash ("int a;" ++ [nl]) [sp; tab; sp] "ifdef A").
  - do 7 (apply lexed_plain; [done..|]). constructor.
  - repeat constructor.
Defined.

(** ** The passes of [preprocess] *)

Lemma removeSpaceNearNL_loop_solids str : forall i0 prev out,
  removeSpaceNearNL_loop i0 prev str = Some out ->
  filter (fun c => c <> sp) out = filter (fun c => c <> sp) str.
Proof.
  induction str as [|x str IH]; intros i0 prev out; simpl.
  - by intros ?; simplify_eq.
  - destruct (if Ascii.eqb x sp && negb i0 then _ else _) as [b|]; [|done]. simpl.
    destruct (Ascii.eqb x sp && _) eqn:E.
    + apply andb_true_iff in E as [->%Ascii.eqb_eq _]. intros H.
      rewrite (IH _ _ _ H). by rewrite filter_cons_False by (by intros H'; apply H').
    + destruct (removeSpaceNearNL_loop false (Some x) str) as [out'|] eqn:H; [|done].
      simpl. intros ?; simplify_eq. by rewrite !(filter_cons _ x), (IH _ _ _ H).
Qed.

Lemma removeSpaceNearNL_loop_after_nl str : forall i0 prev out,
  (i0 = true -> prev = None) ->
  removeSpaceNearNL_loop i0 prev str = Some out -> no_space_after_nl prev out = true.
Proof.
  induction str as [|x str IH]; intros i0 prev out Hi; simpl.
  - by intros ?; simplify_eq.
  - destruct (Ascii.eqb_spec x sp) as [->|Hx]; cbn [andb].
    + destruct (if negb i0 then (fun p => Ascii.eqb p nl) <$> prev else Some false)
        as [b|] eqn:Eb; [|done]. cbn [mbind option_bind].
      destruct (b || _) eqn:E.
      * apply IH. done.
      * destruct (removeSpaceNearNL_loop false (Some sp) str) as [out'|] eqn:H; [|done].
        simpl. intros ?; simplify_eq. simpl.
        rewrite (IH false (Some sp) out' ltac:(done) H), andb_true_r.
        apply orb_false_iff in E as [-> _].
        destruct i0; [by rewrite (Hi eq_refl)|]. simpl in Eb.
        destruct prev as [q|]; [|done]. simpl in Eb. by injection Eb as ->.
    + cbn [mbind option_bind].
      destruct (removeSpaceNearNL_loop false (Some x) str) as [out'|] eqn:H; [|done].
      simpl. intros ?; simplify_eq. simpl. rewrite (IH false (Some x) out' ltac:(done) H).
      by destruct (Ascii.eqb_spec x sp).
Qed.

Lemma no_space_after_nl_sub a : forall p b,
  no_space_after_nl p (a ++ nl :: sp :: b) = false.
Proof.
  induction a as [|c a IH]; intros p b; simpl.
  - done.
  - by rewrite IH, andb_false_r.
Qed.

(** X19: [removeSpaceNearNL] returns for every text (it never reads
    [tmp] out of bounds), removes nothing but spaces, and leaves no
    space right after a newline. *)
Theorem removeSpaceNearNL_drops_only_spaces (str : text) :
  exists out, removeSpaceNearNL str = Some out
    /\ filter (fun c => c <> sp) out = filter (fun c => c <> sp) str
    /\ ~ has_sub [nl; sp] out.
Proof.
  destruct (removeSpaceNearNL_total str) as [out H]. exists out. split; [done|].
  split; [by apply (removeSpaceNearNL_loop_solids _ _ _ _ H)|].
  intros (a & b & ->).
  apply removeSpaceNearNL_loop_after_nl in H; [|done].
  cbn [app] in H. by rewrite no_space_after_nl_sub in H.
Qed.

Lemma tidy_after_no_space_before_nl s : forall p a b,
  tidy_after p s = true -> s <> a ++ sp :: nl :: b.
Proof.
  induction s as [|c s IH]; intros p a b Ht E.
  - by destruct a.
  - cbn [tidy_after] in Ht. apply andb_true_iff in Ht as [[_ H2]%andb_true_iff H3].
    destruct a as [|x a]; [|injection E as -> ->; by apply (IH (Some x) a b H3)].
    injection E as -> ->. cbn [tidy_after] in H3.
    apply andb_true_iff in H3 as [[_ Hnl]%andb_true_iff _]. done.
Qed.

(** X20: for a text that does not start with a space and has no two
    spaces in a row, what [removeSpaceNearNL] returns has no space
    directly before and none directly after a newline. *)
Theorem removeSpaceNearNL_single_spaced (str : text) :
  single_spaced true str = true ->
  exists out, removeSpaceNearNL str = Some out
    /\ ~ has_sub [sp; nl] out /\ ~ has_sub [nl; sp] out.
Proof.
  intros Hs. destruct (removeSpaceNearNL_total str) as [out H]. exists out.
  split; [done|]. split.
  - intros (a & b & ->).
    assert (Ht : tidy_after None (a ++ [sp; nl] ++ b) = true).
    { apply (removeSpaceNearNL_tidies str true None true _ Hs); [|done]. by left. }
    by apply (tidy_after_no_space_before_nl _ None a b Ht).
  - intros (a & b & ->).
    apply removeSpaceNearNL_loop_after_nl in H; [|done].
    cbn [app] in H. by rewrite no_space_after_nl_sub in H.
Qed.

Lemma removeSpaceNearNL_single_spaced_witness :
  exists out, removeSpaceNearNL ("a " ++ [nl] ++ " b " ++ [nl]) = Some out
    /\ ~ has_sub [sp; nl] out /\ ~ has_sub [nl; sp] out.
Proof. by apply removeSpaceNearNL_single_spaced. Defined.

Lemma fold_loop_result fuel : forall s out,
  fold_loop fuel s = Some out -> Str.rfind out [bslash; nl] = None.
Proof.
  induction fuel as [|fuel IH]; intros s out.
  - simpl. destruct (Str.rfind s [bslash; nl]) eqn:E; [done|]. by intros [= <-].
  - rewrite fold_loop_unfold. destruct (Str.rfind s [bslash; nl]) eqn:E.
    + apply IH.
    + by intros [= <-].
Qed.

Lemma pivot_unique (c : ascii) u : forall u0 w w0,
  c ∉ u -> c ∉ w -> u ++ c :: w = u0 ++ c :: w0 -> u = u0.
Proof.
  induction u as [|x u IH]; intros [|y u0] w w0 Hu Hw E; simplify_eq/=.
  - done.
  - exfalso. apply Hw. apply elem_of_app. right. left.
  - exfalso. apply Hu. left.
  - apply not_elem_of_cons in Hu as [_ Hu]. f_equal. by apply (IH u0 w w0).
Qed.

Lemma rfind_single u w :
  bslash ∉ u -> bslash ∉ w -> Str.rfind (u ++ bslash :: nl :: w) [bslash; nl] = Some (length u).
Proof.
  intros Hu Hw. destruct (Str.rfind _ _) as [i|] eqn:E.
  - apply rfind_Some in E as (u0 & w0 & E & <- & _). cbn [app] in E.
    f_equal. symmetry. f_equal. apply (pivot_unique bslash u u0 (nl :: w) (nl :: w0)); [done| |done].
    apply not_elem_of_cons. split; [apply bslash_ne_nl | done].
  - exfalso. by apply (rfind_None _ _ u w E).
Qed.

Lemma space_after_no_bslash u : bslash ∉ space_after u.
Proof. destruct (space_after_cases u) as [-> | ->]; [apply not_elem_of_nil | decide_closed]. Qed.

(** X21: the loop that folds the line continuations ends on every
    text, and leaves no backslash directly followed by a newline. *)
Theorem fold_continuations_leaves_none (s : text) :
  exists out, fold_continuations s = Some out /\ ~ has_sub [bslash; nl] out.
Proof.
  destruct (fold_continuations_total s) as [out H]. exists out. split; [done|].
  intros (a & b & ->). by apply (rfind_None _ _ a b (fold_loop_result _ _ _ H)).
Qed.

(** X22: a text whose only backslash stands before a newline: the two
    characters are removed, a space is put in their place unless the
    text before ends with one (or is empty), and the next newline of the
    text is written twice; when no newline follows, none is written. *)
Theorem fold_continuations_joins_lines (u v w : text) :
  bslash ∉ u -> bslash ∉ v -> bslash ∉ w -> nl ∉ v ->
  fold_continuations (u ++ [bslash; nl] ++ v ++ nl :: w)
  = Some (u ++ space_after u ++ v ++ [nl; nl] ++ w)
  /\ fold_continuations (u ++ [bslash; nl] ++ v) = Some (u ++ space_after u ++ v).
Proof.
  intros Hu Hv Hw Hn.
  assert (Hfix : forall fuel t, bslash ∉ t -> fold_loop fuel t = Some t).
  { intros fuel t Ht. apply fold_loop_fixed.
    destruct (Str.rfind t [bslash; nl]) as [i|] eqn:F; [|done].
    apply rfind_Some in F as (a & b & -> & _). exfalso. apply Ht.
    apply elem_of_app. right. left. }
  assert (Hlen : forall t : text, exists n, length (u ++ [bslash; nl] ++ t) = S n).
  { intros t. rewrite length_app. simpl. exists (length u + S (length t)). lia. }
  unfold fold_continuations. split.
  - destruct (Hlen (v ++ nl :: w)) as [n ->]. rewrite fold_loop_unfold. cbn [app].
    rewrite rfind_single, fold_step_eq, dup_first_nl_split by
      (done || (rewrite not_elem_of_app, not_elem_of_cons; split_and!; [done|apply bslash_ne_nl|done])).
    apply Hfix. rewrite !not_elem_of_app, !not_elem_of_cons.
    split_and!; [done|apply space_after_no_bslash|done|apply bslash_ne_nl|apply bslash_ne_nl|done].
  - destruct (Hlen v) as [n ->]. rewrite fold_loop_unfold. cbn [app].
    rewrite rfind_single, fold_step_eq, dup_first_nl_notin by done.
    apply Hfix. rewrite !not_elem_of_app. split_and!; [done|apply space_after_no_bslash|done].
Qed.

Lemma fold_continuations_joins_lines_witness :
  fold_continuations ("a" ++ [bslash; nl] ++ "b" ++ nl :: "c")
  = Some ("a" ++ space_after "a" ++ "b" ++ [nl; nl] ++ "c")
  /\ fold_continuations ("a" ++ [bslash; nl] ++ "b") = Some ("a" ++ space_after "a" ++ "b").
Proof. apply fold_continuations_joins_lines; decide_closed. Defined.

Lemma find_0 s pat : Str.find s pat 0 = Str.find0 pat s.
Proof. unfold Str.find. simpl. rewrite drop_0. by destruct (Str.find0 pat s). Qed.

Lemma find0_first_char c pat a w :
  c ∉ a -> Str.find0 (c :: pat) (a ++ (c :: pat) ++ w) = Some (length a).
Proof.
  induction a as [|x a IH]; intros Ha.
  - cbn [app length]. pose proof (prefixb_app (c :: pat) w) as Hp. cbn [app] in Hp.
    destruct pat; simpl in *; by rewrite Hp.
  - apply not_elem_of_cons in Ha as [Hx Ha]. cbn [app Str.find0].
    change (Str.prefixb (c :: pat) (x :: a ++ c :: pat ++ w))
      with (Ascii.eqb c x && Str.prefixb pat (a ++ c :: pat ++ w)).
    destruct (Ascii.eqb_spec c x) as [->|_]; [done|]. cbn [andb].
    cbn [app] in IH. by rewrite IH.
Qed.

Lemma first_char_split (c : ascii) a : forall u t t',
  c ∉ a -> a ++ c :: t = u ++ c :: t' ->
  (u = a /\ t = t') \/ (exists k, u = a ++ c :: k /\ t = k ++ c :: t').
Proof.
  induction a as [|x a IH]; intros [|y u] t t' Ha E; simplify_eq/=.
  - by left.
  - right. by exists u.
  - exfalso. apply Ha. left.
  - apply not_elem_of_cons in Ha as [_ Ha].
    destruct (IH u t t' Ha ltac:(done)) as [[-> ->]|(k & -> & ->)]; [by left|].
    right. by exists k.
Qed.

Lemma notin_prefix_split (c : ascii) m : forall k r t',
  c ∉ m -> m ++ r = k ++ c :: t' -> exists k', k = m ++ k' /\ r = k' ++ c :: t'.
Proof.
  induction m as [|x m IH]; intros k r t' Hm E.
  - by exists k.
  - apply not_elem_of_cons in Hm as [Hx Hm]. destruct k as [|y k]; simplify_eq/=.
    destruct (IH k r t' Hm ltac:(done)) as (k' & -> & ->). by exists k'.
Qed.

Lemma no_ifdefined_after a m rest :
  hash ∉ a -> hash ∉ m -> Str.prefixb ifdefined (hash :: m ++ rest) = false ->
  ~ has_sub ifdefined rest ->
  forall u w, a ++ hash :: m ++ rest <> u ++ ifdefined ++ w.
Proof.
  intros Ha Hm Hp Hr u w E.
  change (ifdefined ++ w) with (hash :: "if defined(" ++ w) in E.
  destruct (first_char_split hash a u _ _ Ha E) as [[-> E']|(k & -> & E')].
  - assert (Hp' : Str.prefixb ifdefined (hash :: m ++ rest) = true).
    { apply prefixb_spec. exists w. by rewrite E'. }
    congruence.
  - destruct (notin_prefix_split hash m k rest _ Hm E') as (k' & -> & ->).
    apply Hr. by exists k', w.
Qed.

Lemma find_None_before s pat pos :
  (forall u w, s = u ++ pat ++ w -> length u < pos) -> Str.find s pat pos = None.
Proof.
  intros H. destruct (Str.find s pat pos) as [i|] eqn:F; [|done].
  apply find_Some in F as (u & w & E & <- & Hpos). specialize (H u w E). lia.
Qed.

Lemma replaceIfDefined_loop_done fuel ret pos :
  Str.find ret ifdefined pos = None -> replaceIfDefined_loop fuel ret pos = Some ret.
Proof.
  intros H. destruct fuel.
  - by rewrite replaceIfDefined_loop_0, H.
  - by rewrite replaceIfDefined_loop_unfold, H.
Qed.

Ltac len := repeat (rewrite ?length_app; simpl); lia.

(** X23: a text in which no ')' is directly followed by a newline is
    returned by [replaceIfDefined] as it is. *)
Theorem replaceIfDefined_needs_line_end (str : text) :
  ~ has_sub [")"%char; nl] str -> replaceIfDefined str = Some str.
Proof.
  intros Hn. unfold replaceIfDefined.
  assert (Hloop : forall fuel pos,
             length str - pos <= fuel -> replaceIfDefined_loop fuel str pos = Some str).
  { induction fuel as [|fuel IH]; intros pos Hle.
    - rewrite replaceIfDefined_loop_0.
      destruct (Str.find str ifdefined pos) as [p|] eqn:F; [|done].
      apply find_Some in F as (u & w & E & <- & Hpos). rewrite E in Hle.
      rewrite !length_app in Hle. simpl in Hle. lia.
    - rewrite replaceIfDefined_loop_unfold.
      destruct (Str.find str ifdefined pos) as [p|] eqn:F; [|done].
      destruct (Str.find str ")" (p + 9)) as [p2|] eqn:F2; [|done].
      destruct (replaceIfDefined_round _ _ _ _ F F2)
        as (u & k & w2 & E & -> & Hpos & -> & ->).
      cbv zeta.
      assert (Hat : Ascii.eqb (Str.at_ str (length (u ++ ifdefined ++ k) + 1)) nl = false).
      { rewrite E.
        replace (u ++ ifdefined ++ k ++ ")" ++ w2) with ((u ++ ifdefined ++ k ++ ")") ++ w2)
          by (by rewrite <- !app_assoc).
        replace (length (u ++ ifdefined ++ k) + 1)
          with (length (u ++ ifdefined ++ k ++ ")") + 0)
          by (rewrite !length_app; simpl; lia).
        rewrite at_app_add. destruct w2 as [|c w2]; [done|]. unfold Str.at_. simpl.
        destruct (eqb_nl_spec c) as [->|_]; [|done]. exfalso. apply Hn.
        exists (u ++ ifdefined ++ k), w2. rewrite E. by rewrite <- !app_assoc. }
      rewrite Hat. apply IH. rewrite E in Hle |- *.
      rewrite !length_app in *. simpl in *. lia. }
  apply Hloop. lia.
Qed.

Lemma replaceIfDefined_needs_line_end_witness :
  replaceIfDefined (src ["#if defined(A) && B"]) = Some (src ["#if defined(A) && B"]).
Proof. apply replaceIfDefined_needs_line_end. apply no_sub_find0. reflexivity. Defined.

(** X24: after a text without '#', [#if defined(x)] followed by a
    newline becomes [#ifdef x], for [x] without ')' and '#', when the
    pattern does not occur further on; followed by another character it
    stays as it is. *)
Theorem replaceIfDefined_rewrites_guard (a x rest : text) (c : ascii) :
  hash ∉ a -> hash ∉ x -> ")"%char ∉ x ->
  (~ has_sub ifdefined rest ->
   replaceIfDefined (a ++ "#if defined(" ++ x ++ ")" ++ nl :: rest)
   = Some (a ++ "#ifdef " ++ x ++ nl :: rest))
  /\ (c <> nl -> ~ has_sub ifdefined (c :: rest) ->
      replaceIfDefined (a ++ "#if defined(" ++ x ++ ")" ++ c :: rest)
      = Some (a ++ "#if defined(" ++ x ++ ")" ++ c :: rest)).
Proof.
  intros Ha Hx Hp.
  assert (Hround : forall d : ascii,
    let ret := a ++ ifdefined ++ x ++ ")" ++ d :: rest in
    replaceIfDefined ret
    = replaceIfDefined_loop (length ret - 1)
        (if Ascii.eqb d nl then a ++ "#ifdef " ++ x ++ d :: rest else ret) (length a + 1)).
  { intros d ret. unfold replaceIfDefined.
    assert (Hlen : exists n, length ret = S n).
    { exists (length ret - 1). unfold ret. len. }
    destruct Hlen as [n Hlen]. rewrite Hlen. rewrite replaceIfDefined_loop_unfold.
    assert (F1 : Str.find ret ifdefined 0 = Some (length a)).
    { rewrite find_0. unfold ret. by apply (find0_first_char hash "if defined("). }
    rewrite F1.
    assert (F2 : Str.find ret ")" (length a + 9) = Some (length (a ++ ifdefined ++ x))).
    { unfold ret.
      replace (a ++ ifdefined ++ x ++ ")" ++ d :: rest)
        with ((a ++ "#if defin") ++ ("ed(" ++ x) ++ ")"%char :: d :: rest)
        by (by rewrite <- !app_assoc).
      replace (length a + 9) with (length (a ++ "#if defin"))
        by (by rewrite length_app).
      rewrite find_app_length. change (list_ascii_of_string ")") with [")"%char].
      rewrite find0_char.
      - simpl. f_equal. len.
      - rewrite not_elem_of_app. split; [decide_closed | done]. }
    rewrite F2.
    assert (Hb : (length ret - 1 <? length (a ++ ifdefined ++ x))%nat = false).
    { apply Nat.ltb_ge. unfold ret. len. }
    rewrite Hb. cbv zeta.
    assert (Hat : Str.at_ ret (length (a ++ ifdefined ++ x) + 1) = d).
    { unfold ret.
      replace (a ++ ifdefined ++ x ++ ")" ++ d :: rest)
        with ((a ++ ifdefined ++ x ++ ")") ++ d :: rest) by (by rewrite <- !app_assoc).
      replace (length (a ++ ifdefined ++ x) + 1) with (length (a ++ ifdefined ++ x ++ ")") + 0)
        by len.
      by rewrite at_app_add. }
    rewrite Hat. replace (S n - 1) with n by lia.
    destruct (Ascii.eqb d nl); [|done].
    unfold ret. by rewrite (replaceIfDefined_rewrite a x (d :: rest)). }
  split.
  - intros Hr. change (list_ascii_of_string "#if defined(") with ifdefined.
    rewrite (Hround nl). cbv zeta. change (Ascii.eqb nl nl) with true. cbv iota.
    apply replaceIfDefined_loop_fixed.
    change (a ++ "#ifdef " ++ x ++ nl :: rest) with (a ++ hash :: "ifdef " ++ x ++ nl :: rest).
    replace ("ifdef " ++ x ++ nl :: rest) with (("ifdef " ++ x ++ [nl]) ++ rest)
      by (by rewrite <- !app_assoc).
    apply no_ifdefined_after; [exact Ha| |reflexivity|exact Hr].
    rewrite !not_elem_of_app. split_and!; [decide_closed|done|decide_closed].
  - intros Hc Hr. change (list_ascii_of_string "#if defined(") with ifdefined.
    rewrite (Hround c). cbv zeta. destruct (eqb_nl_spec c) as [->|_]; [done|].
    apply replaceIfDefined_loop_done, find_None_before. intros u w E.
    change (ifdefined ++ x ++ ")" ++ c :: rest)
      with (hash :: "if defined(" ++ x ++ ")" ++ c :: rest) in E.
    change (ifdefined ++ w) with (hash :: "if defined(" ++ w) in E.
    destruct (first_char_split hash a u _ _ Ha E) as [[-> E']|(k & -> & E')]; [lia|].
    exfalso.
    replace ("if defined(" ++ x ++ ")" ++ c :: rest)
      with (("if defined(" ++ x ++ ")") ++ c :: rest) in E' by (by rewrite <- !app_assoc).
    assert (Hm : hash ∉ "if defined(" ++ x ++ ")").
    { rewrite !not_elem_of_app. split_and!; [decide_closed|done|decide_closed]. }
    destruct (notin_prefix_split hash _ k _ _ Hm E') as (k' & -> & E2).
    apply Hr. exists k', w. by rewrite E2.
Qed.

Lemma replaceIfDefined_rewrites_guard_witness :
  replaceIfDefined ("int a;" ++ [nl] ++ "#if defined(" ++ "FOO" ++ ")" ++ nl :: "x")
  = Some ("int a;" ++ [nl] ++ "#ifdef " ++ "FOO" ++ nl :: "x")
  /\ replaceIfDefined ("#if defined(" ++ "A" ++ ")" ++ sp :: "|| defined(B)")
     = Some ("#if defined(" ++ "A" ++ ")" ++ sp :: "|| defined(B)").
Proof.
  split.
  - apply (replaceIfDefined_rewrites_guard ("int a;" ++ [nl]) "FOO" "x" nl);
      [decide_closed..|]. by apply no_sub_find0.
  - apply (replaceIfDefined_rewrites_guard [] "A" "|| defined(B)" sp);
      [apply not_elem_of_nil|decide_closed|decide_closed|done|]. by apply no_sub_find0.
Defined.

Lemma replace_tabs_no_tab s : tab ∉ replace_tabs s.
Proof.
  induction s as [|c s IH]; [apply not_elem_of_nil|]. unfold replace_tabs in *. simpl.
  apply not_elem_of_cons. split; [|done].
  destruct (Ascii.eqb_spec c tab) as [->|Hc]; [done | congruence].
Qed.

Lemma strip_spaces_no_tab s : tab ∉ s -> tab ∉ strip_spaces s.
Proof.
  induction s as [|c s IH]; [done|]. intros Hs. simpl.
  destruct (Ascii.eqb c sp); [|done]. apply IH. by apply not_elem_of_cons in Hs as [_ ?].
Qed.

Lemma dup_first_nl_no_tab w : tab ∉ w -> tab ∉ dup_first_nl w.
Proof.
  induction w as [|c w IH]; [done|]. intros [Hc Hw]%not_elem_of_cons. simpl.
  destruct (Ascii.eqb c nl).
  - rewrite !not_elem_of_cons. split_and!; [done|done|done].
  - apply not_elem_of_cons. split; [done | by apply IH].
Qed.

Lemma fold_loop_no_tab fuel : forall s out,
  tab ∉ s -> fold_loop fuel s = Some out -> tab ∉ out.
Proof.
  induction fuel as [|fuel IH]; intros s out Hs.
  - simpl. destruct (Str.rfind s [bslash; nl]); [done|]. by intros [= <-].
  - rewrite fold_loop_unfold. destruct (Str.rfind s [bslash; nl]) as [loc|] eqn:E.
    + apply rfind_Some in E as (u & w & -> & <- & _). cbn [app].
      rewrite fold_step_eq. apply IH.
      rewrite !not_elem_of_app in Hs. destruct Hs as (Hu & _ & Hw).
      rewrite !not_elem_of_app. split_and!; [done| |by apply dup_first_nl_no_tab].
      destruct (space_after_cases u) as [-> | ->]; [apply not_elem_of_nil | decide_closed].
    + by intros [= <-].
Qed.

Lemma replaceIfDefined_loop_no_tab fuel : forall ret pos out,
  tab ∉ ret -> replaceIfDefined_loop fuel ret pos = Some out -> tab ∉ out.
Proof.
  induction fuel as [|fuel IH]; intros ret pos out Hr.
  - rewrite replaceIfDefined_loop_0. destruct (Str.find ret ifdefined pos); [done|].
    by intros [= <-].
  - rewrite replaceIfDefined_loop_unfold.
    destruct (Str.find ret ifdefined pos) as [p|] eqn:F; [|by intros [= <-]].
    destruct (Str.find ret ")" (p + 9)) as [p2|] eqn:F2; [|by intros [= <-]].
    destruct (replaceIfDefined_round _ _ _ _ F F2)
      as (u & k & w2 & -> & -> & Hpos & -> & ->).
    cbv zeta. destruct (Ascii.eqb _ nl); [|by apply IH].
    rewrite replaceIfDefined_rewrite. apply IH.
    rewrite !not_elem_of_app in Hr. destruct Hr as (Hu & _ & Hk & _ & Hw).
    rewrite !not_elem_of_app. split_and!; [done|decide_closed|done|done].
Qed.

(** X25: the cleaning returns for every input, and what it returns
    holds no tab, whether the input has it inside a string constant or
    outside. *)
Theorem clean_leaves_no_tab (input : text) :
  exists out, clean input = Some out /\ tab ∉ out.
Proof.
  destruct (clean_total input) as [out H]. exists out. split; [done|].
  unfold clean, unfolded in H.
  destruct (read input) as [r|]; [|done]. cbn [mbind option_bind] in H.
  destruct (removeSpaceNearNL _) as [t|] eqn:E1; [|done]. cbn [mbind option_bind] in H.
  destruct (fold_continuations t) as [t'|] eqn:E2; [|done]. cbn [mbind option_bind] in H.
  assert (Ht : tab ∉ t).
  { assert (Hf : Forall (fun c => c <> tab) t).
    { eapply (removeSpaceNearNL_loop_Forall (fun c => c <> tab)); [|exact E1].
      apply Forall_forall. intros c Hc ->. revert Hc. rewrite remove_indentation_eq.
      apply strip_spaces_no_tab, replace_tabs_no_tab. }
    intros Hin. by apply (proj1 (Forall_forall _ _) Hf) in Hin. }
  apply (replaceIfDefined_loop_no_tab _ _ _ _ (fold_loop_no_tab _ _ _ Ht E2) H).
Qed.
(** ** The cleaning applied twice *)




































(** ** The macro expander and the entry point *)

Lemma parse_args_arg a : forall depth s pos2 par params,
  arg_ok depth a = true ->
  parse_args (a ++ s) pos2 (1 + Z.of_nat depth)%Z par params
  = parse_args s (pos2 + length a) 1%Z (par ++ a) params.
Proof.
  induction a as [|c a IH]; intros depth s pos2 par params Ha.
  - simpl in Ha. apply Nat.eqb_eq in Ha as ->. cbn [app length].
    by rewrite Nat.add_0_r, app_nil_r.
  - cbn [app parse_args]. cbn [arg_ok] in Ha.
    replace (pos2 + length (c :: a)) with (S pos2 + length a) by (simpl; lia).
    replace (par ++ c :: a) with ((par ++ [c]) ++ a) by (by rewrite <- app_assoc).
    destruct (Ascii.eqb_spec c "(") as [->|H1].
    { replace (1 + Z.of_nat depth + 1 =? 1)%Z with false by (symmetry; apply Z.eqb_neq; lia).
      change (Ascii.eqb "(" ",") with false. rewrite andb_false_r.
      replace (1 <=? 1 + Z.of_nat depth + 1)%Z with true by (symmetry; apply Z.leb_le; lia).
      replace (1 + Z.of_nat depth + 1)%Z with (1 + Z.of_nat (S depth))%Z by lia.
      by apply IH. }
    destruct (Ascii.eqb_spec c ")") as [->|H2].
    { apply andb_true_iff in Ha as [Hd Ha]. apply Nat.ltb_lt in Hd.
      replace (1 + Z.of_nat depth - 1 <=? 0)%Z with false by (symmetry; apply Z.leb_gt; lia).
      change (Ascii.eqb ")" ",") with false. rewrite andb_false_r.
      replace (1 <=? 1 + Z.of_nat depth - 1)%Z with true by (symmetry; apply Z.leb_le; lia).
      replace (1 + Z.of_nat depth - 1)%Z with (1 + Z.of_nat (depth - 1))%Z by lia.
      by apply IH. }
    destruct (Ascii.eqb_spec c ",") as [->|H3].
    { apply andb_true_iff in Ha as [Hd Ha]. apply Nat.ltb_lt in Hd.
      replace (1 + Z.of_nat depth =? 1)%Z with false by (symmetry; apply Z.eqb_neq; lia).
      cbn [andb].
      replace (1 <=? 1 + Z.of_nat depth)%Z with true by (symmetry; apply Z.leb_le; lia).
      by apply IH. }
    rewrite andb_false_r.
    replace (1 <=? 1 + Z.of_nat depth)%Z with true by (symmetry; apply Z.leb_le; lia).
    by apply IH.
Qed.

Lemma parse_args_list args : forall a par params pos2 post,
  Forall (fun a => arg_ok 0 a = true) (a :: args) ->
  parse_args (join_commas (a :: args) ++ ")" ++ post) pos2 1%Z par params
  = (params ++ (par ++ a) :: args, pos2 + length (join_commas (a :: args))).
Proof.
  induction args as [|b args IH]; intros a par params pos2 post Hf;
    apply Forall_cons in Hf as [Ha Hf].
  - cbn [join_commas]. rewrite (parse_args_arg a 0) by done. reflexivity.
  - change (join_commas (a :: b :: args)) with (a ++ "," ++ join_commas (b :: args)).
    rewrite <- !app_assoc. rewrite (parse_args_arg a 0) by done.
    change (list_ascii_of_string ",") with [","%char]. cbn [app parse_args]. change (Ascii.eqb "," "(") with false.
    change (Ascii.eqb "," ")") with false. cbv iota.
    change ((1 =? 1)%Z && Ascii.eqb "," ",") with true. cbv iota.
    rewrite IH by done. unfold push_back. rewrite <- app_assoc. cbn [app].
    f_equal. rewrite !length_app. simpl. lia.
Qed.

(** X26: at the '(' that follows an occurrence of a function-like
    macro, the expander reads the arguments that the ',' outside nested
    parentheses separate, up to the matching ')': for arguments with
    balanced parentheses it returns them as written, with the position
    of that ')'. *)
Theorem occurrence_args_reads_arguments (macroparams args : list text) (pre post : text) :
  macroparams <> [] -> args <> [] ->
  Forall (fun a => arg_ok 0 a = true) args ->
  occurrence_args macroparams (pre ++ "(" ++ join_commas args ++ ")" ++ post) (length pre)
  = Some (args, length pre + 1 + length (join_commas args)).
Proof.
  intros Hm Ha Hf. unfold occurrence_args.
  destruct macroparams as [|mp macroparams]; [done|]. cbn [empty negb].
  replace (length pre) with (length pre + 0) at 1 by lia. rewrite at_app_add.
  change (Str.at_ ("(" ++ join_commas args ++ ")" ++ post) 0) with "("%char.
  change (negb (Ascii.eqb "(" "(")) with false. cbv iota.
  rewrite drop_app_length.
  change ("(" ++ join_commas args ++ ")" ++ post)
    with ("("%char :: join_commas args ++ ")" ++ post).
  cbn [parse_args]. change (Ascii.eqb "(" "(") with true. cbv iota.
  change ((0 + 1 =? 1)%Z) with true. cbv iota.
  destruct args as [|a args]; [done|].
  rewrite parse_args_list by done. cbn [app]. do 2 f_equal. lia.
Qed.

Lemma occurrence_args_reads_arguments_witness :
  occurrence_args ["x" : text; "y" : text] ("F" ++ "(" ++ join_commas ["f(a,b)" : text; "c" : text] ++ ")" ++ ";") 1
  = Some (["f(a,b)" : text; "c" : text], 1 + 1 + length (join_commas ["f(a,b)" : text; "c" : text])).
Proof.
  apply (occurrence_args_reads_arguments ["x" : text; "y" : text]
           ["f(a,b)" : text; "c" : text] "F" ";"); [done | done |].
  repeat constructor.
Defined.

Lemma define_end_None fuel code : define_end fuel code None = Some None.
Proof. by destruct fuel. Qed.

Lemma define_end_stop fuel code e :
  Ascii.eqb (Str.at_ code (e - 1)) bslash = false ->
  define_end fuel code (Some e) = Some (Some e).
Proof. intros H. destruct fuel; simpl; by rewrite H. Qed.

Lemma join_macro_lines_none fuel macro code defpos :
  Str.find macro [bslash; nl] 0 = None ->
  join_macro_lines fuel macro code defpos = Some (macro, code, defpos).
Proof. intros H. destruct fuel; simpl; by rewrite H. Qed.

Lemma at_before s t : s <> [] -> last s = Some (Str.at_ (s ++ t) (length s - 1)).
Proof.
  destruct s as [|z l _] using rev_ind; [done|]. intros _.
  rewrite last_snoc, length_app. simpl.
  replace (length l + 1 - 1) with (length l) by lia.
  unfold Str.at_. rewrite <- app_assoc. cbn [app]. by rewrite nth_middle.
Qed.

Section ExpanderMore.

Variable tk : Tokenizer.

(** X27: a [#define] after which the text has no newline is removed
    with all that follows it; here the text before it has no '#'. *)
Theorem expandMacros_unterminated_define (fuel : nat) (a b : text) :
  hash ∉ a -> nl ∉ b ->
  expandMacros tk (S fuel) (a ++ "#define" ++ b) = Some a.
Proof.
  intros Ha Hb. unfold expandMacros. rewrite expandMacros_loop_unfold.
  assert (F1 : Str.find (a ++ "#define" ++ b) "#define" 0 = Some (length a)).
  { rewrite find_0. by apply (find0_first_char hash "define"). }
  rewrite F1.
  assert (F2 : Str.find (a ++ "#define" ++ b) [nl] (length a + 6) = None).
  { replace (a ++ "#define" ++ b) with ((a ++ "#defin") ++ "e" ++ b)
      by (rewrite <- ?app_assoc; reflexivity).
    replace (length a + 6) with (length (a ++ "#defin")) by (by rewrite length_app).
    rewrite find_app_length, find0_char_None; [done|].
    rewrite not_elem_of_app. split; [decide_closed | done]. }
  rewrite F2, define_end_None. cbn [mbind option_bind]. unfold Str.erase.
  by rewrite take_app_length.
Qed.

Lemma expand_loop_skips toks macro macroname macroparams code fuel : forall pos0,
  length code - pos0 <= fuel ->
  length macro <= pos0 + 1 + length macroname ->
  expand_loop tk fuel toks macro macroname macroparams code pos0 = Some code.
Proof.
  induction fuel as [|fuel IH]; intros pos0 Hf Hm.
  - simpl. destruct (Str.find code macroname (pos0 + 1)) as [q|] eqn:F; [|done].
    apply find_bounds in F. lia.
  - rewrite expand_loop_unfold.
    destruct (Str.find code macroname (pos0 + 1)) as [q|] eqn:F; [|done].
    apply find_bounds in F.
    assert (Ho : expand_occurrence tk toks macro macroname macroparams code q = Some (code, q)).
    { unfold expand_occurrence. destruct (_ && _); [done|].
      replace (length macro <=? q + length macroname)%nat with true; [done|].
      symmetry. apply Nat.leb_le. lia. }
    rewrite Ho. cbn [mbind option_bind]. apply IH; lia.
Qed.

(** X28: a one-line [#define] after a text without '#': when the first
    occurrence of the macro name after the definition ends at a position
    of the text that is not less than the length of the definition (its
    text after "#define " with the newline), no occurrence is replaced:
    the definition is removed, its newline stays, and the rest of the
    text is returned as it is. *)
Theorem expandMacros_far_occurrences_kept (fuel : nat) (a m b : text)
    (tok : Token) (toks : list Token) :
  hash ∉ a -> nl ∉ m -> last ("#define " ++ m) <> Some bslash ->
  tokenize tk (c_str (m ++ [nl])) = tok :: toks ->
  (forall q, Str.find (a ++ nl :: b) (tok_str tok) (length a + 1) = Some q ->
             length m + 1 <= q + length (tok_str tok)) ->
  ~ has_sub "#define" b ->
  expandMacros tk (S fuel) (a ++ "#define " ++ m ++ nl :: b) = Some (a ++ nl :: b).
Proof.
  intros Ha Hm Hl Htok Hfar Hb. unfold expandMacros. rewrite expandMacros_loop_unfold.
  set (code := a ++ "#define " ++ m ++ nl :: b).
  assert (F1 : Str.find code "#define" 0 = Some (length a)).
  { rewrite find_0. unfold code.
    replace (a ++ "#define " ++ m ++ nl :: b) with (a ++ "#define" ++ (" " ++ m ++ nl :: b))
      by (rewrite <- ?app_assoc; reflexivity).
    by apply (find0_first_char hash "define"). }
  rewrite F1.
  assert (F2 : Str.find code [nl] (length a + 6) = Some (length (a ++ "#define " ++ m))).
  { unfold code.
    replace (a ++ "#define " ++ m ++ nl :: b) with ((a ++ "#defin") ++ ("e " ++ m) ++ nl :: b)
      by (rewrite <- ?app_assoc; reflexivity).
    replace (length a + 6) with (length (a ++ "#defin")) by (by rewrite length_app).
    rewrite find_app_length, find0_char.
    - simpl. f_equal. len.
    - rewrite not_elem_of_app. split; [decide_closed | done]. }
  rewrite F2.
  assert (Hat : Ascii.eqb (Str.at_ code (length (a ++ "#define " ++ m) - 1)) bslash = false).
  { apply Ascii.eqb_neq. intros Hc. apply Hl.
    assert (Hne : a ++ "#define " ++ m <> []).
    { intros E. apply (f_equal length) in E. revert E. len. }
    pose proof (at_before _ (nl :: b) Hne) as Hlast.
    rewrite last_app in Hlast. unfold code in Hc.
    replace (a ++ "#define " ++ m ++ nl :: b) with ((a ++ "#define " ++ m) ++ nl :: b) in Hc
      by (rewrite <- ?app_assoc; reflexivity).
    rewrite Hc in Hlast. destruct (last ("#define " ++ m)) eqn:E; [done|].
    by apply last_None in E. }
  rewrite (define_end_stop _ _ _ Hat). cbn [mbind option_bind].
  assert (Hmacro : Str.substr code (length a + 8)
                     (length (a ++ "#define " ++ m) - length a - 7) = m ++ [nl]).
  { unfold Str.substr, code.
    replace (a ++ "#define " ++ m ++ nl :: b) with ((a ++ "#define ") ++ (m ++ [nl]) ++ b)
      by (rewrite <- ?app_assoc; reflexivity).
    replace (length a + 8) with (length (a ++ "#define ")) by (by rewrite length_app).
    rewrite drop_app_length.
    replace (length (a ++ "#define " ++ m) - length a - 7) with (length (m ++ [nl]))
      by len.
    by rewrite take_app_length. }
  assert (Hcode : Str.erase code (length a) (Some (length (a ++ "#define " ++ m) - length a))
                  = a ++ nl :: b).
  { apply (erase_at _ a ("#define " ++ m) (nl :: b)); [|done|len].
    unfold code. by rewrite <- !app_assoc. }
  cbv zeta. rewrite Hmacro, Hcode.
  rewrite join_macro_lines_none.
  2:{ rewrite find_0. destruct (Str.find0 [bslash; nl] (m ++ [nl])) as [i|] eqn:F; [|done].
      exfalso. apply find0_Some in F as (u & w & E & _).
      destruct w as [|x w _] using rev_ind.
      - cbn [app] in E.
        replace (u ++ [bslash; nl]) with ((u ++ [bslash]) ++ [nl]) in E
          by (by rewrite <- app_assoc).
        apply app_inj_tail in E as [-> _]. apply Hl.
        by rewrite app_assoc, last_snoc.
      - rewrite !app_assoc in E. apply app_inj_tail in E as [-> _].
        apply Hm. rewrite <- !app_assoc. apply elem_of_app. right. cbn [app].
        right. left. }
  cbn [mbind option_bind]. rewrite Htok.
  assert (Hloop : expand_loop tk (length (a ++ nl :: b)) (tok :: toks) (m ++ [nl])
                    (tok_str tok) (macro_params tk (tok :: toks)) (a ++ nl :: b) (length a)
                  = Some (a ++ nl :: b)).
  { assert (Hlen : exists n, length (a ++ nl :: b) = S n).
    { exists (length a + length b). len. }
    destruct Hlen as [n Hlen]. rewrite Hlen, expand_loop_unfold.
    destruct (Str.find (a ++ nl :: b) (tok_str tok) (length a + 1)) as [q|] eqn:F; [|done].
    specialize (Hfar q eq_refl). apply find_bounds in F.
    assert (Ho : expand_occurrence tk (tok :: toks) (m ++ [nl]) (tok_str tok)
                   (macro_params tk (tok :: toks)) (a ++ nl :: b) q = Some (a ++ nl :: b, q)).
    { unfold expand_occurrence. destruct (_ && _); [done|].
      replace (length (m ++ [nl]) <=? q + length (tok_str tok))%nat with true; [done|].
      symmetry. apply Nat.leb_le. rewrite length_app. simpl. lia. }
    rewrite Ho. cbn [mbind option_bind]. apply expand_loop_skips; [lia|].
    rewrite length_app. simpl. lia. }
  rewrite Hloop. cbn [mbind option_bind].
  apply expandMacros_loop_done.
  apply find_no_occurrence. intros u w E.
  replace (a ++ nl :: b) with ((a ++ [nl]) ++ b) in E by (rewrite <- ?app_assoc; reflexivity).
  assert (Hh : hash ∉ a ++ [nl]).
  { rewrite not_elem_of_app. split; [done | decide_closed]. }
  destruct (notin_prefix_split hash _ u b ("define" ++ w) Hh E) as (k & -> & E2).
  apply Hb. by exists k, w.
Qed.

End ExpanderMore.

Lemma expandMacros_unterminated_define_witness :
  expandMacros spec_tokenizer 1 ("int a;" ++ [nl] ++ "#define" ++ " N 1") = Some ("int a;" ++ [nl]).
Proof. apply (expandMacros_unterminated_define spec_tokenizer 0 ("int a;" ++ [nl]) " N 1"); decide_closed. Defined.

Lemma expandMacros_far_occurrences_kept_witness :
  expandMacros spec_tokenizer 1 ("int x;" ++ [nl] ++ "#define " ++ "N 42" ++ nl :: "int a=N;")
  = Some (("int x;" ++ [nl]) ++ nl :: "int a=N;").
Proof.
  apply (expandMacros_far_occurrences_kept spec_tokenizer 0 ("int x;" ++ [nl]) "N 42" "int a=N;"
           (MkToken "N" true) [MkToken "42" false]).
  - decide_closed.
  - decide_closed.
  - done.
  - reflexivity.
  - intros q [= <-]. simpl. lia.
  - by apply no_sub_find0.
Defined.

Lemma take_insert_before (s t : text) d p :
  d <= p -> d <= length s -> take d (Str.insert s p t) = take d s.
Proof.
  intros Hp Hl. unfold Str.insert. rewrite take_app_le by (rewrite length_take; lia).
  rewrite take_take. f_equal. lia.
Qed.

Lemma take_erase_before (s : text) d n :
  d <= length s -> take d (Str.erase s d n) = take d s.
Proof.
  intros Hl. unfold Str.erase. destruct n as [n|].
  - rewrite take_app_le by (rewrite length_take; lia). rewrite take_take. f_equal. lia.
  - rewrite take_take. f_equal. lia.
Qed.

Lemma take_le_eq (s t : text) n d : n <= d -> take d s = take d t -> take n s = take n t.
Proof.
  intros Hn H. replace n with (n `min` d) by lia. by rewrite <- !take_take, H.
Qed.

Lemma join_macro_lines_prefix fuel : forall macro code defpos macro' code' defpos' d,
  join_macro_lines fuel macro code defpos = Some (macro', code', defpos') ->
  d <= defpos -> d <= length code ->
  d <= defpos' /\ d <= length code' /\ take d code' = take d code.
Proof.
  induction fuel as [|fuel IH]; intros macro code defpos macro' code' defpos' d; simpl.
  - destruct (Str.find macro [bslash; nl] 0); [done|]. intros [= <- <- <-]. done.
  - destruct (Str.find macro [bslash; nl] 0); [|intros [= <- <- <-]; done].
    intros H Hd Hl.
    destruct (IH _ _ _ _ _ _ d H) as (H1 & H2 & H3); [lia| |].
    + unfold Str.insert. rewrite !length_app, length_take, length_drop. simpl. lia.
    + split; [done|]. split; [done|]. rewrite H3. by apply take_insert_before.
Qed.

Section ExpanderPrefix.

Variable tk : Tokenizer.

Lemma expandMacros_loop_prefix fuel : forall code defpos out n,
  expandMacros_loop tk fuel code defpos = Some out ->
  (forall d, Str.find code "#define" defpos = Some d -> n <= d) ->
  take n out = take n code.
Proof.
  induction fuel as [|fuel IH]; intros code defpos out n.
  - cbn [expandMacros_loop]. destruct (Str.find code "#define" defpos); [done|].
    by intros [= <-].
  - rewrite expandMacros_loop_unfold.
    destruct (Str.find code "#define" defpos) as [d|] eqn:F; [|by intros [= <-]].
    intros H Hn. specialize (Hn d eq_refl). apply find_bounds in F as [Hd1 Hd2].
    apply (take_le_eq _ _ n d Hn).
    destruct (define_end _ _ _) as [[endpos|]|]; cbn [mbind option_bind] in H; [| |done].
    2:{ injection H as <-. exact (take_erase_before code d None Hd2). }
    cbv zeta in H.
    destruct (join_macro_lines _ _ _ _) as [[[macro' code2] d2]|] eqn:J;
      cbn [mbind option_bind] in H; [|done].
    destruct (join_macro_lines_prefix _ _ _ _ _ _ _ d J) as (Hd2' & Hl2 & Ht2); [lia| |].
    { unfold Str.erase. rewrite length_app, length_take. lia. }
    destruct (tokenize tk (c_str macro')) as [|tok toks] eqn:T; [done|].
    destruct (expand_loop tk _ _ _ _ _ _ _) as [code3|] eqn:E;
      cbn [mbind option_bind] in H; [|done].
    assert (H3 : take d code3 = take d code2).
    { apply (expand_loop_prefix tk _ _ _ _ _ _ _ _ _ E). intros q Hq.
      apply find_bounds in Hq. lia. }
    assert (H4 : take d out = take d code3).
    { apply (IH _ _ _ _ H). intros d' Hd'. apply find_bounds in Hd'. lia. }
    rewrite H4, H3, Ht2. by apply take_erase_before.
Qed.

(** X29: [expandMacros] never changes the text before the first
    [#define]: what it returns starts with it; and a text without
    [#define] is returned as it is. *)
Theorem expandMacros_keeps_text_before_define (fuel : nat) (code out : text) :
  expandMacros tk fuel code = Some out ->
  match Str.find code "#define" 0 with
  | Some d => take d out = take d code
  | None => out = code
  end.
Proof.
  intros H. destruct (Str.find code "#define" 0) as [d|] eqn:F.
  - apply (expandMacros_loop_prefix _ _ _ _ _ H). intros d' Hd'. rewrite F in Hd'.
    injection Hd' as <-. lia.
  - unfold expandMacros in H. rewrite expandMacros_loop_done in H by done. by injection H.
Qed.

End ExpanderPrefix.

Lemma expandMacros_keeps_text_before_define_witness :
  let code : text := "F(1);" ++ [nl] ++ "#define F(x) x+x" ++ [nl] ++ "F(2);" in
  take 6 (default [] (expandMacros spec_tokenizer 2 code)) = take 6 code.
Proof.
  intros code.
  apply (expandMacros_keeps_text_before_define spec_tokenizer 2 code
           (default [] (expandMacros spec_tokenizer 2 code))).
  vm_compute. reflexivity.
Defined.

Lemma fill_result_lookup data configs : forall (result m : gmap text text) (cfg : text),
  fill_result data configs result = Some m ->
  m !! cfg = if bool_decide (cfg ∈ configs) then getcode data cfg else result !! cfg.
Proof.
  induction configs as [|it configs IH]; intros result m cfg H; simpl in H.
  - simplify_eq. rewrite bool_decide_eq_false_2; [done | apply not_elem_of_nil].
  - destruct (getcode data it) as [code|] eqn:E; [|done]. simpl in H.
    rewrite (IH _ _ cfg H). case_bool_decide as E1.
    + rewrite bool_decide_eq_true_2; [done | by right].
    + destruct (decide (cfg = it)) as [->|Hne].
      * rewrite lookup_insert_eq, bool_decide_eq_true_2; [done | by left].
      * rewrite lookup_insert_ne by done. rewrite bool_decide_eq_false_2; [done|].
        by intros [?|?]%elem_of_cons.
Qed.

(** X30: in the map that [preprocess] fills, every configuration found
    maps to what [getcode] returns for it on the cleaned text, and every
    other key keeps the entry it had. *)
Theorem preprocess_map_stores_getcode (tk : Tokenizer) (fuel : nat) (input data : text)
    (configs : list text) (result m : gmap text text) (cfg : text) :
  preprocess tk fuel input = Some (data, configs) ->
  preprocess_map tk fuel input result = Some m ->
  m !! cfg = if bool_decide (cfg ∈ configs) then getcode data cfg else result !! cfg.
Proof.
  intros Hp. unfold preprocess_map. rewrite Hp. cbn [mbind option_bind].
  apply fill_result_lookup.
Qed.

Lemma preprocess_map_stores_getcode_witness :
  let input := src ["#ifdef A"; "x"; "#endif"] in
  default ∅ (preprocess_map spec_tokenizer 0 input {[ ("B" : text) := ("old" : text) ]})
    !! ("A" : text)
  = getcode input "A".
Proof.
  intros input.
  apply (preprocess_map_stores_getcode spec_tokenizer 0 input input
           [ []; "A" : text ] {[ ("B" : text) := ("old" : text) ]} _ "A").
  - reflexivity.
  - vm_compute. reflexivity.
Defined.
